(** * ConcursosAtivos: the table engine of [src/pdf_parser.py] and the
      openings parser of [src/utils.py]

    The development embeds three functions of the repository,
    - [PDFParser.find_cargos_table] (classification of the extracted tables
      and their consolidation across pages),
    - [PDFParser.parse_cargos] (column mapping and row-by-row extraction),
    - [utils.parse_vagas] (the openings text with its reserve-list marker),
    and proves the properties the specification states about them.

    Python strings are sequences of Unicode code points; they are modelled
    as lists of code points so that [len], slicing and substring search count
    what Python counts.  Two tables of the Unicode database are not
    reproduced: [str.lower] and the decimal digits recognised by [\d] and
    [int].  The definitions take them as parameters ([lower], [digit_val]);
    [lower_latin1] and [ascii_digit] are the instances used to evaluate the
    code on concrete inputs.  Two more parameters stand for what the
    libraries decide: [pd_concat], which returns a frame or raises, and
    [max_str_digits], the longest string of digits [int] converts. *)

From Stdlib Require Import Ascii String NArith ZArith.
From stdpp Require Import base numbers list strings gmap sorting.

(** ** Python strings and values *)

Module Py.

Local Open Scope N_scope.

(** A code point, and a [str]. *)
Abbreviation char := N (only parsing).
Abbreviation pystr := (list N) (only parsing).

(** String literals of this file are UTF-8 byte sequences; [u] decodes
    one into the code points of the Python literal it stands for. *)
Definition cont (a : ascii) : N := N.land (N_of_ascii a) 63.

Fixpoint u (s : string) : pystr :=
  match s with
  | EmptyString => []
  | String a s1 =>
      let b := N_of_ascii a in
      if b <? 192 then b :: u s1
      else if b <? 224 then
        match s1 with
        | String a2 s2 => (N.land b 31 * 64 + cont a2) :: u s2
        | EmptyString => [b]
        end
      else if b <? 240 then
        match s1 with
        | String a2 (String a3 s3) =>
            (N.land b 15 * 4096 + cont a2 * 64 + cont a3) :: u s3
        | _ => [b]
        end
      else
        match s1 with
        | String a2 (String a3 (String a4 s4)) =>
            (N.land b 7 * 262144 + cont a2 * 4096 + cont a3 * 64 + cont a4)
              :: u s4
        | _ => [b]
        end
  end.

(** [a == b] on strings. *)
Definition eqb (a b : pystr) : bool := bool_decide (a = b).

(** [x in [a, b, ...]] for a list of strings. *)
Definition in_list (x : pystr) (l : list pystr) : bool :=
  existsb (eqb x) l.

(** [s.startswith(p)]. *)
Fixpoint startswith (p s : pystr) : bool :=
  match p, s with
  | [], _ => true
  | _ :: _, [] => false
  | x :: p', y :: s' => (x =? y) && startswith p' s'
  end.

(** [p in s]: [p] occurs in [s] as a contiguous run of code points. *)
Fixpoint contains (p s : pystr) : bool :=
  startswith p s ||
  match s with
  | [] => false
  | _ :: s' => contains p s'
  end.

(** [sep.join(parts)]. *)
Fixpoint join (sep : pystr) (parts : list pystr) : pystr :=
  match parts with
  | [] => []
  | [x] => x
  | x :: rest => x ++ sep ++ join sep rest
  end.

(** [str.isspace] on one code point (the white-space table of CPython,
    also what [\s] matches in a [str] pattern). *)
Definition isspace (c : char) : bool :=
  ((9 <=? c) && (c <=? 13)) || ((28 <=? c) && (c <=? 32))
  || (c =? 133) || (c =? 160) || (c =? 5760)
  || ((8192 <=? c) && (c <=? 8202))
  || (c =? 8232) || (c =? 8233) || (c =? 8239) || (c =? 8287)
  || (c =? 12288).

Fixpoint lstrip (s : pystr) : pystr :=
  match s with
  | c :: s' => if isspace c then lstrip s' else s
  | [] => []
  end.

Definition rstrip (s : pystr) : pystr := rev (lstrip (rev s)).

(** [s.strip()]. *)
Definition strip (s : pystr) : pystr := rstrip (lstrip s).

(** The values a table cell or a column label holds: the text of a cell,
    [None] for a cell the extractor left empty, the float [nan] pandas
    uses for a missing value, and an integer (the page number stored in
    the [_pagina] column). *)
Inductive value :=
| VStr (s : pystr)
| VNone
| VNan
| VInt (z : Z).

Fixpoint digits (d : Decimal.uint) : pystr :=
  match d with
  | Decimal.Nil => []
  | Decimal.D0 d => 48 :: digits d
  | Decimal.D1 d => 49 :: digits d
  | Decimal.D2 d => 50 :: digits d
  | Decimal.D3 d => 51 :: digits d
  | Decimal.D4 d => 52 :: digits d
  | Decimal.D5 d => 53 :: digits d
  | Decimal.D6 d => 54 :: digits d
  | Decimal.D7 d => 55 :: digits d
  | Decimal.D8 d => 56 :: digits d
  | Decimal.D9 d => 57 :: digits d
  end.

(** [str(v)]. *)
Definition str (v : value) : pystr :=
  match v with
  | VStr s => s
  | VNone => u "None"
  | VNan => u "nan"
  | VInt z =>
      match Z.to_int z with
      | Decimal.Pos d => digits d
      | Decimal.Neg d => 45 :: digits d
      end
  end.

(** [str.lower] on the code points below U+0100: the ASCII capitals and
    the Latin-1 capitals (U+00C0..U+00DE, the multiplication sign
    excepted) move 32 places up, every other code point stays. *)
Definition lower_char (c : char) : char :=
  if ((65 <=? c) && (c <=? 90))
     || ((192 <=? c) && (c <=? 222) && negb (c =? 215))
  then c + 32 else c.

Definition lower_latin1 (s : pystr) : pystr := map lower_char s.

(** The exceptions of the embedded code: [IndexError] of a read by
    position, [ValueError] of [int] (and of [pd.concat] on no frame), and
    [pandas.errors.InvalidIndexError] of [pd.concat]. *)
Inductive exception := IndexError | ValueError | InvalidIndexError.

Inductive result (A : Type) :=
| Ok (a : A)
| Raise (e : exception).
Arguments Ok {A} a.
Arguments Raise {A} e.

(** [seq[i]] by position: an index past the end raises. *)
Definition iloc {A} (l : list A) (i : nat) : result A :=
  match l !! i with
  | Some x => Ok x
  | None => Raise IndexError
  end.

(** [s.endswith(p)]. *)
Definition endswith (p s : pystr) : bool := startswith (rev p) (rev s).

(** [s.split()]: the maximal runs of characters that are not white space.
    [word] is the run being read. *)
Fixpoint split_from (word s : pystr) : list pystr :=
  match s with
  | [] => match word with [] => [] | _ => [word] end
  | c :: s' =>
      if isspace c then
        match word with
        | [] => split_from [] s'
        | _ => word :: split_from [] s'
        end
      else split_from (word ++ [c]) s'
  end.

Definition split_ws (s : pystr) : list pystr := split_from [] s.

(** [s.replace(old, new)]: every occurrence of [old], leftmost first and
    without overlap.  [skip] counts the characters of a replaced occurrence
    still to pass over. *)
Fixpoint replace_go (old new : pystr) (skip : nat) (s : pystr) : pystr :=
  match s with
  | [] => []
  | c :: s' =>
      match skip with
      | S k => replace_go old new k s'
      | O =>
          if startswith old s
          then new ++ replace_go old new (length old - 1) s'
          else c :: replace_go old new 0 s'
      end
  end.

Definition str_replace (old new s : pystr) : pystr :=
  match old with
  | [] => new ++ flat_map (fun c => c :: new) s
  | _ => replace_go old new 0 s
  end.

(** The text before the first [c] and the text after it. *)
Fixpoint break_at (c : char) (s : pystr) : option (pystr * pystr) :=
  match s with
  | [] => None
  | x :: s' =>
      if x =? c then Some ([], s')
      else match break_at c s' with
           | Some (a, b) => Some (x :: a, b)
           | None => None
           end
  end.

(** [s.rsplit(c, 1)] for a separator of one character: the text cut at
    the last [c], or the text alone when it has none. *)
Definition rsplit1 (c : char) (s : pystr) : list pystr :=
  match break_at c (rev s) with
  | Some (a, b) => [rev b; rev a]
  | None => [s]
  end.

(** [s.split(c)[-1]] for a separator of one character: the text after
    the last [c], the whole text when it has none. *)
Definition last_segment (c : char) (s : pystr) : pystr :=
  match break_at c (rev s) with
  | Some (a, _) => rev a
  | None => s
  end.

(** [s.rstrip(chars)] for one character. *)
Fixpoint lstrip_char (c : char) (s : pystr) : pystr :=
  match s with
  | x :: s' => if x =? c then lstrip_char c s' else s
  | [] => []
  end.

Definition rstrip_char (c : char) (s : pystr) : pystr :=
  rev (lstrip_char c (rev s)).

End Py.

Import Py.

(** ** pandas frames *)

Module Pandas.

(** A [DataFrame]: the column labels and the rows, each row the cells in
    column order.  A frame built by pandas has rows as wide as the column
    index; the type does not impose it, so that the defensive [try] of
    [parse_cargos] has something to catch (see [rectangular]). *)
Record DataFrame := {
  columns : list value;
  rows : list (list value)
}.

(** [len(df)]. *)
Definition len (df : DataFrame) : nat := length (rows df).

(** [df.shape]. *)
Definition shape (df : DataFrame) : nat * nat :=
  (length (rows df), length (columns df)).

(** [df.empty]: one of the two axes has length 0. *)
Definition empty (df : DataFrame) : bool :=
  (fst (shape df) =? 0)%nat || (snd (shape df) =? 0)%nat.

(** The cells of [df.iloc[0]]. *)
Definition iloc0 (df : DataFrame) : list value :=
  match rows df with
  | r :: _ => r
  | [] => []
  end.

(** [df.iloc[i, j]]. *)
Definition iloc2 (df : DataFrame) (i j : nat) : result value :=
  match iloc (rows df) i with
  | Ok r => iloc r j
  | Raise e => Raise e
  end.

(** The shape pandas guarantees: every row has one cell per column. *)
Definition rectangular (df : DataFrame) : Prop :=
  Forall (fun r => length r = length (columns df)) (rows df).

#[global] Instance value_eq_dec : EqDecision value.
Proof. solve_decision. Defined.

(** [pd.concat(frames, ignore_index=True)] on frames that all carry the
    column index of the first: that index, and the rows of the frames one
    after the other; on no frame at all, the [ValueError] of pandas.
    Frames whose column indexes differ are realigned by label (the frame
    is widened, or [InvalidIndexError] is raised when a repeated label has
    to be realigned); that is not reproduced.  [find_cargos_table] takes
    [pd.concat] as a parameter, so that what is proved of it holds for
    whatever pandas does; this function stands for it where the code is
    run on the sample tables, which share one column index whenever they
    are concatenated, and answers every other list of frames with
    [InvalidIndexError]. *)
Definition concat_aligned (frames : list DataFrame) : result DataFrame :=
  match frames with
  | [] => Raise ValueError
  | f :: others =>
      if bool_decide (Forall (fun g => columns g = columns f) others)
      then Ok {| columns := columns f; rows := concat (map rows frames) |}
      else Raise InvalidIndexError
  end.

End Pandas.

Import Pandas.

(** ** Logging and exceptions *)

Module Loguru.

Inductive level := DEBUG | INFO | SUCCESS | WARNING | ERROR.

(** One constructor per message of the two methods, with the values the
    message is formatted from. *)
Inductive message :=
| TabelaDeCargosEncontrada (df : DataFrame)
| NenhumaTabelaDeCargos
| ConsolidandoTabelas (n : nat)
| TabelaConsolidada (sh : nat * nat)
| DataFrameShape (sh : nat * nat)
| Colunas (cols : list value)
| MapeamentoDeColunas (m : gmap string nat)
| ErroAoProcessarLinha (idx : nat) (e : exception)
| CargoAdicionado (cargo : list N)
| ExtraidosCargos (n : nat).

Definition entry : Type := level * message.

(** A computation that logs and may raise: its outcome and the entries
    it wrote, oldest first. *)
Definition M (A : Type) : Type := result A * list entry.

Definition ret {A} (a : A) : M A := (Ok a, []).

Definition bind {A B} (c : M A) (k : A -> M B) : M B :=
  match c with
  | (Ok a, l1) => let '(r, l2) := k a in (r, l1 ++ l2)
  | (Raise e, l1) => (Raise e, l1)
  end.

Definition lift {A} (r : result A) : M A := (r, []).

Definition logger (lv : level) (m : message) : M unit := (Ok tt, [(lv, m)]).

(** [try: c except Exception as e: h e]. *)
Definition try_except {A} (c : M A) (h : exception -> M A) : M A :=
  match c with
  | (Ok a, l1) => (Ok a, l1)
  | (Raise e, l1) => let '(r, l2) := h e in (r, l1 ++ l2)
  end.

Definition outcome {A} (c : M A) : result A := fst c.
Definition written {A} (c : M A) : list entry := snd c.

End Loguru.

Import Loguru.

Declare Scope py_scope.
Delimit Scope py_scope with py.
Notation "x <- c ;; k" := (bind c (fun x => k))
  (at level 100, c at next level, right associativity) : py_scope.
Notation "c ;; k" := (bind c (fun _ => k))
  (at level 100, right associativity) : py_scope.

(** ** [PDFParser] *)

Module PDFParser.
Section WithLibraries.

Local Open Scope py_scope.

(** [str.lower], and [pd.concat(_, ignore_index=True)], which returns a
    frame or raises: it realigns the columns of frames whose labels differ,
    and raises when it cannot. *)
Variable lower : list N -> list N.
Variable pd_concat : list DataFrame -> result DataFrame.

(** *** [find_cargos_table] *)

Definition keywords : list (list N) :=
  [u "cargo"; u "escolaridade"; u "requisito"; u "salário";
   u "remuneração"; u "vencimento"; u "vagas"; u "chs"; u "carga horária"].

Definition columns_text (df : DataFrame) : list N :=
  join (u " ") (map (fun col => lower (str col)) (columns df)).

Definition first_row_text (df : DataFrame) : list N :=
  if (0 <? len df)%nat
  then join (u " ") (map (fun val => lower (str val)) (iloc0 df))
  else u "".

Definition combined_text (df : DataFrame) : list N :=
  columns_text df ++ u " " ++ first_row_text df.

(** [sum(1 for keyword in keywords if keyword in combined_text)]. *)
Definition score (df : DataFrame) : nat :=
  sum_list
    (map (fun _ => 1%nat)
         (List.filter (fun keyword => contains keyword (combined_text df))
                      keywords)).

(** The state of the walk: [cargo_tables] and [reference_shape]. *)
Definition walk_state : Type := list DataFrame * option nat.

(** One turn of [for df in tables]. *)
Definition walk_step (st : walk_state) (df : DataFrame) : M walk_state :=
  let '(cargo_tables, reference_shape) := st in
  if empty df then ret st
  else if (2 <=? score df)%nat then
    let reference_shape :=
      match reference_shape with
      | None => snd (shape df)
      | Some r => r
      end in
    if (snd (shape df) =? reference_shape)%nat then
      logger DEBUG (TabelaDeCargosEncontrada df);;
      ret (cargo_tables ++ [df], Some reference_shape)
    else ret (cargo_tables, Some reference_shape)
  else ret st.

Fixpoint walk (st : walk_state) (tables : list DataFrame) : M walk_state :=
  match tables with
  | [] => ret st
  | df :: rest => st' <- walk_step st df;; walk st' rest
  end.

Definition find_cargos_table (tables : list DataFrame)
  : M (option DataFrame) :=
  st <- walk ([], None) tables;;
  let cargo_tables := fst st in
  match cargo_tables with
  | [] => logger WARNING NenhumaTabelaDeCargos;; ret None
  | _ =>
      consolidated <-
        match cargo_tables with
        | [t] => ret t
        | _ => logger INFO (ConsolidandoTabelas (length cargo_tables));;
               lift (pd_concat cargo_tables)
        end;;
      logger SUCCESS (TabelaConsolidada (shape consolidated));;
      ret (Some consolidated)
  end.

(** The list [cargo_tables] the walk hands to the consolidation, and the
    [reference_shape] it ends with. *)
Definition cargo_tables (tables : list DataFrame) : list DataFrame :=
  match outcome (walk ([], None) tables) with
  | Ok st => fst st
  | Raise _ => []
  end.

Definition reference_shape (tables : list DataFrame) : option nat :=
  match outcome (walk ([], None) tables) with
  | Ok st => snd st
  | Raise _ => None
  end.

(** *** [parse_cargos] *)

(** Lines 202-207: the probe of the first cell.  Its value is not used
    afterwards; the read is made outside any [try]. *)
Definition primeira_linha_tem_dados (df : DataFrame) : M bool :=
  if (0 <? len df)%nat then
    v <- lift (iloc2 df 0 0);;
    let primeira_celula := strip (str v) in
    ret ((10 <? length primeira_celula)%nat
         && negb (contains (u "None") primeira_celula))
  else ret false.

(** One turn of [for idx, col in enumerate(df.columns)]. *)
Definition by_name_step (col_mapping : gmap string nat) (idx : nat)
    (col : value) : gmap string nat :=
  let col_lower := lower (str col) in
  if contains (u "cargo") col_lower || contains (u "função") col_lower
  then <["cargo" := idx]> col_mapping
  else if contains (u "escolaridade") col_lower
          || contains (u "requisito") col_lower
  then <["requisito" := idx]> col_mapping
  else if contains (u "salário") col_lower
          || contains (u "vencimento") col_lower
          || contains (u "remuneração") col_lower
          || contains (u "valor inicial") col_lower
  then <["salario" := idx]> col_mapping
  else if contains (u "chs") col_lower || contains (u "carga") col_lower
  then <["carga_horaria" := idx]> col_mapping
  else if contains (u "vagas") col_lower
  then <["vagas" := idx]> col_mapping
  else col_mapping.

Fixpoint by_name (col_mapping : gmap string nat) (idx : nat)
    (cols : list value) : gmap string nat :=
  match cols with
  | [] => col_mapping
  | col :: rest => by_name (by_name_step col_mapping idx col) (S idx) rest
  end.

(** Lines 199-248: the dict [col_mapping]. *)
Definition col_mapping (df : DataFrame) : gmap string nat :=
  let num_cols := length (columns df) in
  if (8 <=? num_cols)%nat then
    list_to_map [("cargo", 0); ("requisito", 2); ("carga_horaria", 3);
                 ("vagas", 4); ("salario", 7)]%nat
  else if (5 <=? num_cols)%nat then
    list_to_map [("cargo", 0); ("requisito", 1); ("carga_horaria", 2);
                 ("vagas", 3); ("salario", 4)]%nat
  else by_name ∅ 0 (columns df).

Definition new_cargo_info (cidade : list N) : gmap string (list N) :=
  list_to_map [("cidade", cidade); ("cargo", u ""); ("requisito", u "");
               ("salario", u ""); ("carga_horaria", u "");
               ("vagas", u "")].

(** [if key in col_mapping: cargo_info[key] = str(row.iloc[..]).strip()]. *)
Definition fill (m : gmap string nat) (row : list value) (key : string)
    (cargo_info : gmap string (list N)) : M (gmap string (list N)) :=
  match m !! key with
  | Some i =>
      v <- lift (iloc row i);;
      ret (<[key := strip (str v)]> cargo_info)
  | None => ret cargo_info
  end.

(** The body of the [try]. *)
Definition fill_all (m : gmap string nat) (row : list value)
    (cargo_info : gmap string (list N)) : M (gmap string (list N)) :=
  c1 <- fill m row "cargo" cargo_info;;
  c2 <- fill m row "requisito" c1;;
  c3 <- fill m row "salario" c2;;
  c4 <- fill m row "carga_horaria" c3;;
  fill m row "vagas" c4.

(** Lines 284-286. *)
Definition clean (cargo_info : gmap string (list N))
  : gmap string (list N) :=
  (fun v => if in_list v [u "nan"; u "None"; u "null"] then u "" else v)
    <$> cargo_info.

(** The condition of lines 289-292. *)
Definition keep (cargo_info : gmap string (list N)) : bool :=
  let cargo := cargo_info !!! "cargo" in
  let salario := cargo_info !!! "salario" in
  negb (eqb cargo (u "")) && (3 <? length cargo)%nat
  && negb (eqb salario (u ""))
  && negb (in_list salario [u "nan"; u "None"; u "-"]).

(** One turn of [for idx, row in df.iterrows()]. *)
Definition row_step (m : gmap string nat) (cidade : list N)
    (cargos : list (gmap string (list N))) (idx : nat) (row : list value)
  : M (list (gmap string (list N))) :=
  filled <- try_except
              (c <- fill_all m row (new_cargo_info cidade);; ret (Some c))
              (fun e => logger WARNING (ErroAoProcessarLinha idx e);;
                        ret None);;
  match filled with
  | None => ret cargos
  | Some cargo_info =>
      let cargo_info := clean cargo_info in
      if keep cargo_info then
        logger DEBUG (CargoAdicionado (take 50 (cargo_info !!! "cargo")));;
        ret (cargos ++ [cargo_info])
      else ret cargos
  end.

Fixpoint iterrows (m : gmap string nat) (cidade : list N)
    (cargos : list (gmap string (list N))) (idx : nat)
    (rws : list (list value)) : M (list (gmap string (list N))) :=
  match rws with
  | [] => ret cargos
  | row :: rest =>
      cargos' <- row_step m cidade cargos idx row;;
      iterrows m cidade cargos' (S idx) rest
  end.

Definition parse_cargos (df : option DataFrame) (cidade : list N)
  : M (list (gmap string (list N))) :=
  match df with
  | None => ret []
  | Some df =>
      if empty df then ret []
      else
        logger DEBUG (DataFrameShape (shape df));;
        logger DEBUG (Colunas (columns df));;
        _ <- primeira_linha_tem_dados df;;
        let m := col_mapping df in
        logger DEBUG (MapeamentoDeColunas m);;
        cargos <- iterrows m cidade [] 0 (rows df);;
        logger INFO (ExtraidosCargos (length cargos));;
        ret cargos
  end.

End WithLibraries.
End PDFParser.

Import PDFParser.

(** ** Regular expressions of [utils.py] *)

Module Re.

(** The two patterns of [parse_vagas] are sequences of character classes,
    each taken once, [*] times or [+] times.  Matching is the
    backtracking search of [re]: a repetition first takes all it can and
    gives characters back one at a time until the rest of the pattern
    matches. *)
Inductive quant := One | Star | Plus.

Definition item : Type := (N -> bool) * quant.

(** [greedy c k s]: the longest run of [c] at the head of [s] after which
    [k] matches, with what [k] returns. *)
Fixpoint greedy (c : N -> bool) (k : list N -> option (list (list N)))
    (s : list N) : option (list N * list (list N)) :=
  let stop := ps ← k s; Some ([], ps) in
  match s with
  | x :: s' =>
      if c x then
        match greedy c k s' with
        | Some (g, ps) => Some (x :: g, ps)
        | None => stop
        end
      else stop
  | [] => stop
  end.

(** [re.match]: the pattern at the head of [s]; the result lists the text
    each item of the pattern consumed. *)
Fixpoint match_here (p : list item) (s : list N)
  : option (list (list N)) :=
  match p with
  | [] => Some []
  | (c, q) :: p' =>
      match q with
      | One =>
          match s with
          | x :: s' =>
              if c x then ps ← match_here p' s'; Some ([x] :: ps) else None
          | [] => None
          end
      | Star =>
          '(g, ps) ← greedy c (match_here p') s; Some (g :: ps)
      | Plus =>
          match s with
          | x :: s' =>
              if c x
              then '(g, ps) ← greedy c (match_here p') s';
                   Some ((x :: g) :: ps)
              else None
          | [] => None
          end
      end
  end.

(** [re.search]: the match at the leftmost position that has one. *)
Fixpoint search (p : list item) (s : list N) : option (list (list N)) :=
  match match_here p s with
  | Some m => Some m
  | None =>
      match s with
      | [] => None
      | _ :: s' => search p s'
      end
  end.

(** A literal letter under [re.IGNORECASE]. *)
Definition letter (lo up : N) : N -> bool :=
  fun x => (x =? lo)%N || (x =? up)%N.

Definition literal (a : N) : N -> bool := fun x => (x =? a)%N.

(** [re.sub(p, '', s)]: the text without the matches of the pattern,
    taken leftmost first and without overlap; a match of no character
    removes nothing.  [skip] counts the characters of a match still to
    pass over. *)
Fixpoint sub_del_go (p : list item) (skip : nat) (s : list N) : list N :=
  match s with
  | [] => []
  | c :: s' =>
      match skip with
      | S k => sub_del_go p k s'
      | O =>
          match match_here p s with
          | Some pieces =>
              match length (concat pieces) with
              | S k => sub_del_go p k s'
              | O => c :: sub_del_go p 0 s'
              end
          | None => c :: sub_del_go p 0 s'
          end
      end
  end.

Definition sub_del (p : list item) (s : list N) : list N :=
  sub_del_go p 0 s.

End Re.

(** ** [utils] *)

Module Utils.
Section WithDigits.

(** The decimal digits of the Unicode database with their values: what
    [\d] matches and [int] reads. *)
Variable digit_val : N -> option N.

(** [sys.get_int_max_str_digits()]: the longest string of digits [int]
    converts, 4300 unless the interpreter is configured otherwise; 0 stands
    for no limit. *)
Variable max_str_digits : nat.

Definition isdigit (c : N) : bool := bool_decide (is_Some (digit_val c)).

(** The number a string of digits spells. *)
Definition int_value (s : list N) : N :=
  fold_left (fun acc c => acc * 10 + default 0 (digit_val c))%N s 0%N.

(** [int(s)] on a string of digits: the number it spells, or [ValueError]
    for a string longer than the limit (leading zeros count). *)
Definition int (s : list N) : result N :=
  if (0 <? max_str_digits)%nat && (max_str_digits <? length s)%nat
  then Raise ValueError
  else Ok (int_value s).

(** [(\d+)\s*\+\s*CR] under [re.IGNORECASE]. *)
Definition pattern_cr : list Re.item :=
  [(isdigit, Re.Plus); (isspace, Re.Star); (Re.literal 43, Re.One);
   (isspace, Re.Star); (Re.letter 99 67, Re.One);
   (Re.letter 114 82, Re.One)].

(** [(\d+)]. *)
Definition pattern_num : list Re.item := [(isdigit, Re.Plus)].

(** [match.group(1)]: in both patterns the group is the first item. *)
Definition group1 (m : list (list N)) : list N := default [] (head m).

Definition parse_vagas (vagas_text : list N) : result (N * N) :=
  if eqb vagas_text (u "") then Ok (0, 0)%N
  else
    match Re.search pattern_cr vagas_text with
    | Some m =>
        match int (group1 m) with
        | Ok vagas => Ok (vagas, 1%N)
        | Raise e => Raise e
        end
    | None =>
        match Re.search pattern_num vagas_text with
        | Some m =>
            match int (group1 m) with
            | Ok vagas => Ok (vagas, 0%N)
            | Raise e => Raise e
            end
        | None => Ok (0, 0)%N
        end
    end.

End WithDigits.

(** The ASCII digits. *)
Definition ascii_digit (c : N) : option N :=
  if ((48 <=? c) && (c <=? 57))%N then Some (c - 48)%N else None.

Section WithLower.

Variable lower : list N -> list N.

(** [R\$\s*]. *)
Definition pattern_rs : list Re.item :=
  [(Re.literal 82, Re.One); (Re.literal 36, Re.One); (isspace, Re.Star)].

Definition clean_salary (salary_text : list N) : list N :=
  if eqb salary_text (u "")
     || in_list (lower salary_text) [u "nan"; u "none"; u ""]
  then u ""
  else
    let salary_text := strip salary_text in
    Re.sub_del pattern_rs salary_text.

(** [clean_text] on a [str] ([str(text)] is then [text]). *)
Definition clean_text (text : list N) : list N :=
  if eqb text (u "") then u ""
  else
    let text := join (u " ") (split_ws text) in
    let text := str_replace [13%N] (u "")
                  (str_replace [10%N] (u " ") text) in
    strip text.

Variable digit_val : N -> option N.

(** [(\d+)\s*h]. *)
Definition pattern_h : list Re.item :=
  [(isdigit digit_val, Re.Plus); (isspace, Re.Star);
   (Re.literal 104, Re.One)].

Definition format_carga_horaria (chs : list N) : list N :=
  if eqb chs (u "") then u ""
  else
    match Re.search pattern_h (lower chs) with
    | Some m => group1 m ++ u "h"
    | None => strip chs
    end.

End WithLower.

(** The characters of [invalid_chars]: less-than, greater-than, colon,
    double quote, slash, backslash, bar, question mark, asterisk. *)
Definition invalid_chars : list N :=
  [60; 62; 58; 34; 47; 92; 124; 63; 42]%N.

Definition sanitize_filename (filename : list N) : list N :=
  let filename :=
    fold_left (fun f char => str_replace [char] (u "_") f)
              invalid_chars filename in
  if (200 <? length filename)%nat then
    let '(name, ext) :=
      if contains (u ".") filename then
        match rsplit1 46 filename with
        | [name; ext] => (name, ext)
        | _ => (filename, u "")
        end
      else (filename, u "") in
    take 200 name ++ (if eqb ext (u "") then u "" else u "." ++ ext)
  else filename.

Section WithMunicipio.

(** The second search of [extract_cidade_estado], the one under
    [re.IGNORECASE]: the texts of its two groups where it matches. *)
Variable search_municipio : list N -> option (list N * list N).

(** [[A-Za-zÀ-ÿ\s]]. *)
Definition letra (c : N) : bool :=
  ((65 <=? c) && (c <=? 90))%N || ((97 <=? c) && (c <=? 122))%N
  || ((192 <=? c) && (c <=? 255))%N || isspace c.

(** [[A-Z]]. *)
Definition maiuscula (c : N) : bool := ((65 <=? c) && (c <=? 90))%N.

(** [([A-Za-zÀ-ÿ\s]+)/([A-Z]{2})]. *)
Definition pattern_cidade : list Re.item :=
  [(letra, Re.Plus); (Re.literal 47, Re.One);
   (maiuscula, Re.One); (maiuscula, Re.One)].

(** [match.group(2)] of [pattern_cidade]: its last two items. *)
Definition group2 (m : list (list N)) : list N := concat (drop 2 m).

Definition extract_cidade_estado (text : list N) : list N * list N :=
  match Re.search pattern_cidade text with
  | Some m => (strip (group1 m), strip (group2 m))
  | None =>
      match search_municipio text with
      | Some (cidade, estado) => (strip cidade, strip estado)
      | None => (u "", u "")
      end
  end.

End WithMunicipio.

End Utils.

Import Utils.

(** ** [scraper]: the loops of [ConcursoScraper] *)

Module Scraper.
Section WithLower.

Variable lower : list N -> list N.

(** An anchor of a page, by what the loops read of it:
    [link.get('href')], [link.get_text(strip=True)] and
    [link.get('title')]. *)
Record anchor := {
  href : option (list N);
  text : list N;
  title : option (list N)
}.

(** The dicts the scraper builds. *)
Record concurso_info := {
  id : list N;
  nome : list N;
  url : list N
}.

Record edital := {
  titulo : list N;
  edital_url : option (list N);
  tipo : list N
}.

Definition BASE_URL : list N := u "https://concursos.objetivas.com.br".

(** The filter of [find_all] at line 69: [x and '/informacoes/' in x]. *)
Definition is_concurso_link (a : anchor) : bool :=
  match href a with
  | Some x => negb (eqb x (u "")) && contains (u "/informacoes/") x
  | None => false
  end.

Definition generic_names : list (list N) :=
  [u "inscrições abertas!"; u "mais informações"; u "inscreva-se"; u ""].

(** One turn of the loop of lines 71-97 of [get_concursos_abertos]; the
    state is the list [concursos] and the set [concursos_ids]. *)
Definition concursos_step (st : list concurso_info * gset (list N))
    (link : anchor) : list concurso_info * gset (list N) :=
  let '(concursos, concursos_ids) := st in
  match href link with
  | None => st
  | Some h =>
      if eqb h (u "") then st
      else
        let h := if startswith (u "http") h then h else BASE_URL ++ h in
        let concurso_id := last_segment 47 (rstrip_char 47 h) in
        if bool_decide (concurso_id ∈ concursos_ids) then st
        else
          let nome :=
            if negb (eqb (text link) (u "")) then text link
            else default (u "") (title link) in
          if in_list (lower nome) generic_names then st
          else
            (concursos ++ [{| id := concurso_id; nome := nome; url := h |}],
             {[concurso_id]} ∪ concursos_ids)
  end.

(** The list [concursos] of [get_concursos_abertos] for the anchors of
    the page. *)
Definition concursos_abertos (anchors : list anchor) : list concurso_info :=
  fst (fold_left concursos_step (List.filter is_concurso_link anchors)
                 ([], ∅)).

(** The filter of [find_all] at line 122: [x and x.endswith('.pdf')]. *)
Definition is_pdf_link (a : anchor) : bool :=
  match href a with
  | Some x => negb (eqb x (u "")) && endswith (u ".pdf") x
  | None => false
  end.

(** Lines 129-133: the type of an edital by its title. *)
Definition classify_titulo (titulo : list N) : list N :=
  if contains (u "abertura") (lower titulo)
     && contains (u "inscri") (lower titulo)
  then u "abertura_inscricoes"
  else if contains (u "edital") (lower titulo) then u "edital"
  else u "outro".

(** The list [editais] of [get_edital_links] for the anchors of the
    page. *)
Definition edital_links (anchors : list anchor) : list edital :=
  map (fun link =>
         {| titulo := text link; edital_url := href link;
            tipo := classify_titulo (text link) |})
      (List.filter is_pdf_link anchors).

(** Lines 166-175 of [scrape_all]: the edital taken as the main one. *)
Fixpoint first_abertura (editais : list edital) : option edital :=
  match editais with
  | [] => None
  | e :: rest =>
      if eqb (tipo e) (u "abertura_inscricoes") then Some e
      else first_abertura rest
  end.

Definition edital_principal (editais : list edital) : option edital :=
  match first_abertura editais with
  | Some e => Some e
  | None =>
      match editais with
      | e :: _ => Some e
      | [] => None
      end
  end.

End WithLower.
End Scraper.

(** ** [models] *)

Module Models.

Record Cargo := {
  cidade : list N;
  cargo : list N;
  requisito : list N;
  salario : list N;
  carga_horaria : list N;
  vagas : list N;
  concurso_id : list N;
  concurso_nome : list N
}.

(** [Cargo.to_dict]. *)
Definition cargo_to_dict (c : Cargo) : gmap string (list N) :=
  list_to_map [("cidade", cidade c); ("cargo", cargo c);
               ("requisito", requisito c); ("salario", salario c);
               ("carga_horaria", carga_horaria c); ("vagas", vagas c);
               ("concurso_id", concurso_id c);
               ("concurso_nome", concurso_nome c)].

Record Concurso := {
  id : list N;
  nome : list N;
  url : list N;
  concurso_cidade : list N;
  estado : list N;
  cargos : list Cargo;
  edital_url : list N;
  data_extracao : list N
}.

(** [dict.get(key, default)]. *)
Definition get (d : gmap string (list N)) (key : string)
    (dflt : list N) : list N :=
  default dflt (d !! key).

(** [Concurso.add_cargo]: the concurso after the call. *)
Definition add_cargo (self : Concurso) (cargo : gmap string (list N))
  : Concurso :=
  let cargo_obj :=
    {| cidade := get cargo "cidade" (concurso_cidade self);
       cargo := get cargo "cargo" (u "");
       requisito := get cargo "requisito" (u "");
       salario := get cargo "salario" (u "");
       carga_horaria := get cargo "carga_horaria" (u "");
       vagas := get cargo "vagas" (u "");
       concurso_id := id self;
       concurso_nome := nome self |} in
  {| id := id self; nome := nome self; url := url self;
     concurso_cidade := concurso_cidade self; estado := estado self;
     cargos := cargos self ++ [cargo_obj];
     edital_url := edital_url self;
     data_extracao := data_extracao self |}.

(** [ConcursosDatabase.get_all_cargos] on the list [self.concursos]. *)
Definition get_all_cargos (concursos : list Concurso)
  : list (gmap string (list N)) :=
  flat_map (fun concurso => map cargo_to_dict (cargos concurso)) concursos.

(** [a <= b] on strings: the order of the code points, a prefix first. *)
Fixpoint str_le (a b : list N) : bool :=
  match a, b with
  | [], _ => true
  | _ :: _, [] => false
  | x :: a', y :: b' =>
      if (x <? y)%N then true
      else if (y <? x)%N then false
      else str_le a' b'
  end.

Definition str_le_rel (a b : list N) : Prop := str_le a b = true.

#[global] Instance str_le_rel_dec : RelDecision str_le_rel.
Proof. intros a b. unfold str_le_rel. apply _. Defined.

(** [sorted(xs)] on strings whose order is total: the list in ascending
    order. *)
Definition sorted (xs : list (list N)) : list (list N) :=
  merge_sort str_le_rel xs.

(** The set [cidades] of [get_summary]. *)
Definition cidades_set (concursos : list Concurso) : gset (list N) :=
  fold_left
    (fun cidades concurso =>
       fold_left
         (fun cidades cargo =>
            if negb (eqb (cidade cargo) (u ""))
            then {[cidade cargo]} ∪ cidades else cidades)
         (cargos concurso) cidades)
    concursos ∅.

(** The dict [get_summary] returns. *)
Record summary := {
  total_concursos : nat;
  total_cargos : nat;
  total_cidades : nat;
  cidades : list (list N)
}.

Definition get_summary (concursos : list Concurso) : summary :=
  let total := sum_list (map (fun c => length (cargos c)) concursos) in
  let cidades := cidades_set concursos in
  {| total_concursos := length concursos;
     total_cargos := total;
     total_cidades := size cidades;
     cidades := sorted (elements cidades) |}.

End Models.

(** ** [main]: from the records of an edital to the cargos of a concurso *)

Module Main.
Section WithLower.

Variable lower : list N -> list N.

(** One turn of the loop of lines 105-111 of [main]: the three fields are
    cleaned in place, then the dict is handed to [add_cargo].  [None]
    stands for the [KeyError] of a dict without one of the three keys. *)
Definition add_cleaned (concurso : Models.Concurso)
    (cargo : gmap string (list N)) : option Models.Concurso :=
  v ← cargo !! "cargo";
  let cargo := <["cargo" := clean_text v]> cargo in
  v ← cargo !! "requisito";
  let cargo := <["requisito" := clean_text v]> cargo in
  v ← cargo !! "salario";
  let cargo := <["salario" := clean_salary lower v]> cargo in
  Some (Models.add_cargo concurso cargo).

Fixpoint add_all (concurso : Models.Concurso)
    (cargos : list (gmap string (list N))) : option Models.Concurso :=
  match cargos with
  | [] => Some concurso
  | cargo :: rest =>
      concurso' ← add_cleaned concurso cargo; add_all concurso' rest
  end.

End WithLower.
End Main.

(** ** Vocabulary of the statements *)

(** [kw] occurs in [text] as a substring. *)
Definition occurs_in (kw text : list N) : Prop :=
  exists before after, text = before ++ kw ++ after.

(** The column count of a frame, the key the walk compares. *)
Definition signature (df : DataFrame) : nat := length (columns df).

(** A table the walk scores (it has a row and a column) and finds at 2 or
    more. *)
Definition candidate (lower : list N -> list N) (df : DataFrame) : bool :=
  negb (empty df) && (2 <=? score lower df)%nat.

(** What one row contributes to the result of [parse_cargos]: the cleaned
    dict when every mapped cell could be read and the condition of lines
    289-292 holds of it, nothing otherwise. *)
Definition emitted (m : gmap string nat) (cidade : list N)
    (row : list value) : option (gmap string (list N)) :=
  match outcome (fill_all m row (new_cargo_info cidade)) with
  | Ok c => if keep (clean c) then Some (clean c) else None
  | Raise _ => None
  end.

(** The fields the [try] of lines 264-278 reads, in its order. *)
Definition fields : list string :=
  ["cargo"; "requisito"; "salario"; "carga_horaria"; "vagas"].

(** Every mapped cell of the row exists. *)
Definition readable (m : gmap string nat) (row : list value) : Prop :=
  forall key i, key ∈ fields -> m !! key = Some i -> is_Some (row !! i).

(** The placeholder rule of lines 284-286 on one value. *)
Definition normalize (v : list N) : list N :=
  if in_list v [u "nan"; u "None"; u "null"] then u "" else v.

(** The normalized value of a field of a row: the text of the mapped cell,
    stripped, with the placeholder rule applied; the empty string for a
    field that is not mapped. *)
Definition normalized (m : gmap string nat) (row : list value)
    (key : string) : list N :=
  match m !! key with
  | Some i =>
      match row !! i with
      | Some v => normalize (strip (str v))
      | None => u ""
      end
  | None => u ""
  end.

(** The inclusion predicate, on the normalized role and salary. *)
Definition included (role salary : list N) : Prop :=
  role <> u "" /\ 3 < length role
  /\ salary <> u "" /\ salary ∉ [u "nan"; u "None"; u "-"].

(** The reads of [keys] one after the other, stopping at the first that
    raises. *)
Definition fill_keys (m : gmap string nat) (row : list value)
    (keys : list string) (c0 : gmap string (list N))
  : result (gmap string (list N)) :=
  foldl (fun acc key =>
           match acc with
           | Ok c => outcome (fill m row key c)
           | Raise e => Raise e
           end) (Ok c0) keys.

(** The two forms of an openings text: digits, optional spaces, a plus
    sign, optional spaces and the letters CR in either case; and digits
    alone.  [ds] is the digit run. *)
Definition reserve_form (digit_val : N -> option N) (ds text : list N)
  : Prop :=
  ds <> [] /\ Forall (fun d => is_Some (digit_val d)) ds
  /\ exists sp1 sp2 c r,
       Forall (fun x => isspace x = true) sp1
       /\ Forall (fun x => isspace x = true) sp2
       /\ c ∈ [67; 99]%N /\ r ∈ [82; 114]%N
       /\ text = ds ++ sp1 ++ [43%N] ++ sp2 ++ [c; r].

Definition bare_integer (digit_val : N -> option N) (text : list N) : Prop :=
  text <> [] /\ Forall (fun d => is_Some (digit_val d)) text.

(** A digit run [int] converts: there is no limit, or the run is no longer
    than the limit. *)
Definition within_limit (max_str_digits : nat) (ds : list N) : Prop :=
  max_str_digits = 0 \/ length ds <= max_str_digits.

(** What a match of a pattern consumed, item by item: characters of the
    class of the item, one for [One], at least one for [Plus]. *)
Definition piece_ok (it : Re.item) (piece : list N) : Prop :=
  Forall (fun x => fst it x = true) piece
  /\ match snd it with
     | Re.One => length piece = 1
     | Re.Star => True
     | Re.Plus => piece <> []
     end.

(** [df.iloc[0, 0]] exists. *)
Definition first_cell_readable (df : DataFrame) : Prop :=
  exists v, iloc2 df 0 0 = Ok v.

(** The field a column header goes to in the narrow layout, following the
    words of the specification: the first keyword group, in the order role,
    requirement, salary, hours, openings, that the lowercase header
    matches. *)
Definition matches_any (kws : list (list N)) (header : list N) : bool :=
  existsb (fun kw => contains kw header) kws.

Definition role_group : list (list N) := [u "cargo"; u "função"].
Definition requirement_group : list (list N) :=
  [u "escolaridade"; u "requisito"].
Definition salary_group : list (list N) :=
  [u "salário"; u "vencimento"; u "remuneração"; u "valor inicial"].
Definition hours_group : list (list N) := [u "chs"; u "carga"].
Definition openings_group : list (list N) := [u "vagas"].

Definition priority : list (string * list (list N)) :=
  [("cargo", role_group); ("requisito", requirement_group);
   ("salario", salary_group); ("carga_horaria", hours_group);
   ("vagas", openings_group)].

Fixpoint first_group (groups : list (string * list (list N)))
    (header : list N) : option string :=
  match groups with
  | [] => None
  | (field, kws) :: rest =>
      if matches_any kws header then Some field else first_group rest header
  end.

Definition assigned_field (lower : list N -> list N) (col : value)
  : option string :=
  first_group priority (lower (str col)).

(** ** Sample tables *)

Definition cell (text : string) : value := VStr (u text).

(** A sample frame: the labels and the rows given and, after them, a
    column [_pagina] that holds the page number in every row. *)
Definition tabela (header : list value) (body : list (list value))
    (page_num : Z) : DataFrame :=
  {| columns := header ++ [cell "_pagina"];
     rows := map (fun r => r ++ [VInt page_num]) body |}.

(** A table that lists annexes, not positions. *)
Definition anexos : DataFrame :=
  tabela [cell "Anexo"; cell "Descrição"] [[cell "I"; cell "Cronograma"]] 1.

Definition header7 : list value :=
  [cell "CARGO"; cell "Escolaridade / Requisitos"; cell "CHS"; cell "Vagas";
   cell "PCD"; cell "Taxa"; cell "Vencimento"].

Definition header8 : list value :=
  [cell "CARGO"; cell "Código"; cell "Escolaridade"; cell "CHS";
   cell "Vagas"; cell "PCD"; cell "Taxa"; cell "Salário"].

Definition enfermeiro : list value :=
  [cell "Enfermeiro PSF"; cell ""; cell "Superior completo"; cell "40h";
   cell "02+CR"; cell ""; cell ""; cell "1.518,00"].

Definition motorista7 : list value :=
  [cell "Motorista"; cell "Fundamental"; cell "40h"; cell "01"; VNone;
   cell "50,00"; cell "1.518,00"].

Definition vigia7 : list value :=
  [cell "Vigia"; cell "Fundamental"; cell "40h"; cell "03+CR"; VNone;
   cell "50,00"; cell "1.518,00"].

(** Three pages of one bulletin: frames of 8, 8 and 9 columns. *)
Definition pagina1 : DataFrame := tabela header7 [motorista7] 1.
Definition pagina2 : DataFrame := tabela header7 [vigia7] 2.
Definition pagina3 : DataFrame := tabela header8 [enfermeiro] 3.

(** Two salary columns, the later one naming the role as well. *)
Definition dois_salarios : DataFrame :=
  {| columns := [cell "Salário base"; cell "Salário do cargo";
                 cell "_pagina"];
     rows := [[cell "1.518,00"; cell "2.000,00"; VInt 1]] |}.

(** Two salary columns and nothing else to confuse them. *)
Definition dois_vencimentos : DataFrame :=
  {| columns := [cell "Função"; cell "Vencimento"; cell "Remuneração";
                 cell "_pagina"];
     rows := [[cell "Motorista"; cell "1.518,00"; cell "2.000,00"; VInt 1]] |}.

(** A table of the medium layout with the three rows of the inclusion
    examples. *)
Definition quadro : DataFrame :=
  tabela
    [cell "Cargo"; cell "Requisito"; cell "CHS"; cell "Vagas";
     cell "Salário"]
    [[cell "Agente Comunitário de Saúde"; cell "Ensino médio"; cell "40h";
      cell "03+CR"; cell "3.036,00"];
     [cell "X"; cell "Ensino médio"; cell "40h"; cell "01";
      cell "3.036,00"];
     [cell "Motorista"; cell "Fundamental"; cell "40h"; cell "01";
      cell "-"]] 2.





(** A row whose salary cell holds the text [None]. *)
Definition sem_salario : list value :=
  [cell "Coveiro"; cell "Fundamental"; cell "40h"; cell "01"; cell "None";
   VInt 2].

(** A page whose table is a header row and nothing else. *)
Definition so_cabecalho : DataFrame := tabela header8 [] 4.

(** ** Vocabulary of the further properties *)


(** The reads of the [try] raise on this row. *)
Definition raises (m : gmap string nat) (cidade : list N)
    (row : list value) : bool :=
  match outcome (fill_all m row (new_cargo_info cidade)) with
  | Ok _ => false
  | Raise _ => true
  end.

Definition is_warning (e : entry) : bool :=
  match fst e with
  | WARNING => true
  | _ => false
  end.

Definition is_cargo_adicionado (e : entry) : bool :=
  match snd e with
  | CargoAdicionado _ => true
  | _ => false
  end.

(** The three placeholder texts of lines 284-286. *)
Definition placeholders : list (list N) := [u "nan"; u "None"; u "null"].

(** A narrow table with a role column and no salary column. *)
Definition sem_coluna_salario : DataFrame :=
  tabela [cell "Função"; cell "Escolaridade"]
         [[cell "Motorista"; cell "Fundamental"]] 1.

(** A text with no white space in it, and a word: such a text with at
    least one character. *)
Definition no_space (w : list N) : Prop :=
  Forall (fun c => isspace c = false) w.

Definition is_word (w : list N) : Prop := w <> [] /\ no_space w.

Definition not_space (c : N) : bool := negb (isspace c).

(** The character an invalid character of a file name is replaced by. *)
Definition sanitize_char (c : N) : N :=
  if bool_decide (c ∈ invalid_chars) then 95%N else c.

(** Anchors of a listing page: a competition, a button under the same
    address, the same competition again, and a link elsewhere. *)
Definition ancoras : list Scraper.anchor :=
  [ {| Scraper.href := Some (u "/informacoes/2577/");
       Scraper.text := u "Mais Informações"; Scraper.title := None |};
    {| Scraper.href := Some (u "/informacoes/2577/");
       Scraper.text := u "";
       Scraper.title := Some (u "Município de Sossêgo/PB") |};
    {| Scraper.href := Some (u "https://concursos.objetivas.com.br/informacoes/2577");
       Scraper.text := u "Sossêgo de novo"; Scraper.title := None |};
    {| Scraper.href := Some (u "/contato/");
       Scraper.text := u "Contato"; Scraper.title := None |} ].

(** Anchors of a competition page. *)
Definition ancoras_editais : list Scraper.anchor :=
  [ {| Scraper.href := Some (u "/a/retificacao.pdf");
       Scraper.text := u "Edital de Retificação"; Scraper.title := None |};
    {| Scraper.href := Some (u "/a/abertura.pdf");
       Scraper.text := u "Edital de Abertura das Inscrições";
       Scraper.title := None |};
    {| Scraper.href := Some (u "/a/pagina.html");
       Scraper.text := u "Abertura das Inscrições"; Scraper.title := None |} ].

Definition sossego : Models.Concurso :=
  {| Models.id := u "2577"; Models.nome := u "Município de Sossêgo/PB";
     Models.url := u "https://concursos.objetivas.com.br/informacoes/2577/";
     Models.concurso_cidade := u "Sossêgo"; Models.estado := u "PB";
     Models.cargos := []; Models.edital_url := u "";
     Models.data_extracao := u "2025-01-01T00:00:00" |}.

(** A dict with the six keys of a record of [parse_cargos]. *)
Definition complete (record : gmap string (list N)) : Prop :=
  forall key, key ∈ "cidade" :: fields -> is_Some (record !! key).

(** The concurso with another list of cargos. *)
Definition with_cargos (concurso : Models.Concurso)
    (cargos : list Models.Cargo) : Models.Concurso :=
  {| Models.id := Models.id concurso; Models.nome := Models.nome concurso;
     Models.url := Models.url concurso;
     Models.concurso_cidade := Models.concurso_cidade concurso;
     Models.estado := Models.estado concurso;
     Models.cargos := cargos;
     Models.edital_url := Models.edital_url concurso;
     Models.data_extracao := Models.data_extracao concurso |}.

(** The cargo [main] stores for a record: role and requirement through
    [clean_text], salary through [clean_salary], the other fields as they
    are, under the id and the name of the concurso. *)
Definition stored_cargo (lower : list N -> list N)
    (concurso : Models.Concurso) (record : gmap string (list N))
  : Models.Cargo :=
  {| Models.cidade := record !!! "cidade";
     Models.cargo := clean_text (record !!! "cargo");
     Models.requisito := clean_text (record !!! "requisito");
     Models.salario := clean_salary lower (record !!! "salario");
     Models.carga_horaria := record !!! "carga_horaria";
     Models.vagas := record !!! "vagas";
     Models.concurso_id := Models.id concurso;
     Models.concurso_nome := Models.nome concurso |}.

(** The cargos of a concurso carry its id and its name. *)
Definition owned (concurso : Models.Concurso) : Prop :=
  Forall (fun g => Models.concurso_id g = Models.id concurso
                   /\ Models.concurso_nome g = Models.nome concurso)
         (Models.cargos concurso).

(** The concurso of Sossêgo with one cargo. *)
Definition sossego_enfermeiro : Models.Concurso :=
  with_cargos sossego
    [{| Models.cidade := u "Sossêgo"; Models.cargo := u "Enfermeiro";
        Models.requisito := u "Curso superior"; Models.salario := u "3.036,00";
        Models.carga_horaria := u "40h"; Models.vagas := u "01";
        Models.concurso_id := u "2577";
        Models.concurso_nome := u "Município de Sossêgo/PB" |}].

(** ** Strings *)

Lemma startswith_spec (p s : list N) :
  startswith p s = true <-> exists after, s = p ++ after.
Proof.
  revert s; induction p as [|x p IH]; intros s; simpl.
  - split; [intros _; by exists s | done].
  - destruct s as [|y s].
    + split; [done | intros [a Ha]; discriminate].
    + rewrite andb_true_iff, N.eqb_eq, IH. split.
      * intros [-> [a ->]]. by exists a.
      * intros [a Ha]. injection Ha as -> ->. eauto.
Qed.

Lemma contains_spec (p s : list N) :
  contains p s = true <-> occurs_in p s.
Proof.
  unfold occurs_in. induction s as [|y s IH].
  - simpl. rewrite orb_false_r, startswith_spec. split.
    + intros [a Ha]. by exists [], a.
    + intros [b [a Ha]]. destruct b; [by exists a | discriminate].
  - cbn [contains]. rewrite orb_true_iff, startswith_spec, IH. split.
    + intros [[a Ha] | [b [a Ha]]].
      * by exists [], a.
      * exists (y :: b), a. by rewrite Ha.
    + intros [b [a Ha]]. destruct b as [|z b].
      * left. by exists a.
      * right. injection Ha as -> ->. by exists b, a.
Qed.

Lemma eqb_spec (a b : list N) : eqb a b = true <-> a = b.
Proof. unfold eqb. apply bool_decide_eq_true. Qed.

Lemma in_list_spec (x : list N) (l : list (list N)) :
  in_list x l = true <-> x ∈ l.
Proof.
  unfold in_list. rewrite existsb_exists. split.
  - intros [y [Hy He]]. apply eqb_spec in He. subst.
    by apply list_elem_of_In.
  - intros H. exists x. split; [by apply list_elem_of_In | by apply eqb_spec].
Qed.

(** ** The logging monad *)

Lemma outcome_bind {A B} (c : M A) (k : A -> M B) :
  outcome (bind c k)
  = match outcome c with
    | Ok a => outcome (k a)
    | Raise e => Raise e
    end.
Proof.
  destruct c as [[a|e] l]; simpl; [|done]. by destruct (k a).
Qed.

Lemma written_bind {A B} (c : M A) (k : A -> M B) :
  written (bind c k)
  = match outcome c with
    | Ok a => written c ++ written (k a)
    | Raise e => written c
    end.
Proof.
  destruct c as [[a|e] l]; simpl; [|done]. by destruct (k a).
Qed.

(** ** Classification and consolidation: [find_cargos_table] *)

Section Consolidation.

Variable lower : list N -> list N.
Variable pd_concat : list DataFrame -> result DataFrame.

Lemma score_length (df : DataFrame) :
  score lower df
  = length (List.filter
              (fun kw => contains kw (combined_text lower df)) keywords).
Proof.
  unfold score.
  induction (List.filter _ keywords) as [|k l IH]; simpl; [done | by f_equal].
Qed.

Lemma score_le_9 (df : DataFrame) : score lower df <= 9.
Proof.
  rewrite score_length.
  etransitivity; [apply List.filter_length_le | done].
Qed.

Lemma walk_step_outcome (st : list DataFrame * option nat) (df : DataFrame) :
  outcome (walk_step lower st df)
  = Ok (if candidate lower df then
          let r := default (signature df) (snd st) in
          (if (signature df =? r)%nat then fst st ++ [df] else fst st,
           Some r)
        else st).
Proof.
  destruct st as [ct r]. unfold walk_step, candidate, signature, shape.
  destruct (empty df); [done|].
  destruct (2 <=? score lower df)%nat; [|done].
  destruct r as [r|]; simpl.
  - by destruct (length (columns df) =? r)%nat.
  - by rewrite Nat.eqb_refl.
Qed.

(** Once the reference is set, the walk keeps it and appends the
    candidates of that width. *)
Lemma walk_fixed (tables ct : list DataFrame) (r : nat) :
  outcome (walk lower (ct, Some r) tables)
  = Ok (ct ++ List.filter
                (fun d => candidate lower d && (signature d =? r)%nat)
                tables,
        Some r).
Proof.
  revert ct; induction tables as [|df tables IH]; intros ct; cbn [walk].
  - simpl. by rewrite app_nil_r.
  - rewrite outcome_bind, walk_step_outcome. simpl.
    destruct (candidate lower df); simpl.
    + destruct (signature df =? r)%nat; rewrite IH; [|done].
      by rewrite <- app_assoc.
    + apply IH.
Qed.

(** Before the first candidate nothing happens. *)
Lemma walk_skip (pre rest ct : list DataFrame) :
  Forall (fun d => candidate lower d = false) pre ->
  outcome (walk lower (ct, None) (pre ++ rest))
  = outcome (walk lower (ct, None) rest).
Proof.
  induction 1 as [|d pre Hd _ IH]; [done|]. cbn [app walk].
  rewrite outcome_bind, walk_step_outcome, Hd. apply IH.
Qed.

Lemma walk_first (t : DataFrame) (post ct : list DataFrame) :
  candidate lower t = true ->
  outcome (walk lower (ct, None) (t :: post))
  = Ok (ct ++ t :: List.filter
                     (fun d => candidate lower d
                               && (signature d =? signature t)%nat) post,
        Some (signature t)).
Proof.
  intros Ht. cbn [walk]. rewrite outcome_bind, walk_step_outcome, Ht. simpl.
  rewrite Nat.eqb_refl, walk_fixed. by rewrite <- app_assoc.
Qed.

Lemma walk_no_candidate (tables : list DataFrame) :
  Forall (fun d => candidate lower d = false) tables ->
  outcome (walk lower ([], None) tables) = Ok ([], None).
Proof.
  intros H. rewrite <- (app_nil_r tables). by rewrite walk_skip.
Qed.

(** Every list of tables has no candidate or a first one. *)
Lemma first_candidate (tables : list DataFrame) :
  Forall (fun d => candidate lower d = false) tables
  \/ exists pre t post,
       tables = pre ++ t :: post
       /\ Forall (fun d => candidate lower d = false) pre
       /\ candidate lower t = true.
Proof.
  induction tables as [|d tables IH]; [by left|].
  destruct (candidate lower d) eqn:Hd.
  - right. by exists [], d, tables.
  - destruct IH as [IH | (pre & t & post & -> & Hpre & Ht)].
    + left. by constructor.
    + right. exists (d :: pre), t, post. repeat split; [|done].
      by constructor.
Qed.

Lemma cargo_tables_first (pre post : list DataFrame) (t : DataFrame) :
  Forall (fun d => candidate lower d = false) pre ->
  candidate lower t = true ->
  cargo_tables lower (pre ++ t :: post)
  = t :: List.filter
           (fun d => candidate lower d && (signature d =? signature t)%nat)
           post
  /\ reference_shape lower (pre ++ t :: post) = Some (signature t).
Proof.
  intros Hpre Ht. unfold cargo_tables, reference_shape.
  by rewrite walk_skip, walk_first.
Qed.

(** Every member of the group is a candidate among the tables. *)
Lemma cargo_tables_candidate (tables : list DataFrame) (d : DataFrame) :
  d ∈ cargo_tables lower tables ->
  d ∈ tables /\ candidate lower d = true
  /\ reference_shape lower tables = Some (signature d).
Proof.
  destruct (first_candidate tables)
    as [Hno | (pre & t & post & -> & Hpre & Ht)].
  - unfold cargo_tables. rewrite walk_no_candidate by done. simpl.
    by intros ?%elem_of_nil.
  - destruct (cargo_tables_first pre post t Hpre Ht) as [-> ->].
    intros [-> | Hd]%elem_of_cons.
    + split; [|done]. apply elem_of_app. right. by left.
    + apply list_elem_of_In, List.filter_In in Hd.
      destruct Hd as [Hin [Hc Hs%Nat.eqb_eq]%andb_true_iff].
      split; [|by rewrite Hs].
      apply elem_of_app. right. right. by apply list_elem_of_In.
Qed.

End Consolidation.

(** ** Claims on [find_cargos_table] *)

Section ConsolidationClaims.

Variable lower : list N -> list N.
Variable pd_concat : list DataFrame -> result DataFrame.

Lemma walk_returns (tables : list DataFrame) :
  outcome (walk lower ([], None) tables)
  = Ok (cargo_tables lower tables, reference_shape lower tables).
Proof.
  unfold cargo_tables, reference_shape.
  destruct (first_candidate lower tables)
    as [Hno | (pre & t & post & -> & Hpre & Ht)].
  - by rewrite walk_no_candidate.
  - by rewrite walk_skip, walk_first.
Qed.

(** What [find_cargos_table] returns, in terms of the list the walk
    collected. *)
Lemma find_cargos_table_outcome (tables : list DataFrame) :
  outcome (find_cargos_table lower pd_concat tables)
  = match cargo_tables lower tables with
    | [] => Ok None
    | [t] => Ok (Some t)
    | group =>
        match pd_concat group with
        | Ok consolidated => Ok (Some consolidated)
        | Raise e => Raise e
        end
    end.
Proof.
  unfold find_cargos_table. rewrite outcome_bind, walk_returns.
  cbn [fst]. destruct (cargo_tables lower tables) as [|t [|t' l]]; [done..|].
  by destruct (pd_concat (t :: t' :: l)).
Qed.

(** C1, as the code has it.  A table qualifies when it is not empty (it
    has a data row and a column) and is scored at 2 or more.  Walking the
    tables in order, the first table that qualifies sets the reference to
    its column count, and the group is that table followed by the later
    qualifying tables that have exactly that column count, in their order.
    Three such tables of 8, 8 and 9 columns give the group of the first
    two.  A table scored below 2 is in no group. *)
Theorem consolidation_follows_first_signature :
  (forall (pre post : list DataFrame) (t : DataFrame),
      Forall (fun d => candidate lower d = false) pre ->
      candidate lower t = true ->
      reference_shape lower (pre ++ t :: post) = Some (signature t)
      /\ cargo_tables lower (pre ++ t :: post)
         = t :: List.filter
                  (fun d => candidate lower d
                            && (signature d =? signature t)%nat) post)
  /\ (forall t1 t2 t3 : DataFrame,
         candidate lower t1 = true -> candidate lower t2 = true ->
         candidate lower t3 = true ->
         signature t1 = 8 -> signature t2 = 8 -> signature t3 = 9 ->
         cargo_tables lower [t1; t2; t3] = [t1; t2])
  /\ (forall (tables : list DataFrame) (d : DataFrame),
         score lower d < 2 -> d ∉ cargo_tables lower tables).
Proof.
  split; [|split].
  - intros pre post t Hpre Ht.
    by destruct (cargo_tables_first lower pre post t Hpre Ht).
  - intros t1 t2 t3 H1 H2 H3 S1 S2 S3.
    destruct (cargo_tables_first lower [] [t2; t3] t1) as [E _]; [done..|].
    cbn [app] in E. rewrite E. cbn [List.filter].
    by rewrite H2, H3, S1, S2, S3.
  - intros tables d Hlow Hin.
    apply cargo_tables_candidate in Hin as (_ & Hc & _).
    unfold candidate in Hc. apply andb_true_iff in Hc as [_ Hs].
    apply Nat.leb_le in Hs. lia.
Qed.

(** C5, as the code has it. The walk keeps one group only: a table scored
    at 2 or more whose column count differs from that of the first such
    table is left out, the reference stays the first table's column count,
    and every member of the group has that column count. *)
Theorem mismatching_table_is_left_out
    (pre post : list DataFrame) (t d : DataFrame) :
  Forall (fun x => candidate lower x = false) pre ->
  candidate lower t = true ->
  signature d <> signature t ->
  (d ∉ cargo_tables lower (pre ++ t :: post))
  /\ reference_shape lower (pre ++ t :: post) = Some (signature t)
  /\ (forall x, x ∈ cargo_tables lower (pre ++ t :: post) ->
                signature x = signature t).
Proof.
  intros Hpre Ht Hd.
  assert (Hall : forall x, x ∈ cargo_tables lower (pre ++ t :: post) ->
                           signature x = signature t).
  { intros x Hx. apply cargo_tables_candidate in Hx as (_ & _ & Hr).
    destruct (cargo_tables_first lower pre post t Hpre Ht) as [_ Hr'].
    congruence. }
  split; [|split; [|done]].
  - intros Hin. by apply Hd, Hall.
  - by destruct (cargo_tables_first lower pre post t Hpre Ht).
Qed.

(** C10. A table without data rows is passed over before it is scored:
    the walk leaves its state as it was and logs nothing, so the table is in
    no group whatever its header holds, and alone it gives no result. *)
Theorem header_only_table_is_discarded
    (tables : list DataFrame) (d : DataFrame) :
  rows d = [] ->
  (forall st, walk_step lower st d = ret st)
  /\ (d ∉ cargo_tables lower tables)
  /\ outcome (find_cargos_table lower pd_concat [d]) = Ok None.
Proof.
  intros Hrows.
  assert (He : empty d = true) by (unfold empty, shape; by rewrite Hrows).
  assert (Hc : candidate lower d = false) by (unfold candidate; by rewrite He).
  split; [|split].
  - intros [ct r]. unfold walk_step. by rewrite He.
  - intros Hin. apply cargo_tables_candidate in Hin as (_ & Hc' & _).
    congruence.
  - rewrite find_cargos_table_outcome. unfold cargo_tables.
    rewrite walk_no_candidate; [done|]. by constructor.
Qed.

End ConsolidationClaims.

Section ClassificationClaims.

Variable lower : list N -> list N.

Lemma keywords_NoDup : NoDup keywords.
Proof. apply (bool_decide_unpack (NoDup keywords)). by vm_compute. Qed.

(** C2, as the code has it.  The score of a table is the number of words
    of the nine-word vocabulary that occur in the text made of the
    lowercase header cells and, when there is a data row, the lowercase
    cells of the first one, joined by spaces; the vocabulary has no
    repeated word, so each counts once.  A table is taken as a candidate
    exactly when it is not empty (it has a data row and a column) and that
    number is 2 or more. *)
Theorem score_counts_vocabulary_keywords (df : DataFrame) :
  let header := join (u " ") (map (fun c => lower (str c)) (columns df)) in
  let first_row :=
    match rows df with
    | r :: _ => join (u " ") (map (fun v => lower (str v)) r)
    | [] => []
    end in
  let text := header ++ u " " ++ first_row in
  keywords = [u "cargo"; u "escolaridade"; u "requisito"; u "salário";
              u "remuneração"; u "vencimento"; u "vagas"; u "chs";
              u "carga horária"]
  /\ NoDup keywords
  /\ (exists found : list (list N),
         NoDup found
         /\ (forall kw, kw ∈ found <-> kw ∈ keywords /\ occurs_in kw text)
         /\ score lower df = length found)
  /\ (df ∈ cargo_tables lower [df]
      <-> empty df = false /\ 2 <= score lower df).
Proof.
  intros header first_row text.
  assert (Htext : combined_text lower df = text).
  { unfold combined_text, columns_text, first_row_text, len, iloc0.
    subst text header first_row. by destruct (rows df). }
  split; [done|]. split; [apply keywords_NoDup|]. split.
  - exists (List.filter (fun kw => contains kw text) keywords).
    split.
    { apply NoDup_ListNoDup, List.NoDup_filter, NoDup_ListNoDup.
      apply keywords_NoDup. }
    split.
    + intros kw. rewrite list_elem_of_In, List.filter_In, contains_spec.
      by rewrite <- list_elem_of_In.
    + by rewrite score_length, Htext.
  - assert (Hc : candidate lower df = true
                 <-> empty df = false /\ 2 <= score lower df).
    { unfold candidate.
      by rewrite andb_true_iff, negb_true_iff, Nat.leb_le. }
    rewrite <- Hc. split.
    + by intros (_ & Hin & _)%cargo_tables_candidate.
    + intros Hs.
      destruct (cargo_tables_first lower [] [] df) as [E _]; [done..|].
      cbn [app] in E. rewrite E. by left.
Qed.

End ClassificationClaims.

Lemma score_counts_vocabulary_keywords_witness :
  score lower_latin1 pagina1 = 6
  /\ pagina1 ∈ cargo_tables lower_latin1 [pagina1].
Proof.
  destruct (score_counts_vocabulary_keywords lower_latin1 pagina1)
    as (_ & _ & _ & H).
  split; [vm_compute; reflexivity|].
  apply H. split; [reflexivity | vm_compute; lia].
Defined.

(** C2, as the specification words it, fails: a header without a data row
    is scored at 5 by its labels and is no candidate. *)
Lemma score_counterexample :
  rows so_cabecalho = []
  /\ score lower_latin1 so_cabecalho = 5
  /\ (so_cabecalho ∉ cargo_tables lower_latin1 [so_cabecalho])
  /\ ~ (so_cabecalho ∈ cargo_tables lower_latin1 [so_cabecalho]
        <-> 2 <= score lower_latin1 so_cabecalho).
Proof.
  assert (Hout : so_cabecalho ∉ cargo_tables lower_latin1 [so_cabecalho]).
  { intros H. vm_compute in H. inversion H. }
  split; [reflexivity|]. split; [vm_compute; reflexivity|].
  split; [exact Hout|].
  intros [_ H]. apply Hout, H. vm_compute. lia.
Qed.

Lemma consolidation_follows_first_signature_witness :
  cargo_tables lower_latin1 [pagina1; pagina2; pagina3] = [pagina1; pagina2]
  /\ reference_shape lower_latin1 [anexos; pagina3; pagina1]
     = Some (signature pagina3)
  /\ (anexos ∉ cargo_tables lower_latin1 [anexos; pagina3; pagina1]).
Proof.
  destruct (consolidation_follows_first_signature lower_latin1)
    as (P1 & P2 & P3).
  split; [|split].
  - apply P2; vm_compute; reflexivity.
  - apply (P1 [anexos] [pagina1] pagina3).
    + constructor; [vm_compute; reflexivity | constructor].
    + vm_compute; reflexivity.
  - apply P3. vm_compute. lia.
Defined.

(** C1, as the specification words it, fails: the first table scored at
    2 or more can be a header without a data row, which the walk passes
    over.  Here such a header of 9 columns, scored at 5, comes before a
    table of 8 columns and a table of 9 columns, both with a data row and
    scored at 2 or more: the reference is 8, not the 9 of the first table
    scored at 2 or more, and the group is the table of 8 columns alone,
    without the later table of 9. *)
Lemma consolidation_counterexample :
  2 <= score lower_latin1 so_cabecalho /\ signature so_cabecalho = 9
  /\ 2 <= score lower_latin1 pagina1 /\ signature pagina1 = 8
  /\ 2 <= score lower_latin1 pagina3 /\ signature pagina3 = 9
  /\ reference_shape lower_latin1 [so_cabecalho; pagina1; pagina3] = Some 8
  /\ cargo_tables lower_latin1 [so_cabecalho; pagina1; pagina3] = [pagina1].
Proof.
  repeat split; vm_compute; (reflexivity || lia).
Qed.

(** C5, as the specification words it, fails: a table of 9 columns scored
    at 2 or more after a first one of 8 columns opens no group of its own
    and is absent from what [find_cargos_table] returns. *)
Lemma mismatching_table_counterexample :
  candidate lower_latin1 pagina1 = true
  /\ candidate lower_latin1 pagina3 = true
  /\ signature pagina1 = 8 /\ signature pagina3 = 9
  /\ cargo_tables lower_latin1 [pagina1; pagina3] = [pagina1]
  /\ (pagina3 ∉ cargo_tables lower_latin1 [pagina1; pagina3])
  /\ outcome (find_cargos_table lower_latin1 concat_aligned
                                [pagina1; pagina3])
     = Ok (Some pagina1).
Proof.
  repeat split; try (vm_compute; reflexivity).
  intros H. vm_compute in H. apply list_elem_of_singleton in H. discriminate H.
Qed.

Lemma mismatching_table_is_left_out_witness :
  (pagina3 ∉ cargo_tables lower_latin1 ([anexos] ++ pagina1 :: [pagina2; pagina3]))
  /\ reference_shape lower_latin1 ([anexos] ++ pagina1 :: [pagina2; pagina3])
     = Some (signature pagina1)
  /\ (forall x, x ∈ cargo_tables lower_latin1
                     ([anexos] ++ pagina1 :: [pagina2; pagina3]) ->
                signature x = signature pagina1).
Proof.
  apply (mismatching_table_is_left_out lower_latin1).
  - constructor; [vm_compute; reflexivity | constructor].
  - vm_compute; reflexivity.
  - vm_compute. discriminate.
Defined.

Lemma header_only_table_is_discarded_witness :
  5 <= score lower_latin1 so_cabecalho
  /\ (so_cabecalho ∉ cargo_tables lower_latin1 [pagina3; so_cabecalho])
  /\ outcome (find_cargos_table lower_latin1 concat_aligned [so_cabecalho])
     = Ok None.
Proof.
  split; [vm_compute; lia|].
  apply (header_only_table_is_discarded lower_latin1 concat_aligned
           [pagina3; so_cabecalho] so_cabecalho).
  reflexivity.
Defined.

(** ** Schema inference: the dict [col_mapping] of [parse_cargos] *)

Section SchemaClaims.

Variable lower : list N -> list N.

(** The [if]/[elif] chain of lines 239-248 sends a column to the first
    group of [priority] its lowercase header matches. *)
Lemma by_name_step_assigned (m : gmap string nat) (idx : nat) (col : value) :
  by_name_step lower m idx col
  = match assigned_field lower col with
    | Some field => <[field := idx]> m
    | None => m
    end.
Proof.
  unfold by_name_step, assigned_field, priority, first_group, matches_any,
    role_group, requirement_group, salary_group, hours_group, openings_group.
  cbn [existsb].
  repeat (match goal with
          | |- context [contains ?k ?h] => destruct (contains k h)
          end; cbn [orb]; try reflexivity).
Qed.

Lemma by_name_snoc (cols : list value) (c : value) :
  forall (m : gmap string nat) (idx : nat),
    by_name lower m idx (cols ++ [c])
    = by_name_step lower (by_name lower m idx cols) (idx + length cols) c.
Proof.
  induction cols as [|x cols IH]; intros m idx; cbn [by_name app length].
  - by rewrite Nat.add_0_r.
  - rewrite IH. by rewrite Nat.add_succ_r.
Qed.

(** The narrow layout maps a field to column [j] exactly when column [j]
    goes to that field and no later column does. *)
Lemma by_name_lookup (cols : list value) (key : string) (j : nat) :
  by_name lower ∅ 0 cols !! key = Some j
  <-> (exists col, cols !! j = Some col
                   /\ assigned_field lower col = Some key)
      /\ (forall j' col', j < j' -> cols !! j' = Some col' ->
                          assigned_field lower col' <> Some key).
Proof.
  revert j; induction cols as [|c cols IH] using rev_ind; intros j.
  - cbn [by_name]. rewrite lookup_empty. split; [done|].
    by intros [(col & Hcol & _) _].
  - rewrite by_name_snoc, by_name_step_assigned. cbn [Nat.add].
    assert (Hold : forall j' col', cols !! j' = Some col' ->
                                   (cols ++ [c]) !! j' = Some col').
    { intros j' col' H. by rewrite lookup_app_l by (by eapply lookup_lt_Some). }
    assert (Hlast : (cols ++ [c]) !! length cols = Some c).
    { by rewrite lookup_app_r, Nat.sub_diag by lia. }
    assert (Hinv : forall j' col', (cols ++ [c]) !! j' = Some col' ->
               (j' < length cols /\ cols !! j' = Some col')
               \/ (j' = length cols /\ col' = c)).
    { intros j' col' H. destruct (decide (j' < length cols)) as [Hlt|Hge].
      - left. by rewrite lookup_app_l in H.
      - right. apply lookup_lt_Some in H as Hlen. rewrite length_app in Hlen.
        cbn in Hlen. assert (j' = length cols) as -> by lia.
        rewrite Hlast in H. by injection H as <-. }
    destruct (decide (assigned_field lower c = Some key)) as [Hc|Hc].
    + rewrite Hc, lookup_insert_eq. split.
      * intros [= <-]. split; [by exists c|].
        intros j' col' Hlt Hj'. apply Hinv in Hj' as [[? _]|[? _]]; lia.
      * intros [(col & Hcol & Hkey) Hlater].
        apply Hinv in Hcol as [[Hlt _]|[-> _]]; [|done].
        by destruct (Hlater (length cols) c Hlt Hlast).
    + assert (Hlk : match assigned_field lower c with
                    | Some field => <[field := length cols]>
                                      (by_name lower ∅ 0 cols)
                    | None => by_name lower ∅ 0 cols
                    end !! key = by_name lower ∅ 0 cols !! key).
      { destruct (assigned_field lower c) as [f|]; [|done].
        apply lookup_insert_ne. congruence. }
      rewrite Hlk, IH. split.
      * intros [(col & Hcol & Hkey) Hlater]. split; [exists col; eauto|].
        intros j' col' Hlt Hj'.
        apply Hinv in Hj' as [[_ Hj']|[_ ->]]; [eauto | done].
      * intros [(col & Hcol & Hkey) Hlater].
        apply Hinv in Hcol as [[_ Hcol]|[_ ->]]; [|done].
        split; [exists col; eauto|]. intros j' col' Hlt Hj'. eauto.
Qed.

(** Whatever the layout, a mapped index is a column of the frame. *)
Lemma col_mapping_in_range (df : DataFrame) (key : string) (i : nat) :
  col_mapping lower df !! key = Some i -> i < length (columns df).
Proof.
  unfold col_mapping.
  destruct (Nat.leb_spec 8 (length (columns df))) as [H8|H8].
  { intros H%elem_of_list_to_map_2.
    repeat (apply elem_of_cons in H as [[= -> ->]|H]; [lia|]).
    by apply elem_of_nil in H. }
  destruct (Nat.leb_spec 5 (length (columns df))) as [H5|H5].
  { intros H%elem_of_list_to_map_2.
    repeat (apply elem_of_cons in H as [[= -> ->]|H]; [lia|]).
    by apply elem_of_nil in H. }
  intros [(col & Hcol & _) _]%by_name_lookup. by eapply lookup_lt_Some.
Qed.

(** In a rectangular frame every row can be read under the mapping of the
    frame: the [except] of line 279 is never entered. *)
Lemma rectangular_rows_readable (df : DataFrame) (row : list value) :
  rectangular df -> row ∈ rows df -> readable (col_mapping lower df) row.
Proof.
  intros Hrect Hrow key i _ Hkey.
  apply col_mapping_in_range in Hkey.
  unfold rectangular in Hrect. rewrite Forall_forall in Hrect.
  apply lookup_lt_is_Some. by rewrite (Hrect row Hrow).
Qed.

(** C3. A frame of 8 columns or more gets the fixed mapping role 0,
    requirement 2, hours 3, openings 4, salary 7, whatever its headers. *)
Theorem wide_layout_is_positional (df : DataFrame) :
  8 <= length (columns df) ->
  col_mapping lower df
  = {[ "cargo" := 0; "requisito" := 2; "carga_horaria" := 3;
       "vagas" := 4; "salario" := 7 ]}.
Proof.
  intros H. unfold col_mapping.
  apply Nat.leb_le in H. rewrite H. reflexivity.
Qed.

(** C4, as the code has it. In a frame of fewer than 5 columns each column
    goes to at most one field, the first group its lowercase header matches
    in the order role, requirement, salary, hours, openings; a field is
    mapped to the last column that goes to it.  So of two columns that go
    to salary, with no later one that does, the later one is the salary
    column; a column that matches the salary group after matching the role
    or the requirement group does not count. *)
Theorem narrow_layout_last_assignment_wins (df : DataFrame) :
  length (columns df) < 5 ->
  (forall (m : gmap string nat) (idx : nat) (col : value),
      by_name_step lower m idx col
      = match first_group priority (lower (str col)) with
        | Some field => <[field := idx]> m
        | None => m
        end)
  /\ (forall (key : string) (j : nat),
         col_mapping lower df !! key = Some j
         <-> (exists col, columns df !! j = Some col
                          /\ assigned_field lower col = Some key)
             /\ (forall j' col', j < j' -> columns df !! j' = Some col' ->
                                 assigned_field lower col' <> Some key))
  /\ (forall (i j : nat) (ci cj : value),
         i < j ->
         columns df !! i = Some ci -> columns df !! j = Some cj ->
         assigned_field lower ci = Some "salario" ->
         assigned_field lower cj = Some "salario" ->
         (forall j' col', j < j' -> columns df !! j' = Some col' ->
                          assigned_field lower col' <> Some "salario") ->
         col_mapping lower df !! "salario" = Some j)
  /\ (forall col : value,
         assigned_field lower col = Some "salario"
         <-> matches_any salary_group (lower (str col)) = true
             /\ matches_any role_group (lower (str col)) = false
             /\ matches_any requirement_group (lower (str col)) = false).
Proof.
  intros Hn.
  assert (Hmap : col_mapping lower df = by_name lower ∅ 0 (columns df)).
  { unfold col_mapping.
    destruct (Nat.leb_spec 8 (length (columns df))); [lia|].
    destruct (Nat.leb_spec 5 (length (columns df))); [lia|done]. }
  split; [|split; [|split]].
  - intros m idx col. apply by_name_step_assigned.
  - intros key j. rewrite Hmap. apply by_name_lookup.
  - intros i j ci cj Hij Hi Hj Hci Hcj Hlater.
    rewrite Hmap. apply by_name_lookup. split; [by exists cj | done].
  - intros col. unfold assigned_field, priority. cbn [first_group].
    destruct (matches_any role_group _); [split; [done | by intros (_&?&_)]|].
    destruct (matches_any requirement_group _);
      [split; [done | by intros (_&_&?)]|].
    destruct (matches_any salary_group _); [done|].
    split; [|by intros (?&_)].
    destruct (matches_any hours_group _); [done|].
    by destruct (matches_any openings_group _).
Qed.

End SchemaClaims.

Lemma wide_layout_is_positional_witness :
  col_mapping lower_latin1 pagina3
  = {[ "cargo" := 0; "requisito" := 2; "carga_horaria" := 3;
       "vagas" := 4; "salario" := 7 ]}.
Proof.
  apply (wide_layout_is_positional lower_latin1 pagina3).
  vm_compute. lia.
Defined.

(** C4, as the specification words it, fails: both headers match the
    salary group, and the salary column is the earlier one, because the
    later header matches the role group first. *)
Lemma narrow_layout_counterexample :
  length (columns dois_salarios) < 5
  /\ matches_any salary_group (lower_latin1 (u "Salário base")) = true
  /\ matches_any salary_group (lower_latin1 (u "Salário do cargo")) = true
  /\ col_mapping lower_latin1 dois_salarios !! "salario" = Some 0
  /\ col_mapping lower_latin1 dois_salarios !! "cargo" = Some 1.
Proof.
  repeat split; try (vm_compute; reflexivity). vm_compute. lia.
Qed.

Lemma narrow_layout_last_assignment_wins_witness :
  col_mapping lower_latin1 dois_vencimentos !! "salario" = Some 2.
Proof.
  destruct (narrow_layout_last_assignment_wins lower_latin1 dois_vencimentos)
    as (_ & _ & H & _).
  - vm_compute. lia.
  - apply (H 1 2 (cell "Vencimento") (cell "Remuneração")).
    + lia.
    + reflexivity.
    + reflexivity.
    + vm_compute; reflexivity.
    + vm_compute; reflexivity.
    + intros j' col' Hlt Hcol.
      destruct j' as [|[|[|[|j']]]]; try lia.
      * injection Hcol as <-. vm_compute. discriminate.
      * discriminate Hcol.
Defined.

(** ** Record extraction: the row loop of [parse_cargos] *)

Section Extraction.

Variable m : gmap string nat.
Variable row : list value.

Lemma fill_outcome (key : string) (c : gmap string (list N)) :
  outcome (fill m row key c)
  = match m !! key with
    | Some i =>
        match row !! i with
        | Some v => Ok (<[key := strip (str v)]> c)
        | None => Raise IndexError
        end
    | None => Ok c
    end.
Proof.
  unfold fill, iloc. destruct (m !! key) as [i|]; [|done].
  by destruct (row !! i).
Qed.

Lemma fill_written (key : string) (c : gmap string (list N)) :
  written (fill m row key c) = [].
Proof.
  unfold fill, iloc. destruct (m !! key) as [i|]; [|done].
  by destruct (row !! i).
Qed.

Lemma fill_all_fill_keys (c0 : gmap string (list N)) :
  outcome (fill_all m row c0) = fill_keys m row fields c0.
Proof.
  unfold fill_all, fill_keys, fields. cbn [foldl].
  rewrite outcome_bind.
  destruct (outcome (fill m row "cargo" c0)) as [c1|]; [|done].
  rewrite outcome_bind.
  destruct (outcome (fill m row "requisito" c1)) as [c2|]; [|done].
  rewrite outcome_bind.
  destruct (outcome (fill m row "salario" c2)) as [c3|]; [|done].
  rewrite outcome_bind.
  by destruct (outcome (fill m row "carga_horaria" c3)) as [c4|].
Qed.

Lemma fill_all_written (c0 : gmap string (list N)) :
  written (fill_all m row c0) = [].
Proof.
  unfold fill_all.
  repeat (rewrite written_bind, fill_written; cbn [app];
          match goal with
          | |- context [outcome (fill m row ?k ?c)] =>
              destruct (outcome (fill m row k c)); [|done]
          end).
  apply fill_written.
Qed.

Lemma fill_keys_raise (keys : list string) (e : exception) :
  foldl (fun acc key =>
           match acc with
           | Ok c => outcome (fill m row key c)
           | Raise e => Raise e
           end) (Raise e) keys = Raise e.
Proof. by induction keys. Qed.

(** When every mapped cell of [keys] exists the reads succeed, and the dict
    holds the stripped text of the mapped cells. *)
Lemma fill_keys_ok (keys : list string) :
  forall c0,
    (forall key i, key ∈ keys -> m !! key = Some i -> is_Some (row !! i)) ->
    exists c,
      fill_keys m row keys c0 = Ok c
      /\ forall key,
          c !! key
          = match m !! key with
            | Some i => if decide (key ∈ keys)
                        then (fun v => strip (str v)) <$> row !! i
                        else c0 !! key
            | None => c0 !! key
            end.
Proof.
  induction keys as [|k keys IH]; intros c0 Hread.
  - exists c0. split; [done|]. intros key.
    destruct (m !! key); [|done]. by rewrite decide_False by apply not_elem_of_nil.
  - unfold fill_keys. cbn [foldl]. rewrite fill_outcome.
    destruct (m !! k) as [i|] eqn:Hk.
    + destruct (Hread k i) as [v Hv]; [by left | done |]. rewrite Hv.
      destruct (IH (<[k := strip (str v)]> c0)) as (c & Hc & Hlook).
      { intros key j Hin. apply Hread. by right. }
      exists c. split; [done|]. intros key. rewrite Hlook.
      destruct (m !! key) as [j|] eqn:Hkey.
      * destruct (decide (key ∈ keys)) as [Hin|Hout].
        { by rewrite decide_True by (by right). }
        destruct (decide (key = k)) as [->|Hne].
        { rewrite decide_True by (by left). rewrite lookup_insert_eq.
          assert (j = i) as -> by congruence. by rewrite Hv. }
        rewrite decide_False, lookup_insert_ne; [done..|].
        intros [?|?]%elem_of_cons; done.
      * apply lookup_insert_ne. congruence.
    + destruct (IH c0) as (c & Hc & Hlook).
      { intros key j Hin. apply Hread. by right. }
      exists c. split; [done|]. intros key. rewrite Hlook.
      destruct (m !! key) as [j|] eqn:Hkey; [|done].
      destruct (decide (key ∈ keys)) as [Hin|Hout].
      * by rewrite decide_True by (by right).
      * rewrite decide_False; [done|].
        intros [->|?]%elem_of_cons; [congruence | done].
Qed.

(** A mapped cell that does not exist makes the reads raise. *)
Lemma fill_keys_missing (keys : list string) :
  forall c0 key i,
    key ∈ keys -> m !! key = Some i -> row !! i = None ->
    fill_keys m row keys c0 = Raise IndexError.
Proof.
  induction keys as [|k keys IH]; intros c0 key i Hin Hkey Hrow.
  - by apply elem_of_nil in Hin.
  - unfold fill_keys. cbn [foldl].
    destruct (outcome (fill m row k c0)) as [c1|e] eqn:Hf.
    + apply elem_of_cons in Hin as [->|Hin]; [|by eapply IH].
      rewrite fill_outcome, Hkey, Hrow in Hf. discriminate Hf.
    + assert (e = IndexError) as ->.
      { rewrite fill_outcome in Hf. destruct (m !! k) as [j|]; [|done].
        destruct (row !! j); congruence. }
      apply fill_keys_raise.
Qed.

Variable cidade : list N.

Lemma fill_all_readable :
  readable m row ->
  exists c,
    outcome (fill_all m row (new_cargo_info cidade)) = Ok c
    /\ forall key, key ∈ fields ->
         c !! key
         = match m !! key with
           | Some i => (fun v => strip (str v)) <$> row !! i
           | None => Some (u "")
           end.
Proof.
  intros Hread.
  destruct (fill_keys_ok fields (new_cargo_info cidade) Hread)
    as (c & Hc & Hlook).
  exists c. split; [by rewrite fill_all_fill_keys|].
  intros key Hin. rewrite Hlook.
  destruct (m !! key); [by rewrite decide_True by done|].
  unfold fields in Hin.
  repeat (apply elem_of_cons in Hin as [->|Hin]; [reflexivity|]).
  by apply elem_of_nil in Hin.
Qed.

Lemma fill_all_unreadable (key : string) (i : nat) :
  key ∈ fields -> m !! key = Some i -> row !! i = None ->
  outcome (fill_all m row (new_cargo_info cidade)) = Raise IndexError.
Proof.
  intros. rewrite fill_all_fill_keys. by eapply fill_keys_missing.
Qed.

Lemma fill_all_ok_readable (c : gmap string (list N)) :
  outcome (fill_all m row (new_cargo_info cidade)) = Ok c -> readable m row.
Proof.
  intros Hc key i Hin Hkey. destruct (row !! i) eqn:Hrow; [by eexists|].
  by rewrite (fill_all_unreadable key i) in Hc.
Qed.

Lemma clean_lookup (c : gmap string (list N)) (key : string) :
  clean c !! key = normalize <$> c !! key.
Proof. unfold clean. by rewrite lookup_fmap. Qed.

(** The cleaned dict of a readable row holds the normalized values. *)
Lemma clean_normalized (c : gmap string (list N)) (key : string) :
  outcome (fill_all m row (new_cargo_info cidade)) = Ok c ->
  key ∈ fields ->
  clean c !! key = Some (normalized m row key).
Proof.
  intros Hc Hin. pose proof (fill_all_ok_readable c Hc) as Hread.
  destruct (fill_all_readable Hread) as (c' & Hc' & Hlook).
  assert (c' = c) as -> by congruence.
  rewrite clean_lookup, (Hlook key Hin). unfold normalized.
  destruct (m !! key) as [i|] eqn:Hkey; [|done].
  destruct (Hread key i Hin Hkey) as [v Hv]. by rewrite Hv.
Qed.

Lemma keep_included (c : gmap string (list N)) :
  keep c = true <-> included (c !!! "cargo") (c !!! "salario").
Proof.
  unfold keep, included.
  rewrite !andb_true_iff, !negb_true_iff, Nat.ltb_lt.
  rewrite <- !not_true_iff_false, !eqb_spec, in_list_spec. tauto.
Qed.

Lemma row_step_outcome (cargos : list (gmap string (list N))) (idx : nat) :
  outcome (row_step m cidade cargos idx row)
  = Ok (match emitted m cidade row with
        | Some record => cargos ++ [record]
        | None => cargos
        end).
Proof.
  unfold row_step, emitted. rewrite outcome_bind.
  destruct (fill_all m row (new_cargo_info cidade)) as [[c|e] l]; [|done].
  cbn. by destruct (keep (clean c)).
Qed.

Lemma row_step_written (cargos : list (gmap string (list N))) (idx : nat) :
  written (row_step m cidade cargos idx row)
  = match outcome (fill_all m row (new_cargo_info cidade)) with
    | Ok c =>
        if keep (clean c)
        then [(DEBUG, CargoAdicionado (take 50 (clean c !!! "cargo")))]
        else []
    | Raise e => [(WARNING, ErroAoProcessarLinha idx e)]
    end.
Proof.
  unfold row_step. rewrite written_bind.
  pose proof (fill_all_written (new_cargo_info cidade)) as Hw.
  destruct (fill_all m row (new_cargo_info cidade)) as [[c|e] l];
    cbn in Hw |- *; subst l; [|done].
  by destruct (keep (clean c)).
Qed.

End Extraction.

Section RowLoop.

Variable m : gmap string nat.
Variable cidade : list N.

Lemma iterrows_outcome (rws : list (list value)) :
  forall (cargos : list (gmap string (list N))) (idx : nat),
    outcome (iterrows m cidade cargos idx rws)
    = Ok (cargos ++ omap (emitted m cidade) rws).
Proof.
  induction rws as [|row rws IH]; intros cargos idx; cbn [iterrows].
  - cbn. by rewrite app_nil_r.
  - rewrite outcome_bind, row_step_outcome, IH.
    change (omap (emitted m cidade) (row :: rws))
      with (match emitted m cidade row with
            | Some record => record :: omap (emitted m cidade) rws
            | None => omap (emitted m cidade) rws
            end).
    destruct (emitted m cidade row); [|done]. by rewrite <- app_assoc.
Qed.

(** What a row writes to the log reaches the log of the loop, under the
    index of the row. *)
End RowLoop.

Section ExtractionClaims.

Variable lower : list N -> list N.

Lemma probe_returns (df : DataFrame) :
  first_cell_readable df ->
  exists b, primeira_linha_tem_dados df = ret b.
Proof.
  intros [v Hv]. unfold primeira_linha_tem_dados.
  destruct (0 <? len df)%nat; [|by eexists].
  rewrite Hv. by eexists.
Qed.


Lemma parse_cargos_result (df : DataFrame) (cidade : list N) :
  empty df = false ->
  first_cell_readable df ->
  let m := col_mapping lower df in
  outcome (parse_cargos lower (Some df) cidade)
  = Ok (omap (emitted m cidade) (rows df))
  /\ forall e, e ∈ written (iterrows m cidade [] 0 (rows df)) ->
               e ∈ written (parse_cargos lower (Some df) cidade).
Proof.
  intros He Hfirst m. unfold parse_cargos. rewrite He.
  destruct (probe_returns df Hfirst) as [b ->]. fold m.
  pose proof (iterrows_outcome m cidade (rows df) [] 0) as Ho.
  destruct (iterrows m cidade [] 0 (rows df)) as [r l].
  cbn in Ho. subst r. cbn. split; [done|].
  intros e Hin. do 3 right. apply elem_of_app. by left.
Qed.

End ExtractionClaims.

Section RecordClaims.

Variable lower : list N -> list N.

(** A row that is not emitted after a successful read leaves no trace:
    the list of records is as before and nothing is logged. *)
Lemma row_step_silent (m : gmap string nat) (cidade : list N)
    (row : list value) (cargos : list (gmap string (list N))) (idx : nat) :
  readable m row -> emitted m cidade row = None ->
  row_step m cidade cargos idx row = ret cargos.
Proof.
  intros Hread Hnone.
  pose proof (row_step_outcome m row cidade cargos idx) as Ho.
  pose proof (row_step_written m row cidade cargos idx) as Hw.
  destruct (fill_all_readable m row cidade Hread) as (c & Hc & _).
  rewrite Hnone in Ho. unfold emitted in Hnone. rewrite Hc in Hnone, Hw.
  destruct (keep (clean c)); [done|].
  destruct (row_step m cidade cargos idx row) as [r l].
  cbn in Ho, Hw. by subst.
Qed.

Lemma emitted_included (m : gmap string nat) (cidade : list N)
    (row : list value) :
  readable m row ->
  is_Some (emitted m cidade row)
  <-> included (normalized m row "cargo") (normalized m row "salario").
Proof.
  intros Hread.
  destruct (fill_all_readable m row cidade Hread) as (c & Hc & _).
  assert (Hcargo : clean c !!! "cargo" = normalized m row "cargo").
  { rewrite lookup_total_alt, (clean_normalized m row cidade c) by
      (done || (unfold fields; set_solver)). done. }
  assert (Hsal : clean c !!! "salario" = normalized m row "salario").
  { rewrite lookup_total_alt, (clean_normalized m row cidade c) by
      (done || (unfold fields; set_solver)). done. }
  rewrite <- Hcargo, <- Hsal, <- keep_included.
  unfold emitted. rewrite Hc. destruct (keep (clean c)).
  - split; [done | by eexists].
  - split; [by intros [? ?] | done].
Qed.

Lemma emitted_fields (m : gmap string nat) (cidade : list N)
    (row : list value) (record : gmap string (list N)) (key : string) :
  emitted m cidade row = Some record -> key ∈ fields ->
  record !! key = Some (normalized m row key).
Proof.
  unfold emitted.
  destruct (outcome (fill_all m row (new_cargo_info cidade)))
    as [c|e] eqn:Hc; [|done].
  destruct (keep (clean c)); [|done]. intros [= <-] Hin.
  by apply (clean_normalized m row cidade).
Qed.

Lemma not_included_none (m : gmap string nat) (cidade : list N)
    (row : list value) :
  ~ included (normalized m row "cargo") (normalized m row "salario") ->
  emitted m cidade row = None.
Proof.
  intros Hnot. destruct (emitted m cidade row) as [record|] eqn:He; [|done].
  destruct Hnot. apply (emitted_included m cidade row); [|by eexists].
  unfold emitted in He.
  destruct (outcome (fill_all m row (new_cargo_info cidade)))
    as [c|e] eqn:Hc; [|done].
  by eapply fill_all_ok_readable.
Qed.

(** C6. The records [parse_cargos] returns are, in the order of the rows,
    the rows it emits.  A row whose mapped cells can be read (in a
    rectangular frame, every row) is emitted exactly when its normalized
    role is not empty and longer than 3 characters and its normalized
    salary is not empty and none of nan, None and the hyphen; the record
    holds the normalized values; a row that fails the predicate is dropped
    with no exception and no log entry.  So the role Agente Comunitário de
    Saúde with the salary 3.036,00 is emitted, the role X is not, the
    salary made of a hyphen is not. *)
Theorem row_inclusion_predicate (df : DataFrame) (cidade : list N) :
  empty df = false ->
  first_cell_readable df ->
  let m := col_mapping lower df in
  outcome (parse_cargos lower (Some df) cidade)
  = Ok (omap (emitted m cidade) (rows df))
  /\ (rectangular df -> forall row, row ∈ rows df -> readable m row)
  /\ (forall row : list value,
         readable m row ->
         (is_Some (emitted m cidade row)
          <-> included (normalized m row "cargo")
                       (normalized m row "salario"))
         /\ (forall record key,
                emitted m cidade row = Some record -> key ∈ fields ->
                record !! key = Some (normalized m row key))
         /\ (emitted m cidade row = None ->
             forall cargos idx,
               row_step m cidade cargos idx row = ret cargos))
  /\ (forall row : list value,
         readable m row ->
         normalized m row "cargo" = u "Agente Comunitário de Saúde" ->
         normalized m row "salario" = u "3.036,00" ->
         is_Some (emitted m cidade row))
  /\ (forall row : list value,
         normalized m row "cargo" = u "X" -> emitted m cidade row = None)
  /\ (forall row : list value,
         normalized m row "salario" = u "-" -> emitted m cidade row = None).
Proof.
  intros He Hfirst m.
  split; [by apply parse_cargos_result|].
  split; [intros Hrect row Hrow; by apply rectangular_rows_readable|].
  split; [|split; [|split]].
  - intros row Hread. split; [by apply emitted_included|]. split.
    + intros record key Hrec Hin. by apply (emitted_fields m cidade row).
    + intros Hnone cargos idx. by apply row_step_silent.
  - intros row Hread Hrole Hsal. apply emitted_included; [done|].
    rewrite Hrole, Hsal. unfold included.
    repeat split; try (vm_compute; (discriminate || lia)).
    intros Hin. apply in_list_spec in Hin. discriminate Hin.
  - intros row Hrole. apply not_included_none. rewrite Hrole.
    intros (_ & Hlen & _). vm_compute in Hlen. lia.
  - intros row Hsal. apply not_included_none. rewrite Hsal.
    intros (_ & _ & _ & Hnot). apply Hnot, in_list_spec. reflexivity.
Qed.

(** C7. Cleaning rewrites every value of the dict that is one of nan,
    None, null, spelled so, to the empty string and leaves the others; the
    loop cleans before it tests the row.  A row whose salary cell reads
    None is therefore not emitted: the result is that of the rows around
    it. *)
Theorem placeholders_are_blanked_before_the_test
    (cols : list value) (before after : list (list value))
    (row : list value) (cidade : list N) (j : nat) (v : value) :
  let df := {| columns := cols; rows := before ++ row :: after |} in
  let m := col_mapping lower df in
  empty df = false ->
  first_cell_readable df ->
  m !! "salario" = Some j ->
  row !! j = Some v ->
  strip (str v) = u "None" ->
  (forall (c : gmap string (list N)) (key : string) (x : list N),
      c !! key = Some x ->
      clean c !! key
      = Some (if bool_decide (x ∈ [u "nan"; u "None"; u "null"])
              then u "" else x))
  /\ (forall (m' : gmap string nat) (r : list value) c cargos idx,
         outcome (fill_all m' r (new_cargo_info cidade)) = Ok c ->
         outcome (row_step m' cidade cargos idx r)
         = Ok (if keep (clean c) then cargos ++ [clean c] else cargos))
  /\ normalized m row "salario" = u ""
  /\ emitted m cidade row = None
  /\ outcome (parse_cargos lower (Some df) cidade)
     = Ok (omap (emitted m cidade) before ++ omap (emitted m cidade) after).
Proof.
  intros df m He Hfirst Hj Hv Hnone.
  assert (Hnorm : normalized m row "salario" = u "").
  { unfold normalized. by rewrite Hj, Hv, Hnone. }
  assert (Hem : emitted m cidade row = None).
  { apply not_included_none. rewrite Hnorm. by intros (_ & _ & ? & _). }
  split; [|split; [|split; [done|split; [done|]]]].
  - intros c key x Hx. rewrite clean_lookup, Hx.
    change (normalize <$> Some x) with (Some (normalize x)). f_equal.
    unfold normalize.
    destruct (in_list x [u "nan"; u "None"; u "null"]) eqn:Hin.
    + apply in_list_spec in Hin. by rewrite bool_decide_eq_true_2.
    + rewrite bool_decide_eq_false_2; [done|].
      intros Hin'%in_list_spec. congruence.
  - intros m' r c cargos idx Hc. rewrite row_step_outcome.
    unfold emitted. rewrite Hc. by destruct (keep (clean c)).
  - destruct (parse_cargos_result lower df cidade He Hfirst) as [-> _].
    fold m. cbn [rows df]. rewrite omap_app.
    change (omap (emitted m cidade) (row :: after))
      with (match emitted m cidade row with
            | Some record => record :: omap (emitted m cidade) after
            | None => omap (emitted m cidade) after
            end).
    by rewrite Hem.
Qed.

End RecordClaims.

(** ** The backtracking matcher *)

Section Matcher.

Lemma greedy_sound (c : N -> bool) (k : list N -> option (list (list N)))
    (s : list N) :
  forall g ps,
    Re.greedy c k s = Some (g, ps) ->
    Forall (fun x => c x = true) g
    /\ exists s', s = g ++ s' /\ k s' = Some ps.
Proof.
  assert (Hstop : forall s g ps,
             (ps ← k s; Some ([], ps)) = Some (g, ps) ->
             Forall (fun x => c x = true) g
             /\ exists s', s = g ++ s' /\ k s' = Some ps).
  { intros s0 g ps H. destruct (k s0) as [ps'|] eqn:Hk; [|done].
    cbn in H. injection H as <- <-. split; [done|]. by exists s0. }
  induction s as [|x s IH]; intros g ps H; cbn [Re.greedy] in H.
  - by apply Hstop.
  - destruct (c x) eqn:Hx; [|by apply Hstop].
    destruct (Re.greedy c k s) as [[g' ps']|] eqn:Hg; [|by apply Hstop].
    injection H as <- <-. destruct (IH g' ps' eq_refl) as (Hall & s' & -> & Hk).
    split; [by constructor|]. by exists s'.
Qed.

(** A run of the class followed by something outside it: the repetition
    takes the whole run when the rest of the pattern matches after it. *)
Lemma greedy_run (c : N -> bool) (k : list N -> option (list (list N)))
    (run rest : list N) (ps : list (list N)) :
  Forall (fun x => c x = true) run ->
  k rest = Some ps ->
  match rest with x :: _ => c x = false | [] => True end ->
  Re.greedy c k (run ++ rest) = Some (run, ps).
Proof.
  intros Hrun Hk Hrest. induction Hrun as [|x run Hx _ IH].
  - destruct rest as [|y rest]; cbn [app Re.greedy]; [by rewrite Hk|].
    by rewrite Hrest, Hk.
  - cbn [app Re.greedy]. by rewrite Hx, IH.
Qed.

Lemma match_here_sound (p : list Re.item) :
  forall s pieces,
    Re.match_here p s = Some pieces ->
    Forall2 piece_ok p pieces /\ exists rest, s = concat pieces ++ rest.
Proof.
  induction p as [|[c q] p IH]; intros s pieces H; cbn [Re.match_here] in H.
  - injection H as <-. split; [constructor | by exists s].
  - destruct q.
    + destruct s as [|x s]; [done|]. destruct (c x) eqn:Hx; [|done].
      destruct (Re.match_here p s) as [ps|] eqn:Hm; [|done].
      cbn in H. injection H as <-.
      destruct (IH s ps Hm) as (Hall & rest & ->).
      split; [|by exists rest].
      constructor; [|done]. split; [by repeat constructor | done].
    + destruct (Re.greedy c (Re.match_here p) s) as [[g ps]|] eqn:Hg; [|done].
      cbn in H. injection H as <-.
      destruct (greedy_sound c _ s g ps Hg) as (Hg' & s' & -> & Hm).
      destruct (IH s' ps Hm) as (Hall & rest & ->).
      split; [by constructor|]. exists rest. cbn. by rewrite app_assoc.
    + destruct s as [|x s]; [done|]. destruct (c x) eqn:Hx; [|done].
      destruct (Re.greedy c (Re.match_here p) s) as [[g ps]|] eqn:Hg; [|done].
      cbn in H. injection H as <-.
      destruct (greedy_sound c _ s g ps Hg) as (Hg' & s' & -> & Hm).
      destruct (IH s' ps Hm) as (Hall & rest & ->).
      split.
      * constructor; [|done]. split; [by constructor | done].
      * exists rest. cbn. by rewrite app_assoc.
Qed.

Lemma search_sound (p : list Re.item) (s : list N) :
  forall pieces,
    Re.search p s = Some pieces ->
    Forall2 piece_ok p pieces
    /\ exists before rest, s = before ++ concat pieces ++ rest.
Proof.
  induction s as [|x s IH]; intros pieces H; cbn [Re.search] in H.
  - destruct (Re.match_here p []) as [m|] eqn:Hm; [|done].
    injection H as <-. destruct (match_here_sound p _ _ Hm) as (? & rest & E).
    split; [done|]. by exists [], rest.
  - destruct (Re.match_here p (x :: s)) as [m|] eqn:Hm.
    + injection H as <-.
      destruct (match_here_sound p _ _ Hm) as (? & rest & E).
      split; [done|]. by exists [], rest.
    + destruct (IH pieces H) as (? & before & rest & ->).
      split; [done|]. by exists (x :: before), rest.
Qed.

Lemma search_here (p : list Re.item) (s : list N) (pieces : list (list N)) :
  Re.match_here p s = Some pieces -> Re.search p s = Some pieces.
Proof. intros H. destruct s; cbn [Re.search]; by rewrite H. Qed.

End Matcher.

(** ** The openings text: [parse_vagas] *)

Section OpeningsClaims.

Variable digit_val : N -> option N.
Variable max_str_digits : nat.

Hypothesis plus_is_no_digit : digit_val 43%N = None.
Hypothesis space_is_no_digit :
  forall c, isspace c = true -> digit_val c = None.

Lemma int_within_limit (ds : list N) :
  within_limit max_str_digits ds ->
  int digit_val max_str_digits ds = Ok (int_value digit_val ds).
Proof.
  unfold within_limit, int. intros [->|Hlen]; [done|].
  destruct (max_str_digits <? length ds) eqn:Hlt;
    [apply Nat.ltb_lt in Hlt; lia|].
  by rewrite andb_false_r.
Qed.

Lemma int_beyond_limit (ds : list N) :
  0 < max_str_digits < length ds ->
  int digit_val max_str_digits ds = Raise ValueError.
Proof.
  unfold int. intros [H0%Nat.ltb_lt Hlen%Nat.ltb_lt]. by rewrite H0, Hlen.
Qed.

Lemma isdigit_true (c : N) : isdigit digit_val c = true <-> is_Some (digit_val c).
Proof. unfold isdigit. apply bool_decide_eq_true. Qed.

Lemma isdigit_false (c : N) : digit_val c = None -> isdigit digit_val c = false.
Proof.
  intros H. unfold isdigit. apply bool_decide_eq_false.
  rewrite H. by intros [? ?].
Qed.

Lemma digits_isdigit (ds : list N) :
  Forall (fun d => is_Some (digit_val d)) ds ->
  Forall (fun d => isdigit digit_val d = true) ds.
Proof.
  intros H. eapply Forall_impl; [exact H|].
  intros d. by rewrite isdigit_true.
Qed.

(** On a text of the reserve form the first pattern matches at the start
    and its group is the digit run. *)
Lemma search_cr_reserve_form (ds text : list N) :
  reserve_form digit_val ds text ->
  exists pieces, Re.search (pattern_cr digit_val) text = Some (ds :: pieces).
Proof.
  intros (Hne & Hds & sp1 & sp2 & c & r & Hsp1 & Hsp2 & Hc & Hr & ->).
  destruct ds as [|d ds]; [done|]. apply Forall_cons in Hds as [Hd Hds].
  exists [sp1; [43%N]; sp2; [c]; [r]]. apply search_here.
  assert (Hcr : Re.match_here
                  [(Re.letter 99 67, Re.One); (Re.letter 114 82, Re.One)]
                  [c; r] = Some [[c]; [r]]).
  { cbn. assert (Re.letter 99 67 c = true) as ->.
    { unfold Re.letter.
      apply elem_of_cons in Hc as [->|Hc]; [done|].
      apply list_elem_of_singleton in Hc as ->. done. }
    assert (Re.letter 114 82 r = true) as ->; [|done].
    unfold Re.letter.
    apply elem_of_cons in Hr as [->|Hr]; [done|].
    apply list_elem_of_singleton in Hr as ->. done. }
  assert (Hc_space : isspace c = false).
  { apply elem_of_cons in Hc as [->|Hc]; [done|].
    apply list_elem_of_singleton in Hc as ->. done. }
  unfold pattern_cr. cbn [Re.match_here app].
  apply isdigit_true in Hd. rewrite Hd.
  rewrite (greedy_run _ _ ds _ [sp1; [43%N]; sp2; [c]; [r]]); [done | | |].
  - by apply digits_isdigit.
  - cbn [Re.match_here].
    rewrite (greedy_run _ _ sp1 _ [[43%N]; sp2; [c]; [r]]); [done|done| |done].
    cbn [Re.match_here app]. unfold Re.literal at 1. rewrite N.eqb_refl.
    rewrite (greedy_run _ _ sp2 [c; r] [[c]; [r]]); done.
  - destruct sp1 as [|x sp1]; cbn [app].
    + by apply isdigit_false.
    + apply Forall_cons in Hsp1 as [Hx _].
      by apply isdigit_false, space_is_no_digit.
Qed.

(** A text without a plus sign has no match of the first pattern, a text
    without a digit no match of either. *)
Lemma search_cr_needs_plus (text : list N) :
  43%N ∉ text -> Re.search (pattern_cr digit_val) text = None.
Proof.
  intros Hno. destruct (Re.search _ text) as [pieces|] eqn:Hs; [|done].
  destruct (search_sound _ _ _ Hs) as (Hall & before & rest & ->).
  destruct Hno. unfold pattern_cr in Hall.
  apply Forall2_cons_inv_l in Hall as (p1 & ps1 & _ & Hall & ->).
  apply Forall2_cons_inv_l in Hall as (p2 & ps2 & _ & Hall & ->).
  apply Forall2_cons_inv_l in Hall as (p3 & ps3 & [H3 Hlen] & _ & ->).
  cbn in Hlen. destruct p3 as [|x [|? ?]]; try done.
  apply Forall_cons in H3 as [Hx _]. cbn in Hx. unfold Re.literal in Hx.
  apply N.eqb_eq in Hx as ->. cbn. set_solver.
Qed.

Lemma search_needs_digit (p : list Re.item) (text : list N) :
  Forall (fun x => digit_val x = None) text ->
  Re.search ((isdigit digit_val, Re.Plus) :: p) text = None.
Proof.
  intros Hno. destruct (Re.search _ text) as [pieces|] eqn:Hs; [|done].
  destruct (search_sound _ _ _ Hs) as (Hall & before & rest & ->).
  apply Forall2_cons_inv_l in Hall as (p1 & ps1 & [H1 Hne] & _ & ->).
  cbn in Hne. destruct p1 as [|x p1]; [done|].
  apply Forall_cons in H1 as [Hx _]. cbn in Hx. apply isdigit_true in Hx.
  apply Forall_app in Hno as [_ Hno]. cbn in Hno.
  apply Forall_cons in Hno as [Hx' _]. rewrite Hx' in Hx. by destruct Hx.
Qed.

Lemma search_num_bare_integer (text : list N) :
  bare_integer digit_val text ->
  Re.search (pattern_num digit_val) text = Some [text].
Proof.
  intros [Hne Hds]. destruct text as [|d ds]; [done|].
  apply Forall_cons in Hds as [Hd Hds]. apply search_here.
  unfold pattern_num. cbn [Re.match_here]. apply isdigit_true in Hd.
  rewrite Hd. rewrite <- (app_nil_r ds) at 1.
  rewrite (greedy_run _ _ ds [] []); [done | by apply digits_isdigit | done..].
Qed.

(** On a text of either form, [parse_vagas] is [int] of the digit run with
    the flag of the form. *)
Lemma parse_vagas_reserve_form (ds text : list N) :
  reserve_form digit_val ds text ->
  parse_vagas digit_val max_str_digits text
  = match int digit_val max_str_digits ds with
    | Ok vagas => Ok (vagas, 1%N)
    | Raise e => Raise e
    end.
Proof.
  intros Hform.
  destruct (search_cr_reserve_form ds text Hform) as [pieces Hs].
  unfold parse_vagas. rewrite Hs.
  destruct Hform as (Hne & _ & sp1 & sp2 & c & r & _ & _ & _ & _ & ->).
  destruct ds; done.
Qed.

Lemma parse_vagas_bare_integer (text : list N) :
  bare_integer digit_val text ->
  parse_vagas digit_val max_str_digits text
  = match int digit_val max_str_digits text with
    | Ok vagas => Ok (vagas, 0%N)
    | Raise e => Raise e
    end.
Proof.
  intros Hbare. unfold parse_vagas.
  rewrite search_cr_needs_plus, (search_num_bare_integer text Hbare).
  - destruct Hbare as [Hne _]. by destruct text.
  - destruct Hbare as [_ Hds]. intros Hin.
    rewrite Forall_forall in Hds. destruct (Hds _ Hin) as [v Hv].
    congruence.
Qed.

(** C9, as the code has it. A text of the form digits, optional spaces,
    plus sign, optional spaces, CR in either case, whose digit run is one
    [int] converts, gives the number the digits spell with the reserve flag
    1; digits alone, no more than [int] converts, give that number with the
    flag 0; with a longer digit run both raise [ValueError]; a text with no
    digit in it gives (0, 0).  (A text with digits that is of neither form
    gives the number of a digit run: the patterns are searched for, not
    matched against the whole text.) *)
Theorem parse_vagas_forms :
  (forall ds text,
      reserve_form digit_val ds text ->
      (within_limit max_str_digits ds ->
       parse_vagas digit_val max_str_digits text
       = Ok (int_value digit_val ds, 1%N))
      /\ (0 < max_str_digits < length ds ->
          parse_vagas digit_val max_str_digits text = Raise ValueError))
  /\ (forall text,
         bare_integer digit_val text ->
         (within_limit max_str_digits text ->
          parse_vagas digit_val max_str_digits text
          = Ok (int_value digit_val text, 0%N))
         /\ (0 < max_str_digits < length text ->
             parse_vagas digit_val max_str_digits text = Raise ValueError))
  /\ (forall text,
         Forall (fun x => digit_val x = None) text ->
         parse_vagas digit_val max_str_digits text = Ok (0%N, 0%N))
  /\ (int_value digit_val [] = 0%N
      /\ forall ds d v,
           digit_val d = Some v ->
           int_value digit_val (ds ++ [d])
           = (int_value digit_val ds * 10 + v)%N).
Proof.
  split; [|split; [|split]].
  - intros ds text Hform. rewrite (parse_vagas_reserve_form ds text Hform).
    split; intros Hlen.
    + by rewrite int_within_limit.
    + by rewrite int_beyond_limit.
  - intros text Hbare. rewrite (parse_vagas_bare_integer text Hbare).
    split; intros Hlen.
    + by rewrite int_within_limit.
    + by rewrite int_beyond_limit.
  - intros text Hno. unfold parse_vagas.
    destruct (eqb text (u "")); [done|].
    unfold pattern_cr, pattern_num. by rewrite !search_needs_digit.
  - split; [done|]. intros ds d v Hd. unfold int_value.
    by rewrite fold_left_app; cbn; rewrite Hd.
Qed.

End OpeningsClaims.

Lemma ascii_digit_plus : ascii_digit 43%N = None.
Proof. reflexivity. Qed.

Lemma ascii_digit_space (c : N) : isspace c = true -> ascii_digit c = None.
Proof.
  unfold isspace, ascii_digit. intros H.
  destruct ((48 <=? c)%N && (c <=? 57)%N) eqn:Hd; [|done].
  apply andb_true_iff in Hd as [H1%N.leb_le H2%N.leb_le].
  repeat (apply orb_true_iff in H as [H|H]);
    repeat (apply andb_true_iff in H as [? ?]);
    repeat match goal with
           | H : (_ <=? _)%N = true |- _ => apply N.leb_le in H
           | H : (_ =? _)%N = true |- _ => apply N.eqb_eq in H
           end; lia.
Qed.

Lemma parse_vagas_forms_witness :
  parse_vagas ascii_digit 4300 (u "10 + CR") = Ok (10%N, 1%N)
  /\ parse_vagas ascii_digit 4300 (u "01") = Ok (1%N, 0%N)
  /\ parse_vagas ascii_digit 4300 (u "a definir") = Ok (0%N, 0%N)
  /\ parse_vagas ascii_digit 4300 (replicate 4301 49%N ++ u "+CR")
     = Raise ValueError.
Proof.
  destruct (parse_vagas_forms ascii_digit 4300 ascii_digit_plus
              ascii_digit_space)
    as (Hcr & Hnum & Hnone & _).
  split; [|split; [|split]].
  - apply (Hcr (u "10") (u "10 + CR")).
    + split; [discriminate|]. split; [by repeat constructor|].
      exists (u " "), (u " "), 67%N, 82%N.
      repeat split; try (by repeat constructor); set_solver.
    + right. vm_compute. lia.
  - apply (Hnum (u "01")).
    + split; [discriminate | by repeat constructor].
    + right. vm_compute. lia.
  - apply Hnone. by repeat constructor.
  - apply (Hcr (replicate 4301 49%N)).
    + split; [discriminate|]. split.
      { apply Forall_replicate. by eexists. }
      exists [], [], 67%N, 82%N.
      repeat split; try (by repeat constructor); set_solver.
    + rewrite length_replicate. lia.
Defined.

(** C9, as the specification words it, fails twice: a text that is neither
    of the two forms can give a number other than 0, and a bare integer of
    more digits than [int] converts gives no number at all. *)
Lemma parse_vagas_counterexample :
  ((forall ds, ~ reserve_form ascii_digit ds (u "12 vagas"))
   /\ ~ bare_integer ascii_digit (u "12 vagas")
   /\ parse_vagas ascii_digit 4300 (u "12 vagas") = Ok (12%N, 0%N))
  /\ (bare_integer ascii_digit (replicate 4301 49%N)
      /\ parse_vagas ascii_digit 4300 (replicate 4301 49%N)
         = Raise ValueError).
Proof.
  split; [split; [|split; [|reflexivity]] | split].
  - intros ds (_ & _ & sp1 & sp2 & c & r & _ & _ & _ & _ & E).
    assert (Hin : 43%N ∈ u "12 vagas") by (rewrite E; set_solver).
    revert Hin. apply (bool_decide_unpack (43%N ∉ u "12 vagas")).
    by vm_compute.
  - intros [_ H]. rewrite Forall_forall in H.
    destruct (H 32%N) as [v Hv]; [|discriminate Hv].
    vm_compute. set_solver.
  - split; [discriminate|]. apply Forall_replicate. by eexists.
  - rewrite (parse_vagas_bare_integer ascii_digit 4300 ascii_digit_plus
               ascii_digit_space).
    + rewrite int_beyond_limit; [done|]. rewrite length_replicate. lia.
    + split; [discriminate|]. apply Forall_replicate. by eexists.
Qed.

(** ** The extraction claims on the sample tables *)

Lemma quadro_first_cell : first_cell_readable quadro.
Proof. eexists. reflexivity. Qed.

Lemma row_inclusion_predicate_witness :
  outcome (parse_cargos lower_latin1 (Some quadro) (u "Sossêgo/PB"))
  = Ok (omap (emitted (col_mapping lower_latin1 quadro) (u "Sossêgo/PB"))
             (rows quadro))
  /\ (fun record : gmap string (list N) =>
        (record !!! "cargo", record !!! "salario"))
     <$> omap (emitted (col_mapping lower_latin1 quadro) (u "Sossêgo/PB"))
              (rows quadro)
     = [(u "Agente Comunitário de Saúde", u "3.036,00")].
Proof.
  destruct (row_inclusion_predicate lower_latin1 quadro (u "Sossêgo/PB"))
    as (H & _).
  - reflexivity.
  - exact quadro_first_cell.
  - split; [exact H | vm_compute; reflexivity].
Defined.

Lemma placeholders_are_blanked_before_the_test_witness :
  let m := col_mapping lower_latin1 quadro in
  emitted m (u "Sossêgo/PB") sem_salario = None
  /\ outcome (parse_cargos lower_latin1
               (Some {| columns := columns quadro;
                        rows := take 1 (rows quadro)
                                ++ sem_salario :: drop 1 (rows quadro) |})
               (u "Sossêgo/PB"))
     = Ok (omap (emitted m (u "Sossêgo/PB")) (take 1 (rows quadro))
           ++ omap (emitted m (u "Sossêgo/PB")) (drop 1 (rows quadro))).
Proof.
  destruct (placeholders_are_blanked_before_the_test lower_latin1
              (columns quadro) (take 1 (rows quadro)) (drop 1 (rows quadro))
              sem_salario (u "Sossêgo/PB") 4 (cell "None"))
    as (_ & _ & _ & H1 & H2).
  - reflexivity.
  - eexists. reflexivity.
  - vm_compute; reflexivity.
  - reflexivity.
  - vm_compute; reflexivity.
  - split; [exact H1 | exact H2].
Defined.

(** * Further properties of the code *)

(** ** [find_cargos_table]: what it returns and what it logs *)

Section ConsolidationMore.

Variable lower : list N -> list N.
Variable pd_concat : list DataFrame -> result DataFrame.

(** The walk logs one DEBUG entry for each table it appends. *)
Lemma walk_written (tables : list DataFrame) :
  forall st : list DataFrame * option nat,
  exists added r,
    outcome (walk lower st tables) = Ok (fst st ++ added, r)
    /\ written (walk lower st tables)
       = map (fun d => (DEBUG, TabelaDeCargosEncontrada d)) added.
Proof.
  induction tables as [|df tables IH]; intros [ct r]; cbn [walk].
  - exists [], r. cbn. by rewrite app_nil_r.
  - rewrite outcome_bind, written_bind.
    assert (Hstep : exists one r',
               walk_step lower (ct, r) df
               = (Ok (ct ++ one, r'),
                  map (fun d => (DEBUG, TabelaDeCargosEncontrada d)) one)).
    { unfold walk_step. destruct (empty df).
      { exists [], r. cbn. by rewrite app_nil_r. }
      destruct (2 <=? score lower df)%nat.
      2:{ exists [], r. cbn. by rewrite app_nil_r. }
      destruct (snd (shape df) =? _)%nat.
      - by exists [df], (Some (default (snd (shape df)) r)); destruct r.
      - exists [], (Some (default (snd (shape df)) r)).
        cbn. rewrite app_nil_r. by destruct r. }
    destruct Hstep as (one & r' & ->). cbn [outcome written fst snd].
    destruct (IH (ct ++ one, r')) as (added & r'' & Ho & Hw).
    exists (one ++ added), r''. cbn [fst] in Ho |- *.
    by rewrite Ho, Hw, map_app, app_assoc.
Qed.

Lemma walk_written_group (tables : list DataFrame) :
  written (walk lower ([], None) tables)
  = map (fun d => (DEBUG, TabelaDeCargosEncontrada d))
        (cargo_tables lower tables).
Proof.
  destruct (walk_written tables ([], None)) as (added & r & Ho & Hw).
  unfold cargo_tables. by rewrite Ho, Hw.
Qed.

Lemma cargo_tables_nil (tables : list DataFrame) :
  cargo_tables lower tables = []
  <-> Forall (fun d => candidate lower d = false) tables.
Proof.
  split.
  - intros Hnil.
    destruct (first_candidate lower tables)
      as [Hno | (pre & t & post & -> & Hpre & Ht)]; [done|].
    destruct (cargo_tables_first lower pre post t Hpre Ht) as [E _].
    by rewrite E in Hnil.
  - intros Hno. unfold cargo_tables. by rewrite walk_no_candidate.
Qed.

(** X1. [find_cargos_table] returns [None] exactly when no table of the
    document has a row, a column and a score of 2 or more; it then logs one
    warning and nothing else. *)
Theorem no_table_exactly_without_candidate (tables : list DataFrame) :
  (outcome (find_cargos_table lower pd_concat tables) = Ok None
   <-> Forall (fun d => candidate lower d = false) tables)
  /\ (Forall (fun d => candidate lower d = false) tables ->
      written (find_cargos_table lower pd_concat tables)
      = [(WARNING, NenhumaTabelaDeCargos)]).
Proof.
  split.
  - rewrite find_cargos_table_outcome, <- cargo_tables_nil.
    destruct (cargo_tables lower tables) as [|t [|t' l]]; [done..|].
    by destruct (pd_concat (t :: t' :: l)).
  - intros Hno. unfold find_cargos_table.
    rewrite written_bind, walk_returns, walk_written_group.
    apply cargo_tables_nil in Hno. by rewrite Hno.
Qed.

Lemma filter_all {A} (f : A -> bool) (l : list A) :
  Forall (fun x => f x = true) l -> List.filter f l = l.
Proof.
  induction 1 as [|x l Hx _ IH]; [done|]. cbn. by rewrite Hx, IH.
Qed.

Lemma filter_Forall {A} (f : A -> bool) (l : list A) :
  Forall (fun x => f x = true) (List.filter f l).
Proof.
  apply Forall_forall. intros x Hx%list_elem_of_In.
  by apply List.filter_In in Hx as [_ ?].
Qed.

Lemma filter_sublist {A} (f : A -> bool) (l : list A) :
  List.filter f l `sublist_of` l.
Proof.
  induction l as [|x l IH]; [done|]. cbn.
  destruct (f x); by constructor.
Qed.

(** X2. The tables [find_cargos_table] consolidates are taken from the
    input without reordering or repetition (a sublist of it), and the
    selection is stable: run on the tables it selected, the walk selects
    them all again. *)
Theorem selection_is_a_stable_sublist (tables : list DataFrame) :
  cargo_tables lower tables `sublist_of` tables
  /\ cargo_tables lower (cargo_tables lower tables)
     = cargo_tables lower tables.
Proof.
  destruct (first_candidate lower tables)
    as [Hno | (pre & t & post & -> & Hpre & Ht)].
  - apply cargo_tables_nil in Hno. rewrite Hno. split; [|done].
    apply sublist_nil_l.
  - destruct (cargo_tables_first lower pre post t Hpre Ht) as [E _].
    rewrite E. split.
    + apply sublist_inserts_l. constructor. apply filter_sublist.
    + destruct (cargo_tables_first lower [] (List.filter
                 (fun d => candidate lower d
                           && (signature d =? signature t)%nat) post) t)
        as [E' _]; [done..|].
      cbn [app] in E'. rewrite E'. f_equal. apply filter_all, filter_Forall.
Qed.

(** X3. The log of a consolidation: one DEBUG entry per selected table,
    in order, and an INFO entry with their number when there are two or
    more.  A single selected table is returned as it is; two or more go to
    [pd.concat].  When there is a frame to return, a final SUCCESS entry
    carries its shape.  When [pd.concat] raises, nothing catches the
    exception: it leaves [find_cargos_table], and the log stops after the
    INFO entry. *)
Theorem consolidation_log (tables : list DataFrame) (t : DataFrame)
    (others : list DataFrame) :
  cargo_tables lower tables = t :: others ->
  let consolidated := match others with
                      | [] => Ok t
                      | _ => pd_concat (t :: others)
                      end in
  outcome (find_cargos_table lower pd_concat tables)
  = match consolidated with
    | Ok df => Ok (Some df)
    | Raise e => Raise e
    end
  /\ written (find_cargos_table lower pd_concat tables)
     = map (fun d => (DEBUG, TabelaDeCargosEncontrada d)) (t :: others)
       ++ match others with
          | [] => []
          | _ => [(INFO, ConsolidandoTabelas (S (length others)))]
          end
       ++ match consolidated with
          | Ok df => [(SUCCESS, TabelaConsolidada (shape df))]
          | Raise _ => []
          end.
Proof.
  intros Hgroup consolidated. split.
  - rewrite find_cargos_table_outcome, Hgroup. by destruct others.
  - unfold find_cargos_table.
    rewrite written_bind, walk_returns, walk_written_group, Hgroup.
    cbn [fst]. subst consolidated. destruct others as [|t' l]; [done|].
    by destruct (pd_concat (t :: t' :: l)).
Qed.

End ConsolidationMore.

Lemma no_table_exactly_without_candidate_witness :
  written (find_cargos_table lower_latin1 concat_aligned
                             [anexos; so_cabecalho])
  = [(WARNING, NenhumaTabelaDeCargos)].
Proof.
  destruct (no_table_exactly_without_candidate lower_latin1 concat_aligned
              [anexos; so_cabecalho]) as [_ H].
  apply H. repeat constructor.
Defined.

Lemma consolidation_log_witness :
  concat_aligned [pagina1; pagina2]
  = Ok {| columns := columns pagina1;
          rows := rows pagina1 ++ rows pagina2 |}
  /\ outcome (find_cargos_table lower_latin1 concat_aligned
                                [anexos; pagina1; pagina3; pagina2])
     = Ok (Some {| columns := columns pagina1;
                   rows := rows pagina1 ++ rows pagina2 |})
  /\ length (written (find_cargos_table lower_latin1 concat_aligned
                        [anexos; pagina1; pagina3; pagina2])) = 4.
Proof.
  destruct (consolidation_log lower_latin1 concat_aligned
              [anexos; pagina1; pagina3; pagina2] pagina1 [pagina2])
    as [H1 H2].
  - vm_compute; reflexivity.
  - split; [vm_compute; reflexivity|].
    split; [by rewrite H1 | by rewrite H2].
Defined.

(** ** Stripping *)

Section Stripping.

Lemma lstrip_idemp (s : list N) : lstrip (lstrip s) = lstrip s.
Proof.
  induction s as [|c s IH]; [done|]. cbn [lstrip].
  destruct (isspace c) eqn:Hc; [done|]. cbn [lstrip]. by rewrite Hc.
Qed.

Lemma lstrip_app_nonspace (a : list N) (c : N) :
  isspace c = false -> lstrip (a ++ [c]) = lstrip a ++ [c].
Proof.
  intros Hc. induction a as [|x a IH]; cbn [app lstrip].
  - by rewrite Hc.
  - by destruct (isspace x).
Qed.

Lemma rstrip_cons_nonspace (c : N) (t : list N) :
  isspace c = false -> rstrip (c :: t) = c :: rstrip t.
Proof.
  intros Hc. unfold rstrip. cbn [rev].
  by rewrite lstrip_app_nonspace, rev_app_distr.
Qed.

Lemma rstrip_idemp (s : list N) : rstrip (rstrip s) = rstrip s.
Proof. unfold rstrip. by rewrite rev_involutive, lstrip_idemp. Qed.

Lemma lstrip_head (s : list N) :
  match lstrip s with
  | c :: _ => isspace c = false
  | [] => True
  end.
Proof.
  induction s as [|c s IH]; [done|]. cbn [lstrip].
  by destruct (isspace c) eqn:Hc.
Qed.

(** [strip] gives a text that begins and ends with no white space, and
    leaves such a text alone. *)
Lemma strip_idemp (s : list N) : strip (strip s) = strip s.
Proof.
  unfold strip. pose proof (lstrip_head s) as Hhead.
  destruct (lstrip s) as [|c t]; [done|].
  rewrite (rstrip_cons_nonspace c t Hhead). cbn [lstrip]. rewrite Hhead.
  by rewrite (rstrip_cons_nonspace c _ Hhead), rstrip_idemp.
Qed.

Lemma lstrip_no_space (s : list N) :
  Forall (fun c => isspace c = false) s -> lstrip s = s.
Proof. destruct 1 as [|c s Hc _]; [done|]. cbn. by rewrite Hc. Qed.

Lemma strip_no_space (s : list N) :
  Forall (fun c => isspace c = false) s -> strip s = s.
Proof.
  intros H. unfold strip, rstrip. rewrite (lstrip_no_space s H).
  rewrite lstrip_no_space, rev_involutive; [done|].
  by apply Forall_rev.
Qed.

Lemma isspace_printable (c : N) : (33 <= c <= 126)%N -> isspace c = false.
Proof.
  intros Hc. destruct (isspace c) eqn:H; [|done]. unfold isspace in H.
  repeat (apply orb_true_iff in H as [H|H]);
    repeat (apply andb_true_iff in H as [? ?]);
    repeat match goal with
           | H : (_ <=? _)%N = true |- _ => apply N.leb_le in H
           | H : (_ =? _)%N = true |- _ => apply N.eqb_eq in H
           end; lia.
Qed.

(** The text of an integer is a minus sign and decimal digits. *)
Lemma str_int_chars (z : Z) :
  Forall (fun c => (c = 45 \/ 48 <= c <= 57)%N) (str (VInt z)).
Proof.
  assert (Hd : forall d, Forall (fun c => (c = 45 \/ 48 <= c <= 57)%N)
                                (digits d)).
  { induction d; cbn [digits]; constructor; (done || (right; lia)). }
  cbn [str]. destruct (Z.to_int z); [done|]. constructor; [by left | done].
Qed.

Lemma normalize_not_placeholder (x : list N) : normalize x ∉ placeholders.
Proof.
  unfold normalize, placeholders.
  destruct (in_list x [u "nan"; u "None"; u "null"]) eqn:Hin.
  - apply (bool_decide_unpack (u "" ∉ [u "nan"; u "None"; u "null"])).
    by vm_compute.
  - intros H%in_list_spec. congruence.
Qed.

Lemma normalize_cases (x : list N) : normalize x = u "" \/ normalize x = x.
Proof. unfold normalize. destruct (in_list x _); [by left | by right]. Qed.

(** A text without the letter n is none of the placeholders. *)
Lemma normalize_without_n (x : list N) : 110%N ∉ x -> normalize x = x.
Proof.
  intros Hno. unfold normalize.
  destruct (in_list x [u "nan"; u "None"; u "null"]) eqn:Hin; [|done].
  apply in_list_spec in Hin. destruct Hno.
  repeat (apply elem_of_cons in Hin as [->|Hin]; [vm_compute; set_solver|]).
  by apply elem_of_nil in Hin.
Qed.

Lemma str_int_normalized (z : Z) :
  normalize (strip (str (VInt z))) = str (VInt z).
Proof.
  pose proof (str_int_chars z) as Hc.
  rewrite strip_no_space.
  - apply normalize_without_n. intros Hin.
    rewrite Forall_forall in Hc. destruct (Hc _ Hin); lia.
  - eapply Forall_impl; [exact Hc|]. intros c [->|?]; [done|].
    apply isspace_printable. lia.
Qed.

End Stripping.

(** ** [parse_cargos]: the mapping, the records and the log *)

Section ExtractionMore.

Variable lower : list N -> list N.

Lemma positional_lookup (l : list (string * nat)) (key : string) (i : nat) :
  (list_to_map l : gmap string nat) !! key = Some i -> (key, i) ∈ l.
Proof. apply elem_of_list_to_map_2. Qed.

(** X4. In every layout the mapping sends each field to a column of the
    frame and no two fields to the same column; with 5 columns or more all
    five fields are mapped. *)
Theorem mapping_is_injective_and_in_range (df : DataFrame) :
  (forall key i, col_mapping lower df !! key = Some i ->
                 i < length (columns df))
  /\ (forall key1 key2 i,
         col_mapping lower df !! key1 = Some i ->
         col_mapping lower df !! key2 = Some i -> key1 = key2)
  /\ (5 <= length (columns df) ->
      forall key, key ∈ fields -> is_Some (col_mapping lower df !! key)).
Proof.
  split; [by apply col_mapping_in_range|]. unfold col_mapping.
  destruct (Nat.leb_spec 8 (length (columns df))) as [H8|H8].
  { split.
    - intros key1 key2 i H1%positional_lookup H2%positional_lookup.
      repeat (apply elem_of_cons in H1 as [[= -> ->]|H1];
              [repeat (apply elem_of_cons in H2 as [[= ->]|H2]; try done);
               by apply elem_of_nil in H2|]).
      by apply elem_of_nil in H1.
    - intros _ key Hkey. unfold fields in Hkey.
      repeat (apply elem_of_cons in Hkey as [->|Hkey]; [by eexists|]).
      by apply elem_of_nil in Hkey. }
  destruct (Nat.leb_spec 5 (length (columns df))) as [H5|H5].
  { split.
    - intros key1 key2 i H1%positional_lookup H2%positional_lookup.
      repeat (apply elem_of_cons in H1 as [[= -> ->]|H1];
              [repeat (apply elem_of_cons in H2 as [[= ->]|H2]; try done);
               by apply elem_of_nil in H2|]).
      by apply elem_of_nil in H1.
    - intros _ key Hkey. unfold fields in Hkey.
      repeat (apply elem_of_cons in Hkey as [->|Hkey]; [by eexists|]).
      by apply elem_of_nil in Hkey. }
  split; [|lia].
  intros key1 key2 i [(c1 & Hc1 & Ha1) _]%by_name_lookup
                     [(c2 & Hc2 & Ha2) _]%by_name_lookup.
  congruence.
Qed.

Lemma omap_all_none {A B} (f : A -> option B) (l : list A) :
  (forall x, f x = None) -> omap f l = [].
Proof.
  intros H. induction l as [|x l IH]; [done|].
  change (omap f (x :: l))
    with (match f x with Some y => y :: omap f l | None => omap f l end).
  by rewrite H.
Qed.

(** X5. When the mapping has no role column or no salary column (a narrow
    table none of whose headers names one), [parse_cargos] returns no
    record, whatever the rows hold. *)
Theorem unmapped_role_or_salary_gives_nothing
    (df : DataFrame) (cidade : list N) :
  empty df = false ->
  first_cell_readable df ->
  col_mapping lower df !! "cargo" = None
  \/ col_mapping lower df !! "salario" = None ->
  outcome (parse_cargos lower (Some df) cidade) = Ok [].
Proof.
  intros He Hfirst Hmiss.
  destruct (parse_cargos_result lower df cidade He Hfirst) as [-> _].
  f_equal. apply omap_all_none. intros row. apply (not_included_none lower).
  unfold normalized, included.
  destruct Hmiss as [H | H]; rewrite H.
  - by intros (? & _).
  - by intros (_ & _ & ? & _).
Qed.

End ExtractionMore.

Lemma mapping_is_injective_and_in_range_witness :
  5 <= length (columns quadro)
  /\ Forall (fun key => is_Some (col_mapping lower_latin1 quadro !! key))
            fields.
Proof.
  destruct (mapping_is_injective_and_in_range lower_latin1 quadro)
    as (_ & _ & H).
  assert (Hcols : 5 <= length (columns quadro)) by (vm_compute; lia).
  split; [exact Hcols|]. apply Forall_forall. exact (H Hcols).
Defined.

Lemma unmapped_role_or_salary_gives_nothing_witness :
  outcome (parse_cargos lower_latin1 (Some sem_coluna_salario)
                        (u "Sossêgo/PB")) = Ok [].
Proof.
  apply (unmapped_role_or_salary_gives_nothing lower_latin1).
  - reflexivity.
  - eexists. reflexivity.
  - right. vm_compute. reflexivity.
Defined.

Section RecordsMore.

Variable lower : list N -> list N.

Lemma fields_not_cidade (key : string) : key ∈ fields -> key <> "cidade".
Proof.
  unfold fields. intros Hin.
  repeat (apply elem_of_cons in Hin as [->|Hin]; [done|]).
  by apply elem_of_nil in Hin.
Qed.

Lemma new_cargo_info_lookup (cidade : list N) (key : string) :
  new_cargo_info cidade !! key
  = if decide (key = "cidade") then Some cidade
    else if decide (key ∈ fields) then Some (u "") else None.
Proof.
  unfold new_cargo_info. cbn [list_to_map foldr uncurry fst snd].
  destruct (decide (key = "cidade")) as [->|Hne]; [by rewrite lookup_insert_eq|].
  rewrite lookup_insert_ne by done.
  destruct (decide (key ∈ fields)) as [Hin|Hout].
  - unfold fields in Hin.
    repeat (apply elem_of_cons in Hin as [->|Hin]; [reflexivity|]).
    by apply elem_of_nil in Hin.
  - rewrite !lookup_insert_ne, lookup_empty;
      [done | intros <-; apply Hout; unfold fields; repeat constructor ..].
Qed.

(** The dict the reads of a row leave: the six keys, the mapped fields
    holding the stripped text of their cell. *)
Lemma fill_all_dict (m : gmap string nat) (row : list value)
    (cidade : list N) (c : gmap string (list N)) :
  outcome (fill_all m row (new_cargo_info cidade)) = Ok c ->
  forall key,
    c !! key
    = if decide (key = "cidade") then Some cidade
      else if decide (key ∈ fields) then
             match m !! key with
             | Some i => (fun v => strip (str v)) <$> row !! i
             | None => Some (u "")
             end
           else None.
Proof.
  intros Hc key. pose proof (fill_all_ok_readable m row cidade c Hc) as Hread.
  destruct (fill_keys_ok m row fields (new_cargo_info cidade) Hread)
    as (c' & Hc' & Hlook).
  rewrite fill_all_fill_keys in Hc. assert (c' = c) as -> by congruence.
  rewrite Hlook, new_cargo_info_lookup.
  destruct (decide (key = "cidade")) as [->|Hne].
  - destruct (m !! "cidade"); [|done].
    rewrite decide_False; [done|]. by intros ?%fields_not_cidade.
  - destruct (decide (key ∈ fields)); by destruct (m !! key).
Qed.

(** X6. Every record [parse_cargos] returns has the six keys cidade,
    cargo, requisito, salario, carga_horaria, vagas and no other; its role
    is longer than 3 characters, its salary is neither empty nor a hyphen;
    none of its values is one of the texts nan, None, null; the values of
    the five table fields begin and end with no white space; and its city
    is the caller's, blanked if that is one of the three texts. *)
Theorem records_are_clean (df : DataFrame) (cidade : list N) :
  empty df = false ->
  first_cell_readable df ->
  exists records,
    outcome (parse_cargos lower (Some df) cidade) = Ok records
    /\ forall record, record ∈ records ->
         (forall key, is_Some (record !! key) <-> key ∈ "cidade" :: fields)
         /\ 3 < length (record !!! "cargo" : list N)
         /\ record !!! "salario" <> u ""
         /\ record !!! "salario" <> u "-"
         /\ (forall key v, record !! key = Some v -> v ∉ placeholders)
         /\ (forall key v, key ∈ fields -> record !! key = Some v ->
                           strip v = v)
         /\ record !! "cidade" = Some (normalize cidade).
Proof.
  intros He Hfirst.
  destruct (parse_cargos_result lower df cidade He Hfirst) as [Hout _].
  eexists. split; [exact Hout|].
  intros record (row & _ & Hrow)%list_elem_of_omap.
  unfold emitted in Hrow.
  destruct (outcome (fill_all (col_mapping lower df) row
                              (new_cargo_info cidade))) as [c|e] eqn:Hc;
    [|done].
  destruct (keep (clean c)) eqn:Hkeep; [|done]. injection Hrow as <-.
  pose proof (fill_all_dict _ _ _ _ Hc) as Hdict.
  pose proof (fill_all_ok_readable _ _ _ _ Hc) as Hread.
  apply keep_included in Hkeep as (_ & Hlen & Hsal & Hnot).
  split; [|split; [done|split; [done|split; [|split; [|split]]]]].
  - intros key. rewrite clean_lookup, Hdict, fmap_is_Some.
    destruct (decide (key = "cidade")) as [->|Hne].
    { split; [by left | by eexists]. }
    destruct (decide (key ∈ fields)) as [Hin|Hout'].
    + split; [by right|]. intros _.
      destruct (col_mapping lower df !! key) as [i|] eqn:Hkey; [|by eexists].
      destruct (Hread key i Hin Hkey) as [v ->]. by eexists.
    + split; [by intros [? ?]|]. by intros [?|?]%elem_of_cons.
  - intros Heq. apply Hnot. rewrite Heq.
    do 2 apply list_elem_of_further. apply list_elem_of_here.
  - intros key v. rewrite clean_lookup.
    destruct (c !! key) as [x|]; [|done]. intros [= <-].
    apply normalize_not_placeholder.
  - intros key v Hin. rewrite clean_lookup, Hdict.
    rewrite decide_False, decide_True by (done || by apply fields_not_cidade).
    assert (Hs : forall y, strip (normalize (strip y)) = normalize (strip y)).
    { intros y. destruct (normalize_cases (strip y)) as [->| ->]; [done|].
      apply strip_idemp. }
    destruct (col_mapping lower df !! key) as [i|].
    + destruct (row !! i) as [x|]; [|done]. intros [= <-]. apply Hs.
    + by intros [= <-].
  - by rewrite clean_lookup, Hdict.
Qed.

End RecordsMore.

Lemma records_are_clean_witness :
  exists records,
    outcome (parse_cargos lower_latin1 (Some quadro) (u "None")) = Ok records
    /\ forall record, record ∈ records ->
         record !! "cidade" = Some (u "")
         /\ 3 < length (record !!! "cargo" : list N).
Proof.
  destruct (records_are_clean lower_latin1 quadro (u "None"))
    as (records & Hout & Hall).
  - reflexivity.
  - exact quadro_first_cell.
  - exists records. split; [exact Hout|]. intros record Hin.
    destruct (Hall record Hin) as (_ & Hlen & _ & _ & _ & _ & Hcity).
    split; [exact Hcity | exact Hlen].
Defined.

Section LogMore.

Variable lower : list N -> list N.

Lemma row_step_counts (m : gmap string nat) (cidade : list N)
    (cargos : list (gmap string (list N))) (idx : nat) (row : list value) :
  length (List.filter is_warning (written (row_step m cidade cargos idx row)))
  = (if raises m cidade row then 1 else 0)
  /\ length (List.filter is_cargo_adicionado
               (written (row_step m cidade cargos idx row)))
     = length (option_list (emitted m cidade row)).
Proof.
  rewrite row_step_written. unfold raises, emitted.
  destruct (outcome (fill_all m row (new_cargo_info cidade))) as [c|e];
    [|done].
  by destruct (keep (clean c)).
Qed.

Lemma iterrows_counts (m : gmap string nat) (cidade : list N)
    (rws : list (list value)) :
  forall cargos idx,
    length (List.filter is_warning
              (written (iterrows m cidade cargos idx rws)))
    = length (List.filter (raises m cidade) rws)
    /\ length (List.filter is_cargo_adicionado
                 (written (iterrows m cidade cargos idx rws)))
       = length (omap (emitted m cidade) rws).
Proof.
  induction rws as [|row rws IH]; intros cargos idx; cbn [iterrows].
  - done.
  - rewrite written_bind, row_step_outcome, !List.filter_app, !length_app.
    destruct (row_step_counts m cidade cargos idx row) as [-> ->].
    destruct (IH (match emitted m cidade row with
                  | Some record => cargos ++ [record]
                  | None => cargos
                  end) (S idx)) as [-> ->].
    change (omap (emitted m cidade) (row :: rws))
      with (match emitted m cidade row with
            | Some record => record :: omap (emitted m cidade) rws
            | None => omap (emitted m cidade) rws
            end).
    cbn [List.filter]. split.
    + by destruct (raises m cidade row).
    + by destruct (emitted m cidade row).
Qed.

Lemma parse_cargos_written (df : DataFrame) (cidade : list N) :
  empty df = false ->
  first_cell_readable df ->
  let m := col_mapping lower df in
  written (parse_cargos lower (Some df) cidade)
  = [(DEBUG, DataFrameShape (shape df)); (DEBUG, Colunas (columns df));
     (DEBUG, MapeamentoDeColunas m)]
    ++ written (iterrows m cidade [] 0 (rows df))
    ++ [(INFO, ExtraidosCargos
                 (length (omap (emitted m cidade) (rows df))))].
Proof.
  intros He Hfirst m. unfold parse_cargos. rewrite He.
  destruct (probe_returns df Hfirst) as [b ->]. fold m.
  pose proof (iterrows_outcome m cidade (rows df) [] 0) as Ho.
  destruct (iterrows m cidade [] 0 (rows df)) as [r l].
  cbn in Ho. by subst r.
Qed.

(** X7. The log of [parse_cargos] agrees with its result: it ends with an
    INFO entry carrying the number of records returned, it has one entry
    for an added role per record returned, and one warning per row whose
    reads raised. *)
Theorem log_agrees_with_result (df : DataFrame) (cidade : list N) :
  empty df = false ->
  first_cell_readable df ->
  exists records,
    outcome (parse_cargos lower (Some df) cidade) = Ok records
    /\ last (written (parse_cargos lower (Some df) cidade))
       = Some (INFO, ExtraidosCargos (length records))
    /\ length (List.filter is_cargo_adicionado
                 (written (parse_cargos lower (Some df) cidade)))
       = length records
    /\ length (List.filter is_warning
                 (written (parse_cargos lower (Some df) cidade)))
       = length (List.filter (raises (col_mapping lower df) cidade)
                             (rows df)).
Proof.
  intros He Hfirst.
  destruct (parse_cargos_result lower df cidade He Hfirst) as [Hout _].
  eexists. split; [exact Hout|].
  rewrite (parse_cargos_written df cidade He Hfirst).
  destruct (iterrows_counts (col_mapping lower df) cidade (rows df) [] 0)
    as [Hw Hd].
  split; [|split].
  - by rewrite !app_assoc, last_snoc.
  - rewrite !List.filter_app, !length_app, Hd. cbn. lia.
  - rewrite !List.filter_app, !length_app, Hw. cbn. lia.
Qed.

(** X8. The page column counts as a column.  In a frame of exactly 8
    columns, or of exactly 5, the positional mapping takes the last column
    for the salary; when that column holds an integer in every row, as the
    column [_pagina] does, every record [parse_cargos] returns has the text
    of the integer of its row as its salary. *)
Theorem page_number_taken_for_salary (df : DataFrame) (cidade : list N) :
  length (columns df) = 8 \/ length (columns df) = 5 ->
  rows df <> [] ->
  let last := length (columns df) - 1 in
  Forall (fun row => exists page_num, row !! last = Some (VInt page_num))
         (rows df) ->
  col_mapping lower df !! "salario" = Some last
  /\ exists records,
       outcome (parse_cargos lower (Some df) cidade) = Ok records
       /\ forall record, record ∈ records ->
            exists row page_num,
              row ∈ rows df /\ row !! last = Some (VInt page_num)
              /\ record !! "salario" = Some (str (VInt page_num)).
Proof.
  intros Hwidth Hrows last Hpage.
  assert (Hmap : col_mapping lower df !! "salario" = Some last).
  { unfold col_mapping. subst last. by destruct Hwidth as [-> | ->]. }
  assert (He : empty df = false).
  { unfold empty, shape. destruct (rows df); [done|].
    by destruct Hwidth as [-> | ->]. }
  assert (Hfirst : first_cell_readable df).
  { unfold first_cell_readable, iloc2, iloc.
    destruct (rows df) as [|r rws]; [done|].
    apply Forall_cons in Hpage as [[page_num Hr] _].
    destruct r as [|v r]; [done|]. by exists v. }
  split; [done|].
  destruct (parse_cargos_result lower df cidade He Hfirst) as [Hout _].
  eexists. split; [exact Hout|].
  intros record (row & Hrow & Hem)%list_elem_of_omap.
  rewrite Forall_forall in Hpage. destruct (Hpage row Hrow) as [page_num Hr].
  exists row, page_num. split; [done|]. split; [done|].
  rewrite (emitted_fields (col_mapping lower df) cidade row record "salario"
             Hem) by (unfold fields; repeat constructor).
  f_equal. unfold normalized. rewrite Hmap, Hr.
  apply str_int_normalized.
Qed.

End LogMore.

Lemma log_agrees_with_result_witness :
  exists records,
    outcome (parse_cargos lower_latin1 (Some quadro) (u "Sossêgo/PB"))
    = Ok records
    /\ length records = 1
    /\ length (List.filter is_warning
                 (written (parse_cargos lower_latin1 (Some quadro)
                                        (u "Sossêgo/PB")))) = 0.
Proof.
  destruct (log_agrees_with_result lower_latin1 quadro (u "Sossêgo/PB"))
    as (records & Hout & _ & Hn & Hw).
  - reflexivity.
  - exact quadro_first_cell.
  - exists records. split; [exact Hout|]. split.
    + rewrite <- Hn. vm_compute. reflexivity.
    + rewrite Hw. vm_compute. reflexivity.
Defined.

Lemma page_number_taken_for_salary_witness :
  exists records,
    outcome (parse_cargos lower_latin1
               (Some (tabela header7 [motorista7; vigia7] 1))
               (u "Sossêgo/PB")) = Ok records
    /\ forall record, record ∈ records -> record !! "salario" = Some (u "1").
Proof.
  destruct (page_number_taken_for_salary lower_latin1
              (tabela header7 [motorista7; vigia7] 1) (u "Sossêgo/PB"))
    as (_ & records & Hout & Hall).
  - left. reflexivity.
  - discriminate.
  - repeat constructor; by exists 1%Z.
  - exists records. split; [exact Hout|]. intros record Hin.
    destruct (Hall record Hin) as (row & page_num & Hrow & Hr & ->).
    cbn [rows tabela map] in Hrow.
    repeat (apply elem_of_cons in Hrow as [->|Hrow];
            [by injection Hr as <-|]).
    by apply elem_of_nil in Hrow.
Defined.

(** ** [parse_cargos]: a row with missing cells *)

Section MissingCells.

Variable lower : list N -> list N.




End MissingCells.



(** ** [utils.clean_text] *)

Section CleanText.

Lemma split_from_words (s : list N) :
  forall word, no_space word -> Forall is_word (split_from word s).
Proof.
  induction s as [|c s IH]; intros word Hword; cbn [split_from].
  - destruct word as [|x word]; [constructor|].
    constructor; [by split | constructor].
  - destruct (isspace c) eqn:Hc.
    + destruct word as [|x word]; [by apply IH|].
      constructor; [by split | apply IH; constructor].
    + apply IH. apply Forall_app. split; [done|]. by constructor.
Qed.

Lemma split_from_concat (s : list N) :
  forall word,
    concat (split_from word s) = word ++ List.filter not_space s.
Proof.
  induction s as [|c s IH]; intros word; cbn [split_from List.filter].
  - destruct word; cbn; by rewrite ?app_nil_r.
  - unfold not_space at 1. destruct (isspace c); cbn [negb].
    + destruct word as [|x word]; [apply IH|].
      cbn [concat]. by rewrite IH.
    + by rewrite IH, <- app_assoc.
Qed.

Lemma split_from_app_word (w rest : list N) :
  forall word,
    no_space w -> split_from word (w ++ rest) = split_from (word ++ w) rest.
Proof.
  induction w as [|c w IH]; intros word Hw; cbn [app split_from].
  - by rewrite app_nil_r.
  - apply Forall_cons in Hw as [Hc Hw]. rewrite Hc, IH by done.
    by rewrite <- app_assoc.
Qed.

(** Splitting what was joined by single blanks gives the words back. *)
Lemma split_ws_join (ws : list (list N)) :
  Forall is_word ws -> split_ws (join (u " ") ws) = ws.
Proof.
  unfold split_ws. induction 1 as [|w ws [Hne Hw] Hws IH]; [done|].
  cbn [join]. destruct ws as [|w2 ws].
  - rewrite <- (app_nil_r w) at 1. rewrite split_from_app_word by done.
    cbn. by destruct w.
  - change (u " ") with [32%N] in *.
    rewrite split_from_app_word by done. cbn [app split_from].
    change (isspace 32) with true. cbv iota.
    rewrite IH. by destruct w.
Qed.

Lemma join_words_filter (ws : list (list N)) :
  Forall is_word ws ->
  List.filter not_space (join (u " ") ws) = concat ws.
Proof.
  assert (Hw : forall w, no_space w -> List.filter not_space w = w).
  { intros w Hw. apply filter_all. eapply Forall_impl; [exact Hw|].
    intros c Hc. unfold not_space. by rewrite Hc. }
  induction 1 as [|w ws [Hne Hns] Hws IH]; [done|].
  cbn [join concat]. destruct ws as [|w2 ws].
  - cbn. by rewrite app_nil_r, Hw.
  - rewrite !List.filter_app, Hw, IH by done. done.
Qed.

Lemma join_words_chars (ws : list (list N)) (c : N) :
  Forall is_word ws -> c ∈ join (u " ") ws -> c = 32%N \/ isspace c = false.
Proof.
  induction 1 as [|w ws [Hne Hns] Hws IH]; cbn [join].
  - by intros ?%elem_of_nil.
  - assert (Hw : c ∈ w -> isspace c = false).
    { intros Hin. unfold no_space in Hns. rewrite Forall_forall in Hns. auto. }
    destruct ws as [|w2 ws]; [auto|].
    intros [Hin|[Hin|Hin]%elem_of_app]%elem_of_app; [auto| |auto].
    left. by apply list_elem_of_singleton in Hin.
Qed.

Lemma replace_go_absent (c : N) (new s : list N) :
  c ∉ s -> replace_go [c] new 0 s = s.
Proof.
  induction s as [|x s IH]; [done|]. intros Hc. cbn [replace_go startswith].
  destruct (N.eqb_spec c x) as [->|Hne]; [destruct Hc; by left|].
  cbn. rewrite IH; [done|]. intros Hin. apply Hc. by right.
Qed.

Lemma rstrip_app_fixed (a b : list N) :
  b <> [] -> rstrip b = b -> rstrip (a ++ b) = a ++ b.
Proof.
  unfold rstrip. intros Hne Hb. rewrite rev_app_distr.
  assert (Hrev : lstrip (rev b) = rev b).
  { rewrite <- Hb at 2. by rewrite rev_involutive. }
  pose proof (lstrip_head (rev b)) as Hhead. rewrite Hrev in Hhead.
  destruct (rev b) as [|x l] eqn:E.
  - destruct Hne. by rewrite <- (rev_involutive b), E.
  - cbn [app lstrip]. rewrite Hhead.
    change (x :: l ++ rev a) with ((x :: l) ++ rev a).
    by rewrite <- E, <- rev_app_distr, rev_involutive.
Qed.

Lemma join_words_nonempty (w : list N) (ws : list (list N)) :
  w <> [] -> join (u " ") (w :: ws) <> [].
Proof. intros Hne. cbn [join]. destruct ws; by destruct w. Qed.

Lemma strip_join_words (ws : list (list N)) :
  Forall is_word ws -> strip (join (u " ") ws) = join (u " ") ws.
Proof.
  intros Hws. unfold strip.
  assert (Hl : lstrip (join (u " ") ws) = join (u " ") ws).
  { destruct Hws as [|w ws [Hne Hns] _]; [done|].
    destruct w as [|c w]; [done|]. apply Forall_cons in Hns as [Hc _].
    cbn [join]. destruct ws; cbn; by rewrite Hc. }
  rewrite Hl. clear Hl.
  induction Hws as [|w ws [Hne Hns] Hws IH]; [done|].
  cbn [join]. destruct ws as [|w2 ws].
  - fold (strip w) || idtac.
    unfold rstrip. rewrite lstrip_no_space, rev_involutive; [done|].
    by apply Forall_rev.
  - rewrite app_assoc. apply rstrip_app_fixed; [|done].
    apply Forall_cons in Hws as [[Hne2 _] _].
    by apply join_words_nonempty.
Qed.

Lemma split_ws_words (text : list N) : Forall is_word (split_ws text).
Proof. apply split_from_words. constructor. Qed.

(** After the join, the two replacements and the strip of [clean_text] find
    nothing to do. *)
Lemma clean_text_words (text : list N) :
  clean_text text = join (u " ") (split_ws text).
Proof.
  unfold clean_text.
  destruct (eqb text (u "")) eqn:Ht; [by apply eqb_spec in Ht as ->|].
  pose proof (split_ws_words text) as Hw.
  unfold str_replace.
  rewrite (replace_go_absent 10).
  - rewrite (replace_go_absent 13); [by apply strip_join_words|].
    intros [?|?]%(join_words_chars _ _ Hw); done.
  - intros [?|?]%(join_words_chars _ _ Hw); done.
Qed.

(** X9. [clean_text] returns the words of the text (its maximal runs of
    characters that are not white space) joined by single blanks: the two
    replacements and the final strip find nothing left to do.  The result
    keeps every character that is not white space, in order, begins and
    ends with none, and cleaning it again changes nothing. *)
Theorem clean_text_normal_form (text : list N) :
  clean_text text = join (u " ") (split_ws text)
  /\ Forall is_word (split_ws text)
  /\ List.filter not_space (clean_text text) = List.filter not_space text
  /\ strip (clean_text text) = clean_text text
  /\ clean_text (clean_text text) = clean_text text.
Proof.
  pose proof (split_ws_words text) as Hwords.
  rewrite !clean_text_words. split; [done|]. split; [done|]. split; [|split].
  - rewrite join_words_filter by done. unfold split_ws.
    by rewrite split_from_concat.
  - by apply strip_join_words.
  - by rewrite split_ws_join.
Qed.

End CleanText.

(** ** [utils.clean_salary] *)

Section CleanSalary.

Variable lower : list N -> list N.

(** What [strip] removes is white space at the two ends. *)
Lemma lstrip_decompose (s : list N) :
  exists sp, s = sp ++ lstrip s /\ Forall (fun c => isspace c = true) sp.
Proof.
  induction s as [|c s (sp & E & Hsp)]; [by exists []|]. cbn [lstrip].
  destruct (isspace c) eqn:Hc; [|by exists []].
  exists (c :: sp). split; [cbn; by rewrite <- E | by constructor].
Qed.

Lemma strip_decompose (s : list N) :
  exists a b,
    s = a ++ strip s ++ b
    /\ Forall (fun c => isspace c = true) a
    /\ Forall (fun c => isspace c = true) b.
Proof.
  destruct (lstrip_decompose s) as (a & Ea & Ha).
  destruct (lstrip_decompose (rev (lstrip s))) as (b & Eb & Hb).
  exists a, (rev b). split; [|split; [done | by apply Forall_rev]].
  unfold strip, rstrip. rewrite Ea at 1. f_equal.
  rewrite <- (rev_involutive (lstrip s)), Eb at 1.
  by rewrite rev_app_distr.
Qed.

Lemma sub_del_go_sublist (p : list Re.item) (s : list N) :
  forall skip, Re.sub_del_go p skip s `sublist_of` s.
Proof.
  induction s as [|c s IH]; intros skip; cbn [Re.sub_del_go]; [done|].
  destruct skip; [|by constructor].
  destruct (Re.match_here p (c :: s)) as [pieces|]; [|by constructor].
  destruct (length (concat pieces)); by constructor.
Qed.

Lemma sub_del_go_skip (p : list Re.item) (a b : list N) :
  Re.sub_del_go p (length a) (a ++ b) = Re.sub_del_go p 0 b.
Proof. induction a as [|x a IH]; [done|]. apply IH. Qed.

(** The currency pattern matches only at the letters R and dollar, and
    then takes them with all the white space that follows. *)
Lemma match_rs_none (s : list N) :
  startswith (u "R$") s = false -> Re.match_here pattern_rs s = None.
Proof.
  change (u "R$") with [82%N; 36%N]. unfold pattern_rs, Re.literal.
  destruct s as [|x [|y s]]; cbn [Re.match_here startswith]; [done| |].
  - by destruct (x =? 82)%N.
  - rewrite (N.eqb_sym 82 x), (N.eqb_sym 36 y).
    destruct (x =? 82)%N; [|done]. by destruct (y =? 36)%N.
Qed.

Lemma match_rs_prefix (sp body : list N) :
  Forall (fun c => isspace c = true) sp ->
  match body with x :: _ => isspace x = false | [] => True end ->
  Re.match_here pattern_rs (u "R$" ++ sp ++ body)
  = Some [[82%N]; [36%N]; sp].
Proof.
  intros Hsp Hbody. change (u "R$") with [82%N; 36%N].
  unfold pattern_rs. cbn [app Re.match_here]. unfold Re.literal.
  rewrite !N.eqb_refl.
  by rewrite (greedy_run isspace _ sp body []).
Qed.

Lemma sub_del_without_match (s : list N) :
  contains (u "R$") s = false -> Re.sub_del pattern_rs s = s.
Proof.
  unfold Re.sub_del. induction s as [|c s IH]; [done|].
  cbn [contains]. intros [Hhere Hrest]%orb_false_iff.
  cbn [Re.sub_del_go]. rewrite (match_rs_none _ Hhere). by rewrite IH.
Qed.

(** X10. [clean_salary] gives the empty text for the empty text and for
    nan and none in any case; otherwise it never adds or reorders
    characters (its result is a subsequence of the text); a text with no
    R-dollar in it is only stripped; and a text that, stripped, is R-dollar,
    white space and an amount with no further R-dollar gives the amount. *)
Theorem clean_salary_removes_currency (text : list N) :
  (text = u "" \/ lower text ∈ [u "nan"; u "none"; u ""] ->
   clean_salary lower text = u "")
  /\ clean_salary lower text `sublist_of` text
  /\ (text <> u "" -> lower text ∉ [u "nan"; u "none"; u ""] ->
      (contains (u "R$") (strip text) = false ->
       clean_salary lower text = strip text)
      /\ (forall sp amount,
             strip text = u "R$" ++ sp ++ amount ->
             Forall (fun c => isspace c = true) sp ->
             match amount with x :: _ => isspace x = false | [] => True end ->
             contains (u "R$") amount = false ->
             clean_salary lower text = amount)).
Proof.
  unfold clean_salary. split; [|split].
  - intros [->|Hin]; [done|]. apply in_list_spec in Hin. rewrite Hin.
    by rewrite orb_true_r.
  - destruct (eqb text (u "") || in_list (lower text) _);
      [apply sublist_nil_l|].
    transitivity (strip text); [apply sub_del_go_sublist|].
    destruct (strip_decompose text) as (a & b & E & _). rewrite E at 2.
    apply sublist_inserts_l, sublist_inserts_r. done.
  - intros Hne Hnot.
    assert (eqb text (u "") = false) as ->.
    { apply not_true_iff_false. by rewrite eqb_spec. }
    assert (in_list (lower text) [u "nan"; u "none"; u ""] = false) as ->.
    { apply not_true_iff_false. by rewrite in_list_spec. }
    cbn [orb]. split; [apply sub_del_without_match|].
    intros sp amount -> Hsp Hamount Hclean. unfold Re.sub_del.
    change (u "R$") with [82%N; 36%N]. cbn [app Re.sub_del_go].
    change (82%N :: 36%N :: sp ++ amount) with (u "R$" ++ sp ++ amount).
    rewrite (match_rs_prefix sp amount Hsp Hamount).
    cbn [concat app length].
    change (36%N :: sp ++ amount) with ((36%N :: sp) ++ amount).
    rewrite app_nil_r.
    change (S (length sp)) with (length (36%N :: sp)).
    rewrite sub_del_go_skip. by apply sub_del_without_match.
Qed.

End CleanSalary.

Lemma clean_salary_removes_currency_witness :
  clean_salary lower_latin1 (u "  R$   3.036,00 ") = u "3.036,00"
  /\ clean_salary lower_latin1 (u " 1.518,00 ") = u "1.518,00"
  /\ clean_salary lower_latin1 (u "NaN") = u "".
Proof.
  destruct (clean_salary_removes_currency lower_latin1 (u "  R$   3.036,00 "))
    as (_ & _ & H1).
  destruct (clean_salary_removes_currency lower_latin1 (u " 1.518,00 "))
    as (_ & _ & H2).
  destruct (clean_salary_removes_currency lower_latin1 (u "NaN"))
    as (H3 & _).
  split; [|split].
  - destruct H1 as [_ H1]; [discriminate | |].
    { apply (bool_decide_unpack _). by vm_compute. }
    apply (H1 (u "   ")); [reflexivity | by repeat constructor | done | done].
  - destruct H2 as [H2 _]; [discriminate | |].
    { apply (bool_decide_unpack _). by vm_compute. }
    rewrite H2; reflexivity.
  - apply H3. right. apply (bool_decide_unpack _). by vm_compute.
Defined.

(** ** [utils.format_carga_horaria] *)

Section CargaHoraria.

Variable lower : list N -> list N.
Variable digit_val : N -> option N.

Hypothesis h_is_no_digit : digit_val 104%N = None.
Hypothesis space_is_no_digit :
  forall c, isspace c = true -> digit_val c = None.

(** X11. [format_carga_horaria] returns the empty text, or the stripped
    text, or a run of digits of the lowercase text followed by the letter
    h.  A text whose lowercase form begins with digits, optional white
    space and h gives those digits and h; a text whose lowercase form has
    no h, or no digit, is only stripped. *)
Theorem format_carga_horaria_forms (chs : list N) :
  (format_carga_horaria lower digit_val chs = u ""
   \/ format_carga_horaria lower digit_val chs = strip chs
   \/ exists before ds after,
        ds <> [] /\ Forall (fun d => is_Some (digit_val d)) ds
        /\ lower chs = before ++ ds ++ after
        /\ format_carga_horaria lower digit_val chs = ds ++ u "h")
  /\ (forall ds sp rest,
         chs <> u "" ->
         ds <> [] -> Forall (fun d => is_Some (digit_val d)) ds ->
         Forall (fun c => isspace c = true) sp ->
         lower chs = ds ++ sp ++ u "h" ++ rest ->
         format_carga_horaria lower digit_val chs = ds ++ u "h")
  /\ (104%N ∉ lower chs \/ Forall (fun x => digit_val x = None) (lower chs) ->
      format_carga_horaria lower digit_val chs = strip chs).
Proof.
  unfold format_carga_horaria. split; [|split].
  - destruct (eqb chs (u "")); [by left|].
    destruct (Re.search _ (lower chs)) as [pieces|] eqn:Hs; [|by right; left].
    right; right.
    destruct (search_sound _ _ _ Hs) as (Hall & before & rest & E).
    unfold pattern_h in Hall.
    apply Forall2_cons_inv_l in Hall as (ds & ps & [Hds Hne] & _ & ->).
    cbn in Hne, Hds. exists before, ds, (concat ps ++ rest).
    split; [done|]. split.
    { eapply Forall_impl; [exact Hds|]. intros d. by rewrite isdigit_true. }
    split; [|done]. rewrite E. cbn [concat]. by rewrite <- !app_assoc.
  - intros ds sp rest Hchs Hne Hds Hsp E.
    assert (eqb chs (u "") = false) as ->.
    { apply not_true_iff_false. by rewrite eqb_spec. }
    rewrite E. destruct ds as [|d ds]; [done|].
    apply Forall_cons in Hds as [Hd Hds].
    rewrite (search_here _ _ [d :: ds; sp; [104%N]]); [done|].
    unfold pattern_h. cbn [app Re.match_here].
    apply isdigit_true in Hd. rewrite Hd.
    rewrite (greedy_run _ _ ds _ [sp; [104%N]]); [done | | |].
    + by apply digits_isdigit.
    + cbn [Re.match_here].
      change (u "h" ++ rest) with (104%N :: rest).
      rewrite (greedy_run _ _ sp _ [[104%N]]); [done | done | | done].
      cbn [Re.match_here]. unfold Re.literal. by rewrite N.eqb_refl.
    + destruct sp as [|x sp]; cbn [app].
      * change (u "h" ++ rest) with (104%N :: rest).
        by apply isdigit_false.
      * apply Forall_cons in Hsp as [Hx _].
        by apply isdigit_false, space_is_no_digit.
  - intros Hno. destruct (eqb chs (u "")) eqn:Hchs.
    { by apply eqb_spec in Hchs as ->. }
    destruct (Re.search _ (lower chs)) as [pieces|] eqn:Hs; [|done].
    destruct Hno as [Hno|Hno].
    + destruct (search_sound _ _ _ Hs) as (Hall & before & rest & E).
      destruct Hno. unfold pattern_h in Hall.
      apply Forall2_cons_inv_l in Hall as (p1 & ps1 & _ & Hall & ->).
      apply Forall2_cons_inv_l in Hall as (p2 & ps2 & _ & Hall & ->).
      apply Forall2_cons_inv_l in Hall as (p3 & ps3 & [H3 Hlen] & _ & ->).
      cbn in Hlen. destruct p3 as [|x [|? ?]]; try done.
      apply Forall_cons in H3 as [Hx _]. cbn in Hx. unfold Re.literal in Hx.
      apply N.eqb_eq in Hx as ->. rewrite E. cbn.
      rewrite !elem_of_app. right. left. right. right. by left.
    + unfold pattern_h in Hs. by rewrite search_needs_digit in Hs.
Qed.

End CargaHoraria.

Lemma format_carga_horaria_forms_witness :
  format_carga_horaria lower_latin1 ascii_digit (u "30 H semanais")
  = u "30h"
  /\ format_carga_horaria lower_latin1 ascii_digit (u " Integral ")
     = u "Integral".
Proof.
  destruct (format_carga_horaria_forms lower_latin1 ascii_digit eq_refl
              ascii_digit_space (u "30 H semanais")) as (_ & H1 & _).
  destruct (format_carga_horaria_forms lower_latin1 ascii_digit eq_refl
              ascii_digit_space (u " Integral ")) as (_ & _ & H2).
  split.
  - apply (H1 (u "30") (u " ") (u " semanais"));
      [discriminate | discriminate | by repeat constructor
       | by repeat constructor | reflexivity].
  - rewrite H2; [reflexivity|]. left.
    apply (bool_decide_unpack _). by vm_compute.
Defined.

(** ** [utils.sanitize_filename] *)

Section SanitizeFilename.

Lemma replace_char_map (c n : N) (s : list N) :
  replace_go [c] [n] 0 s = map (fun x => if (x =? c)%N then n else x) s.
Proof.
  induction s as [|x s IH]; [done|]. cbn [replace_go startswith map].
  rewrite (N.eqb_sym c x). change (length [c] - 1) with 0. rewrite IH.
  by destruct (x =? c)%N.
Qed.

Lemma sanitize_char_valid (x : N) : sanitize_char x ∉ invalid_chars.
Proof.
  unfold sanitize_char. destruct (bool_decide (x ∈ invalid_chars)) eqn:Hx.
  - apply (bool_decide_unpack (95%N ∉ invalid_chars)). by vm_compute.
  - by apply bool_decide_eq_false in Hx.
Qed.

(** The nine replacements together replace each invalid character by an
    underscore and touch nothing else. *)
Lemma replacements_map (filename : list N) :
  fold_left (fun f char => str_replace [char] (u "_") f)
            invalid_chars filename
  = map sanitize_char filename.
Proof.
  unfold invalid_chars. cbn [fold_left]. unfold str_replace.
  change (u "_") with [95%N]. rewrite !replace_char_map, !map_map.
  apply map_ext. intros x. unfold sanitize_char, invalid_chars.
  repeat match goal with
         | |- context [(x =? ?k)%N] =>
             destruct (N.eqb_spec x k) as [->|?];
             [vm_compute; reflexivity | cbv iota beta]
         end.
  rewrite bool_decide_eq_false_2; [done|].
  intros Hin. repeat (apply elem_of_cons in Hin as [->|Hin]; [done|]).
  by apply elem_of_nil in Hin.
Qed.

Lemma break_at_app (c : N) (a b : list N) :
  c ∉ a -> break_at c (a ++ c :: b) = Some (a, b).
Proof.
  induction a as [|x a IH]; intros Hc; cbn [app break_at].
  - by rewrite N.eqb_refl.
  - destruct (N.eqb_spec x c) as [->|Hne]; [destruct Hc; by left|].
    rewrite IH; [done|]. intros Hin. apply Hc. by right.
Qed.

Lemma break_at_none (c : N) (s : list N) : c ∉ s -> break_at c s = None.
Proof.
  induction s as [|x s IH]; [done|]. intros Hc. cbn [break_at].
  destruct (N.eqb_spec x c) as [->|Hne]; [destruct Hc; by left|].
  rewrite IH; [done|]. intros Hin. apply Hc. by right.
Qed.

(** Every text with the character has a last occurrence of it. *)
Lemma last_occurrence (c : N) (s : list N) :
  c ∈ s -> exists a b, s = a ++ c :: b /\ c ∉ b.
Proof.
  induction s as [|x s IH]; [by intros ?%elem_of_nil|]. intros Hin.
  destruct (decide (c ∈ s)) as [Hs|Hs].
  - destruct (IH Hs) as (a & b & -> & Hb). by exists (x :: a), b.
  - apply elem_of_cons in Hin as [->|?]; [|done]. by exists [], s.
Qed.

Lemma rsplit1_last (c : N) (name ext : list N) :
  c ∉ ext -> rsplit1 c (name ++ c :: ext) = [name; ext].
Proof.
  intros Hc. unfold rsplit1. rewrite rev_app_distr. cbn [rev].
  rewrite <- app_assoc. cbn [app].
  rewrite break_at_app.
  - by rewrite !rev_involutive.
  - intros Hin%list_elem_of_In%in_rev. by apply Hc, list_elem_of_In.
Qed.

Lemma contains_char (c : N) (s : list N) :
  contains [c] s = true <-> c ∈ s.
Proof.
  rewrite contains_spec. unfold occurs_in. split.
  - intros (a & b & ->). rewrite elem_of_app. right. by left.
  - intros (a & b & ->)%list_elem_of_split. by exists a, b.
Qed.

Lemma in_take {A} (x : A) (n : nat) (l : list A) : x ∈ take n l -> x ∈ l.
Proof. intros (i & Hi & _)%elem_of_take. by eapply list_elem_of_lookup_2. Qed.

(** X12. [sanitize_filename] never returns one of the nine characters it
    forbids.  A name of at most 200 characters comes back with each of
    them replaced by an underscore and nothing else changed.  A longer
    name without a dot is cut to 200 characters; a longer name with a dot
    keeps the first 200 characters of what precedes its last dot and the
    whole extension after it, so the result can be longer than 200. *)
Theorem sanitize_filename_safe (filename : list N) :
  (forall c, c ∈ invalid_chars -> c ∉ sanitize_filename filename)
  /\ (length filename <= 200 ->
      sanitize_filename filename = map sanitize_char filename)
  /\ (200 < length filename -> 46%N ∉ filename ->
      sanitize_filename filename = take 200 (map sanitize_char filename))
  /\ (forall name ext,
         200 < length filename ->
         map sanitize_char filename = name ++ u "." ++ ext ->
         46%N ∉ ext ->
         sanitize_filename filename
         = take 200 name ++ (match ext with
                             | [] => []
                             | _ => u "." ++ ext
                             end)).
Proof.
  assert (Hdot : forall name ext,
             200 < length filename ->
             map sanitize_char filename = name ++ u "." ++ ext ->
             46%N ∉ ext ->
             sanitize_filename filename
             = take 200 name ++ (match ext with
                                 | [] => []
                                 | _ => u "." ++ ext
                                 end)).
  { intros name ext Hlen E Hext. unfold sanitize_filename.
    rewrite replacements_map, length_map.
    apply Nat.ltb_lt in Hlen. rewrite Hlen. rewrite E.
    change (u "." ++ ext) with (46%N :: ext).
    assert (contains (u ".") (name ++ 46%N :: ext) = true) as ->.
    { apply contains_char. rewrite elem_of_app. right. by left. }
    rewrite rsplit1_last by done. by destruct ext. }
  assert (Hnodot : 200 < length filename ->
                   46%N ∉ map sanitize_char filename ->
                   sanitize_filename filename
                   = take 200 (map sanitize_char filename)).
  { intros Hlen Hno. unfold sanitize_filename.
    rewrite replacements_map, length_map.
    apply Nat.ltb_lt in Hlen. rewrite Hlen.
    assert (contains (u ".") (map sanitize_char filename) = false) as ->.
    { change (u ".") with [46%N]. apply not_true_iff_false.
      by rewrite contains_char. }
    cbn. by rewrite app_nil_r. }
  assert (Hshort : length filename <= 200 ->
                   sanitize_filename filename = map sanitize_char filename).
  { intros Hlen. unfold sanitize_filename.
    rewrite replacements_map, length_map.
    by destruct (Nat.ltb_spec 200 (length filename)); [lia|]. }
  assert (Hvalid : forall c, c ∈ invalid_chars ->
                             c ∉ map sanitize_char filename).
  { intros c Hc (x & -> & _)%list_elem_of_fmap.
    by apply (sanitize_char_valid x). }
  split; [|split; [done|split; [|done]]].
  - intros c Hc.
    destruct (Nat.le_gt_cases (length filename) 200) as [Hle|Hgt].
    { rewrite Hshort by done. by apply Hvalid. }
    assert (Hc46 : c <> 46%N).
    { intros ->. revert Hc.
      apply (bool_decide_unpack (46%N ∉ invalid_chars)). by vm_compute. }
    destruct (decide (46%N ∈ map sanitize_char filename)) as [Hin|Hout].
    + destruct (last_occurrence _ _ Hin) as (name & ext & E & Hext).
      rewrite (Hdot name ext Hgt E Hext).
      specialize (Hvalid c Hc). rewrite E in Hvalid.
      rewrite elem_of_app in Hvalid |- *.
      intros [Hn%in_take|He].
      * apply Hvalid. by left.
      * destruct ext as [|e ext]; [by apply elem_of_nil in He|].
        apply elem_of_cons in He as [?|He]; [done|].
        apply Hvalid. right. by right.
    + rewrite Hnodot by done. intros Hn%in_take.
      by apply (Hvalid c Hc).
  - intros Hlen Hno. apply Hnodot; [done|].
    intros (x & Hx & Hin)%list_elem_of_fmap. unfold sanitize_char in Hx.
    destruct (bool_decide (x ∈ invalid_chars)); [done|]. by subst.
Qed.

End SanitizeFilename.

Lemma sanitize_filename_safe_witness :
  sanitize_filename (u "edital: 2577/PB.pdf") = u "edital_ 2577_PB.pdf"
  /\ length (sanitize_filename (replicate 300 97%N)) = 200
  /\ length (sanitize_filename (u "a." ++ replicate 300 97%N)) = 302.
Proof.
  destruct (sanitize_filename_safe (u "edital: 2577/PB.pdf")) as (_ & H1 & _).
  destruct (sanitize_filename_safe (replicate 300 97%N)) as (_ & _ & H2 & _).
  destruct (sanitize_filename_safe (u "a." ++ replicate 300 97%N))
    as (_ & _ & _ & H3).
  split; [|split].
  - rewrite H1; [reflexivity|]. vm_compute. lia.
  - rewrite H2; [reflexivity| |].
    + vm_compute. lia.
    + apply (bool_decide_unpack _). by vm_compute.
  - rewrite (H3 (u "a") (replicate 300 97%N)); [reflexivity | | reflexivity |].
    + vm_compute. lia.
    + apply (bool_decide_unpack _). by vm_compute.
Defined.

(** ** [utils.parse_vagas]: what it never does *)

Section OpeningsMore.

Variable digit_val : N -> option N.
Variable max_str_digits : nat.

Lemma search_cr_has_plus (text : list N) (m : list (list N)) :
  Re.search (pattern_cr digit_val) text = Some m -> 43%N ∈ text.
Proof.
  intros Hs.
  destruct (search_sound _ _ _ Hs) as (Hall & before & rest & ->).
  unfold pattern_cr in Hall.
  apply Forall2_cons_inv_l in Hall as (p1 & ps1 & _ & Hall & ->).
  apply Forall2_cons_inv_l in Hall as (p2 & ps2 & _ & Hall & ->).
  apply Forall2_cons_inv_l in Hall as (p3 & ps3 & [H3 Hlen] & _ & ->).
  cbn in Hlen. destruct p3 as [|x [|? ?]]; try done.
  apply Forall_cons in H3 as [Hx _]. cbn in Hx. unfold Re.literal in Hx.
  apply N.eqb_eq in Hx as ->. cbn.
  rewrite !elem_of_app. right. left. right. right. by left.
Qed.

(** X13. [parse_vagas] reads its numbers off the text.  It returns
    (0, 0), or the value of a run of digits that stands in the text and
    that [int] converts, with a reserve flag that is 0 or 1, and 1 only for
    a text with a plus sign; or it raises [ValueError], and then a run of
    digits longer than the limit of [int] stands in the text.  A text no
    longer than the limit never raises. *)
Theorem parse_vagas_reads_the_text (text : list N) :
  (parse_vagas digit_val max_str_digits text = Ok (0%N, 0%N)
   \/ (exists before ds after flag,
         text = before ++ ds ++ after
         /\ ds <> [] /\ Forall (fun d => is_Some (digit_val d)) ds
         /\ within_limit max_str_digits ds
         /\ parse_vagas digit_val max_str_digits text
            = Ok (int_value digit_val ds, flag)
         /\ (flag = 0%N \/ flag = 1%N /\ 43%N ∈ text))
   \/ (exists before ds after,
         text = before ++ ds ++ after
         /\ Forall (fun d => is_Some (digit_val d)) ds
         /\ 0 < max_str_digits < length ds
         /\ parse_vagas digit_val max_str_digits text = Raise ValueError))
  /\ (within_limit max_str_digits text ->
      exists r, parse_vagas digit_val max_str_digits text = Ok r).
Proof.
  assert (Hrun : forall p pieces,
             Re.search ((isdigit digit_val, Re.Plus) :: p) text
             = Some pieces ->
             exists before ds after,
               text = before ++ ds ++ after
               /\ ds <> [] /\ Forall (fun d => is_Some (digit_val d)) ds
               /\ group1 pieces = ds).
  { intros p pieces Hs.
    destruct (search_sound _ _ _ Hs) as (Hall & before & rest & E).
    apply Forall2_cons_inv_l in Hall as (ds & ps & [Hds Hne] & _ & ->).
    cbn in Hne, Hds. exists before, ds, (concat ps ++ rest).
    split; [by rewrite E; cbn; rewrite <- app_assoc|]. split; [done|].
    split; [|done].
    eapply Forall_impl; [exact Hds|]. intros d. by rewrite isdigit_true. }
  assert (Hint : forall ds,
             within_limit max_str_digits ds
             /\ int digit_val max_str_digits ds
                = Ok (int_value digit_val ds)
             \/ 0 < max_str_digits < length ds
                /\ int digit_val max_str_digits ds = Raise ValueError).
  { intros ds. unfold int, within_limit.
    destruct (0 <? max_str_digits) eqn:H0;
      [apply Nat.ltb_lt in H0 | apply Nat.ltb_ge in H0].
    - destruct (max_str_digits <? length ds) eqn:Hlen;
        [apply Nat.ltb_lt in Hlen | apply Nat.ltb_ge in Hlen].
      + right. split; [lia | done].
      + left. split; [by right | done].
    - left. split; [left; lia | done]. }
  assert (Hsub : forall before ds after : list N,
             text = before ++ ds ++ after -> length ds <= length text).
  { intros before ds after ->. rewrite !length_app. lia. }
  split.
  - unfold parse_vagas. destruct (eqb text (u "")); [by left|].
    destruct (Re.search (pattern_cr digit_val) text) as [m|] eqn:Hcr.
    + destruct (Hrun _ _ Hcr) as (before & ds & after & E & Hne & Hds & Hg).
      rewrite Hg. destruct (Hint ds) as [[Hlim ->] | [Hlim ->]].
      * right. left. exists before, ds, after, 1%N.
        repeat (split; [done|]). right. split; [done|].
        by eapply search_cr_has_plus.
      * right. right. by exists before, ds, after.
    + destruct (Re.search (pattern_num digit_val) text) as [m|] eqn:Hnum;
        [|by left].
      destruct (Hrun _ _ Hnum) as (before & ds & after & E & Hne & Hds & Hg).
      rewrite Hg. destruct (Hint ds) as [[Hlim ->] | [Hlim ->]].
      * right. left. exists before, ds, after, 0%N.
        repeat (split; [done|]). by left.
      * right. right. by exists before, ds, after.
  - intros Hlim.
    assert (Hok : forall p pieces,
               Re.search ((isdigit digit_val, Re.Plus) :: p) text
               = Some pieces ->
               int digit_val max_str_digits (group1 pieces)
               = Ok (int_value digit_val (group1 pieces))).
    { intros p pieces Hs.
      destruct (Hrun _ _ Hs) as (before & ds & after & E & _ & _ & ->).
      apply int_within_limit. destruct Hlim as [?|Hlim]; [by left|].
      right. pose proof (Hsub _ _ _ E). lia. }
    unfold parse_vagas. destruct (eqb text (u "")); [by eexists|].
    destruct (Re.search (pattern_cr digit_val) text) as [m|] eqn:Hcr.
    + rewrite (Hok _ _ Hcr). by eexists.
    + destruct (Re.search (pattern_num digit_val) text) as [m|] eqn:Hnum;
        [|by eexists].
      rewrite (Hok _ _ Hnum). by eexists.
Qed.

End OpeningsMore.

(** ** [scraper]: the list of competitions and the main edital *)

Section ScraperMore.

Variable lower : list N -> list N.

Lemma fold_left_invariant {A B} (f : A -> B -> A) (I : A -> Prop)
    (l : list B) :
  forall a,
    I a -> (forall a b, I a -> b ∈ l -> I (f a b)) -> I (fold_left f l a).
Proof.
  induction l as [|b l IH]; intros a Ha Hstep; [done|]. cbn [fold_left].
  apply IH.
  - apply Hstep; [done | by left].
  - intros a' b' Ha' Hb'. apply Hstep; [done | by right].
Qed.

Lemma base_url_is_absolute (h : list N) :
  startswith (u "http") (Scraper.BASE_URL ++ h) = true.
Proof. vm_compute. reflexivity. Qed.

(** X14. The competitions [get_concursos_abertos] collects have pairwise
    different ids; each has an absolute address (one that begins with
    http), its id is the last segment of that address, its name is not one
    of the generic button texts, and it comes from an anchor of the page
    whose address holds /informacoes/.  An anchor with a generic name is
    passed over without reserving its id. *)
Theorem concursos_abertos_are_distinct (anchors : list Scraper.anchor) :
  NoDup (map Scraper.id (Scraper.concursos_abertos lower anchors))
  /\ (forall c, c ∈ Scraper.concursos_abertos lower anchors ->
         startswith (u "http") (Scraper.url c) = true
         /\ Scraper.id c
            = last_segment 47 (rstrip_char 47 (Scraper.url c))
         /\ (lower (Scraper.nome c) ∉ Scraper.generic_names)
         /\ exists a h,
              a ∈ anchors /\ Scraper.href a = Some h
              /\ contains (u "/informacoes/") h = true
              /\ (Scraper.url c = h \/ Scraper.url c = Scraper.BASE_URL ++ h))
  /\ (forall st a,
         lower (if negb (eqb (Scraper.text a) (u "")) then Scraper.text a
                else default (u "") (Scraper.title a))
           ∈ Scraper.generic_names ->
         Scraper.concursos_step lower st a = st).
Proof.
  set (P := fun c : Scraper.concurso_info =>
         startswith (u "http") (Scraper.url c) = true
         /\ Scraper.id c
            = last_segment 47 (rstrip_char 47 (Scraper.url c))
         /\ (lower (Scraper.nome c) ∉ Scraper.generic_names)
         /\ exists a h,
              a ∈ anchors /\ Scraper.href a = Some h
              /\ contains (u "/informacoes/") h = true
              /\ (Scraper.url c = h \/ Scraper.url c = Scraper.BASE_URL ++ h)).
  set (I := fun st : list Scraper.concurso_info * gset (list N) =>
         (forall x, x ∈ st.2 <-> x ∈ map Scraper.id st.1)
         /\ NoDup (map Scraper.id st.1) /\ Forall P st.1).
  assert (HI : I (fold_left (Scraper.concursos_step lower)
                            (List.filter Scraper.is_concurso_link anchors)
                            ([], ∅))).
  { apply fold_left_invariant.
    - split; [|split; constructor]. intros x. cbn. set_solver.
    - intros [cs ids] a (Hids & Hnd & Hall) Ha.
      apply list_elem_of_In, List.filter_In in Ha as [Ha Hlink].
      apply list_elem_of_In in Ha.
      unfold Scraper.concursos_step, Scraper.is_concurso_link in *.
      destruct (Scraper.href a) as [h|] eqn:Hh; [|done].
      apply andb_true_iff in Hlink as [Hne Hinfo].
      apply negb_true_iff in Hne. rewrite Hne.
      case_bool_decide as Hseen; [done|].
      destruct (in_list _ Scraper.generic_names) eqn:Hgen; [done|].
      unfold I. cbn [fst snd] in *. split; [|split].
      + intros x. rewrite map_app, elem_of_app, elem_of_union, Hids.
        cbn [map Scraper.id].
        rewrite list_elem_of_singleton, elem_of_singleton. tauto.
      + rewrite map_app. apply NoDup_app. split; [exact Hnd|]. split.
        * cbn [map Scraper.id].
          intros x Hx Hx'. apply list_elem_of_singleton in Hx' as ->.
          by apply Hseen, Hids.
        * cbn [map]. apply NoDup_singleton.
      + apply Forall_app. split; [exact Hall|]. constructor; [|constructor].
        unfold P. cbn [Scraper.url Scraper.id Scraper.nome].
        split; [|split; [reflexivity|split]].
        * destruct (startswith (u "http") h) eqn:Hs; [exact Hs|].
          apply base_url_is_absolute.
        * intros Hin%in_list_spec. rewrite Hin in Hgen. discriminate Hgen.
        * exists a, h. split; [exact Ha|]. split; [exact Hh|].
          split; [exact Hinfo|].
          destruct (startswith (u "http") h); [left | right]; reflexivity. }
  destruct HI as (_ & Hnd & Hall). split; [done|]. split.
  - intros c Hc. unfold Scraper.concursos_abertos in Hc.
    rewrite Forall_forall in Hall. by apply Hall.
  - intros [cs ids] a Hgen. unfold Scraper.concursos_step.
    destruct (Scraper.href a) as [h|]; [|done].
    destruct (eqb h (u "")); [done|].
    case_bool_decide; [done|].
    apply in_list_spec in Hgen. by rewrite Hgen.
Qed.

Lemma first_abertura_spec (editais : list Scraper.edital) :
  match Scraper.first_abertura editais with
  | Some e =>
      exists before after,
        editais = before ++ e :: after
        /\ Scraper.tipo e = u "abertura_inscricoes"
        /\ Forall (fun x => Scraper.tipo x <> u "abertura_inscricoes") before
  | None =>
      Forall (fun x => Scraper.tipo x <> u "abertura_inscricoes") editais
  end.
Proof.
  induction editais as [|e editais IH]; cbn [Scraper.first_abertura];
    [constructor|].
  destruct (eqb (Scraper.tipo e) (u "abertura_inscricoes")) eqn:He.
  - apply eqb_spec in He. by exists [], editais.
  - assert (Scraper.tipo e <> u "abertura_inscricoes").
    { intros Heq%eqb_spec. congruence. }
    destruct (Scraper.first_abertura editais) as [e'|].
    + destruct IH as (before & after & -> & Ht & Hb).
      exists (e :: before), after. split; [done|]. split; [done|].
      by constructor.
    + by constructor.
Qed.

(** X15. The main edital of a competition is the first PDF link whose
    lowercase title holds both abertura and inscri, and the first PDF link
    of the page when there is none such; there is no main edital exactly
    when the page has no PDF link. *)
Theorem edital_principal_choice (anchors : list Scraper.anchor) :
  let editais := Scraper.edital_links lower anchors in
  (Scraper.edital_principal editais = None
   <-> List.filter Scraper.is_pdf_link anchors = [])
  /\ (forall e, Scraper.edital_principal editais = Some e -> e ∈ editais)
  /\ (forall e, e ∈ editais ->
         Scraper.tipo e = u "abertura_inscricoes"
         <-> contains (u "abertura") (lower (Scraper.titulo e)) = true
             /\ contains (u "inscri") (lower (Scraper.titulo e)) = true)
  /\ (forall before e after,
         editais = before ++ e :: after ->
         Scraper.tipo e = u "abertura_inscricoes" ->
         Forall (fun x => Scraper.tipo x <> u "abertura_inscricoes") before ->
         Scraper.edital_principal editais = Some e)
  /\ (Forall (fun x => Scraper.tipo x <> u "abertura_inscricoes") editais ->
      Scraper.edital_principal editais = head editais).
Proof.
  intros editais. split; [|split; [|split; [|split]]].
  - unfold Scraper.edital_principal.
    pose proof (first_abertura_spec editais) as Hspec.
    destruct (Scraper.first_abertura editais) as [e|].
    + destruct Hspec as (before & after & E & _). split; [done|].
      intros Hnil. subst editais. unfold Scraper.edital_links in E.
      rewrite Hnil in E. by destruct before.
    + subst editais. unfold Scraper.edital_links.
      by destruct (List.filter Scraper.is_pdf_link anchors).
  - intros e. unfold Scraper.edital_principal.
    pose proof (first_abertura_spec editais) as Hspec.
    destruct (Scraper.first_abertura editais) as [e'|].
    + destruct Hspec as (before & after & -> & _). intros [= <-].
      apply elem_of_app. right. by left.
    + destruct editais as [|e' l]; [done|]. intros [= <-]. by left.
  - intros e (a & -> & _)%list_elem_of_fmap.
    cbn [Scraper.tipo Scraper.titulo]. unfold Scraper.classify_titulo.
    destruct (contains (u "abertura") _); destruct (contains (u "inscri") _);
      cbn [andb]; try (split; [done | by intros [? ?]]); try done;
      destruct (contains (u "edital") _); split; try done; by intros [? ?].
  - intros before e after E Ht Hb. unfold Scraper.edital_principal.
    pose proof (first_abertura_spec editais) as Hspec.
    destruct (Scraper.first_abertura editais) as [e'|].
    + destruct Hspec as (before' & after' & E' & Ht' & Hb').
      rewrite E in E'. f_equal. symmetry.
      revert before' Hb' E'. clear -Ht Ht' Hb.
      induction Hb as [|x before Hx _ IH]; intros before' Hb' E'.
      * destruct before' as [|y before']; [by injection E'|].
        injection E' as <- _. by apply Forall_cons in Hb' as [? _].
      * destruct before' as [|y before']; [by injection E' as -> _|].
        injection E' as <- E'. apply Forall_cons in Hb' as [_ Hb'].
        by eapply IH.
    + rewrite E in Hspec. apply Forall_app in Hspec as [_ Hspec].
      by apply Forall_cons in Hspec as [? _].
  - intros Hnone. unfold Scraper.edital_principal.
    pose proof (first_abertura_spec editais) as Hspec.
    destruct (Scraper.first_abertura editais) as [e|]; [|by destruct editais].
    destruct Hspec as (before & after & E & Ht & _).
    rewrite E in Hnone. apply Forall_app in Hnone as [_ Hnone].
    by apply Forall_cons in Hnone as [? _].
Qed.

End ScraperMore.

(** ** [main] and [models]: from records to cargos, and the summary *)

Section PipelineMore.

Variable lower : list N -> list N.

(** The dict a row emits: the city, and the normalized fields. *)
Lemma emitted_dict (m : gmap string nat) (cidade : list N)
    (row : list value) (record : gmap string (list N)) :
  emitted m cidade row = Some record ->
  forall key,
    record !! key
    = if decide (key = "cidade") then Some (normalize cidade)
      else if decide (key ∈ fields) then Some (normalized m row key)
      else None.
Proof.
  intros Hem key. pose proof Hem as Hem'. unfold emitted in Hem'.
  destruct (outcome (fill_all m row (new_cargo_info cidade)))
    as [c|e] eqn:Hc; [|done].
  destruct (keep (clean c)); [|done]. injection Hem' as <-.
  destruct (decide (key = "cidade")) as [->|Hne].
  - by rewrite clean_lookup, (fill_all_dict _ _ _ _ Hc).
  - destruct (decide (key ∈ fields)) as [Hin|Hout].
    + by apply (clean_normalized m row cidade).
    + rewrite clean_lookup, (fill_all_dict _ _ _ _ Hc).
      by rewrite decide_False, decide_False.
Qed.

Lemma emitted_complete (m : gmap string nat) (cidade : list N)
    (row : list value) (record : gmap string (list N)) :
  emitted m cidade row = Some record -> complete record.
Proof.
  intros Hem key Hkey. rewrite (emitted_dict _ _ _ _ Hem).
  destruct (decide (key = "cidade")); [by eexists|].
  apply elem_of_cons in Hkey as [?|Hkey]; [done|].
  rewrite decide_True by done. by eexists.
Qed.

Lemma add_cleaned_complete (concurso : Models.Concurso)
    (record : gmap string (list N)) :
  complete record ->
  Main.add_cleaned lower concurso record
  = Some (with_cargos concurso
            (Models.cargos concurso ++ [stored_cargo lower concurso record])).
Proof.
  intros Hall. unfold Main.add_cleaned.
  assert (Hk : forall key, key ∈ "cidade" :: fields ->
                 record !! key = Some (record !!! key)).
  { intros key Hkey. destruct (Hall key Hkey) as [v Hv].
    by rewrite lookup_total_alt, Hv. }
  assert (H1 : record !! "cidade" = Some (record !!! "cidade"))
    by (apply Hk; unfold fields; repeat constructor).
  assert (H2 : record !! "cargo" = Some (record !!! "cargo"))
    by (apply Hk; unfold fields; repeat constructor).
  assert (H3 : record !! "requisito" = Some (record !!! "requisito"))
    by (apply Hk; unfold fields; repeat constructor).
  assert (H4 : record !! "salario" = Some (record !!! "salario"))
    by (apply Hk; unfold fields; repeat constructor).
  assert (H5 : record !! "carga_horaria" = Some (record !!! "carga_horaria"))
    by (apply Hk; unfold fields; repeat constructor).
  assert (H6 : record !! "vagas" = Some (record !!! "vagas"))
    by (apply Hk; unfold fields; repeat constructor).
  rewrite H2. cbn [mbind option_bind].
  rewrite lookup_insert_ne by done. rewrite H3. cbn [mbind option_bind].
  rewrite !lookup_insert_ne by done. rewrite H4. cbn [mbind option_bind].
  unfold Models.add_cargo, with_cargos, stored_cargo, Models.get.
  repeat (rewrite lookup_insert_eq || rewrite lookup_insert_ne by done).
  by rewrite H1, H5, H6.
Qed.

Lemma add_all_complete (records : list (gmap string (list N))) :
  forall concurso,
    Forall complete records ->
    Main.add_all lower concurso records
    = Some (with_cargos concurso
              (Models.cargos concurso
               ++ map (stored_cargo lower concurso) records)).
Proof.
  induction records as [|record records IH]; intros concurso Hall;
    cbn [Main.add_all map].
  - rewrite app_nil_r. by destruct concurso.
  - apply Forall_cons in Hall as [Hrec Hall].
    rewrite (add_cleaned_complete concurso record Hrec).
    cbn [mbind option_bind]. rewrite (IH _ Hall).
    unfold with_cargos, stored_cargo. cbn. by rewrite <- app_assoc.
Qed.

(** X16. Every record [parse_cargos] returns is stored by the loop of
    [main]: no key is ever missing, and the concurso gains one cargo per
    record, in order, with role and requirement in the normal form of
    [clean_text] and the salary through [clean_salary].  The city of each
    cargo is the one handed to [parse_cargos] (blanked if it is nan, None
    or null), never the default of [add_cargo]. *)
Theorem records_become_cargos
    (df : DataFrame) (cidade : list N) (concurso : Models.Concurso) :
  empty df = false ->
  first_cell_readable df ->
  exists records,
    outcome (parse_cargos lower (Some df) cidade) = Ok records
    /\ Main.add_all lower concurso records
       = Some (with_cargos concurso
                 (Models.cargos concurso
                  ++ map (stored_cargo lower concurso) records))
    /\ forall record, record ∈ records ->
         Models.cidade (stored_cargo lower concurso record)
         = normalize cidade
         /\ strip (Models.cargo (stored_cargo lower concurso record))
            = Models.cargo (stored_cargo lower concurso record).
Proof.
  intros He Hfirst.
  destruct (parse_cargos_result lower df cidade He Hfirst) as [Hout _].
  eexists. split; [exact Hout|]. split.
  - apply add_all_complete. apply Forall_forall.
    intros record (row & _ & Hrow)%list_elem_of_omap.
    by eapply emitted_complete.
  - intros record (row & _ & Hrow)%list_elem_of_omap. split.
    + cbn [stored_cargo Models.cidade].
      by rewrite lookup_total_alt, (emitted_dict _ _ _ _ Hrow).
    + cbn [stored_cargo Models.cargo].
      rewrite clean_text_words. apply strip_join_words, split_ws_words.
Qed.

Lemma str_le_total (a b : list N) :
  Models.str_le a b = true \/ Models.str_le b a = true.
Proof.
  revert b; induction a as [|x a IH]; intros [|y b]; cbn; auto.
  destruct (N.ltb_spec x y); [by left|].
  destruct (N.ltb_spec y x); [by right|].
  apply IH.
Qed.

Lemma inner_cidades (gs : list Models.Cargo) :
  forall (acc : gset (list N)) (x : list N),
    x ∈ fold_left
          (fun cidades cargo =>
             if negb (eqb (Models.cidade cargo) (u ""))
             then {[Models.cidade cargo]} ∪ cidades else cidades)
          gs acc
    <-> x ∈ acc
        \/ (x <> u "" /\ exists g, g ∈ gs /\ Models.cidade g = x).
Proof.
  induction gs as [|g gs IH]; intros acc x; cbn [fold_left].
  - split; [by left|]. intros [?|(_ & g & []%elem_of_nil & _)]; done.
  - rewrite IH. destruct (eqb (Models.cidade g) (u "")) eqn:Hg; cbn [negb].
    + apply eqb_spec in Hg. split.
      * intros [?|(Hx & g' & Hin & E)]; [by left|].
        right. split; [done|]. exists g'. split; [by right | done].
      * intros [?|(Hx & g' & Hin & E)]; [by left|].
        apply elem_of_cons in Hin as [->|Hin]; [congruence|].
        right. split; [done|]. by exists g'.
    + assert (Models.cidade g <> u "").
      { intros E%eqb_spec. congruence. }
      rewrite elem_of_union, elem_of_singleton. split.
      * intros [[->|?]|(Hx & g' & Hin & E)].
        -- right. split; [done|]. exists g. split; [by left | done].
        -- by left.
        -- right. split; [done|]. exists g'. split; [by right | done].
      * intros [?|(Hx & g' & Hin & E)]; [by left; right|].
        apply elem_of_cons in Hin as [->|Hin]; [by left; left|].
        right. split; [done|]. by exists g'.
Qed.

Lemma outer_cidades (cs : list Models.Concurso) :
  forall (acc : gset (list N)) (x : list N),
    x ∈ fold_left
          (fun cidades concurso =>
             fold_left
               (fun cidades cargo =>
                  if negb (eqb (Models.cidade cargo) (u ""))
                  then {[Models.cidade cargo]} ∪ cidades else cidades)
               (Models.cargos concurso) cidades)
          cs acc
    <-> x ∈ acc
        \/ (x <> u ""
            /\ exists c g, c ∈ cs /\ g ∈ Models.cargos c
                           /\ Models.cidade g = x).
Proof.
  induction cs as [|c cs IH]; intros acc x; cbn [fold_left].
  - split; [by left|]. intros [?|(_ & c & g & []%elem_of_nil & _)]; done.
  - rewrite IH, inner_cidades. split.
    + intros [[?|(Hx & g & Hg & E)]|(Hx & c' & g & Hc & Hg & E)].
      * by left.
      * right. split; [done|]. exists c, g. split; [by left | done].
      * right. split; [done|]. exists c', g. split; [by right | done].
    + intros [?|(Hx & c' & g & Hc & Hg & E)]; [by left; left|].
      apply elem_of_cons in Hc as [->|Hc].
      * left. right. split; [done|]. by exists g.
      * right. split; [done|]. by exists c', g.
Qed.

(** X17. In the summary the number of cargos is the length of
    [get_all_cargos]; the cities are listed in ascending order and without
    repetition; a city is listed exactly when it is not empty and is the
    city of some cargo; and the number of cities is the length of that
    list. *)
Theorem summary_is_consistent (concursos : list Models.Concurso) :
  let s := Models.get_summary concursos in
  Models.total_concursos s = length concursos
  /\ Models.total_cargos s = length (Models.get_all_cargos concursos)
  /\ Sorted Models.str_le_rel (Models.cidades s)
  /\ NoDup (Models.cidades s)
  /\ (forall x, x ∈ Models.cidades s
                <-> x <> u ""
                    /\ exists c g, c ∈ concursos /\ g ∈ Models.cargos c
                                   /\ Models.cidade g = x)
  /\ Models.total_cidades s = length (Models.cidades s).
Proof.
  intros s. subst s. unfold Models.get_summary.
  cbn [Models.total_concursos Models.total_cargos Models.cidades
       Models.total_cidades].
  assert (Hperm : Models.sorted (elements (Models.cidades_set concursos))
                  ≡ₚ elements (Models.cidades_set concursos))
    by apply merge_sort_Permutation.
  split; [done|]. split; [|split; [|split; [|split]]].
  - clear Hperm. unfold Models.get_all_cargos.
    induction concursos as [|c cs IH]; [done|].
    simpl. rewrite length_app, length_map. f_equal. apply IH.
  - apply Sorted_merge_sort. intros a b. apply str_le_total.
  - rewrite Hperm. apply NoDup_elements.
  - intros x. rewrite Hperm, elem_of_elements.
    unfold Models.cidades_set. rewrite outer_cidades.
    split; [intros [[]%elem_of_empty|?]; done | by right].
  - by rewrite Hperm.
Qed.

End PipelineMore.

Lemma records_become_cargos_witness :
  exists records,
    outcome (parse_cargos lower_latin1 (Some quadro) (u "Sossêgo")) = Ok records
    /\ Main.add_all lower_latin1 sossego records
       = Some (with_cargos sossego
                 (map (stored_cargo lower_latin1 sossego) records))
    /\ length records = 1.
Proof.
  destruct (records_become_cargos lower_latin1 quadro (u "Sossêgo") sossego)
    as (records & Hout & Hadd & _).
  - reflexivity.
  - exact quadro_first_cell.
  - exists records. split; [exact Hout|]. split; [exact Hadd|].
    assert (E : records
                = match outcome (parse_cargos lower_latin1 (Some quadro)
                                              (u "Sossêgo")) with
                  | Ok r => r
                  | Raise _ => []
                  end) by (by rewrite Hout).
    rewrite E. vm_compute. reflexivity.
Defined.

Lemma concursos_abertos_are_distinct_witness :
  map Scraper.nome (Scraper.concursos_abertos lower_latin1 ancoras)
  = [u "Município de Sossêgo/PB"]
  /\ NoDup (map Scraper.id (Scraper.concursos_abertos lower_latin1 ancoras))
  /\ Scraper.concursos_step lower_latin1 ([], ∅)
       {| Scraper.href := Some (u "/informacoes/2577/");
          Scraper.text := u "Mais Informações"; Scraper.title := None |}
     = ([], ∅).
Proof.
  destruct (concursos_abertos_are_distinct lower_latin1 ancoras)
    as (Hnodup & _ & Hskip).
  split; [vm_compute; reflexivity|]. split; [exact Hnodup|].
  apply Hskip. vm_compute. right. left.
Defined.

Lemma edital_principal_choice_witness :
  Scraper.edital_principal (Scraper.edital_links lower_latin1 ancoras_editais)
  = Some {| Scraper.titulo := u "Edital de Abertura das Inscrições";
            Scraper.edital_url := Some (u "/a/abertura.pdf");
            Scraper.tipo := u "abertura_inscricoes" |}.
Proof.
  destruct (edital_principal_choice lower_latin1 ancoras_editais)
    as (_ & _ & _ & Hfirst & _).
  apply (Hfirst
           [{| Scraper.titulo := u "Edital de Retificação";
               Scraper.edital_url := Some (u "/a/retificacao.pdf");
               Scraper.tipo := u "edital" |}]
           _ []).
  - vm_compute. reflexivity.
  - vm_compute. reflexivity.
  - repeat constructor. vm_compute. intros H. discriminate H.
Defined.

(** ** [utils]: the city and the state of a name *)

Section CidadeEstado.

Variable search_municipio : list N -> option (list N * list N).

Lemma letra_no_slash (c : N) : letra c = true -> c <> 47%N.
Proof. intros H ->. by vm_compute in H. Qed.

Lemma maiuscula_no_space (c : N) : maiuscula c = true -> isspace c = false.
Proof.
  unfold maiuscula. intros [?%N.leb_le ?%N.leb_le]%andb_true_iff.
  apply isspace_printable. lia.
Qed.

(** The pattern at the head of a run of letters, a slash and two
    capitals. *)
Lemma match_cidade_here (g1 after : list N) (a b : N) :
  g1 <> [] -> Forall (fun c => letra c = true) g1 ->
  maiuscula a = true -> maiuscula b = true ->
  Re.match_here pattern_cidade (g1 ++ u "/" ++ [a; b] ++ after)
  = Some [g1; u "/"; [a]; [b]].
Proof.
  intros Hne Hg1 Ha Hb. destruct g1 as [|x g1]; [done|].
  apply Forall_cons in Hg1 as [Hx Hg1].
  unfold pattern_cidade. cbn [Re.match_here app]. rewrite Hx.
  rewrite (greedy_run letra _ g1 (u "/" ++ [a; b] ++ after)
             [u "/"; [a]; [b]]); [done|exact Hg1| |done].
  change (u "/") with [47%N]. cbn [app Re.match_here].
  unfold Re.literal. cbn [N.eqb Pos.eqb]. by rewrite Ha, Hb.
Qed.

(** No match begins in a text without a slash that ends with a character
    the first class does not hold. *)
Lemma greedy_blocked (k : list N -> option (list (list N)))
    (m : list N) (c0 : N) (rest : list N) :
  (forall x s, x <> 47%N -> k (x :: s) = None) ->
  Forall (fun x => x <> 47%N) m -> c0 <> 47%N -> letra c0 = false ->
  Re.greedy letra k (m ++ c0 :: rest) = None.
Proof.
  intros Hk Hm Hc0 Hl. induction Hm as [|y m Hy _ IH];
    cbn [app Re.greedy].
  - rewrite Hl. by rewrite Hk.
  - rewrite IH. rewrite (Hk y _ Hy). by destruct (letra y).
Qed.

Lemma match_cidade_blocked (m : list N) (c0 : N) (rest : list N) :
  Forall (fun x => x <> 47%N) m -> c0 <> 47%N -> letra c0 = false ->
  Re.match_here pattern_cidade (m ++ c0 :: rest) = None.
Proof.
  intros Hm Hc0 Hl. unfold pattern_cidade.
  destruct m as [|x m]; cbn [app Re.match_here]; [by rewrite Hl|].
  destruct (letra x); [|done].
  apply Forall_cons in Hm as [_ Hm].
  rewrite greedy_blocked; [done| |done|done|done].
  intros y s Hy. cbn [Re.match_here]. unfold Re.literal.
  by apply N.eqb_neq in Hy as ->.
Qed.

Lemma search_cidade_skip (m : list N) (c0 : N) (rest : list N) :
  Forall (fun x => x <> 47%N) m -> c0 <> 47%N -> letra c0 = false ->
  Re.search pattern_cidade (m ++ c0 :: rest)
  = Re.search pattern_cidade rest.
Proof.
  intros Hm Hc0 Hl. induction Hm as [|y m Hy Hm IH].
  - pose proof (match_cidade_blocked [] c0 rest) as Hb.
    cbn [app] in *. cbn [Re.search]. by rewrite Hb by done.
  - pose proof (match_cidade_blocked (y :: m) c0 rest) as Hb.
    cbn [app] in *. cbn [Re.search].
    rewrite Hb by (done || by constructor). exact IH.
Qed.

Lemma search_cidade_none (text : list N) :
  47%N ∉ text -> Re.search pattern_cidade text = None.
Proof.
  intros Hno. destruct (Re.search pattern_cidade text) as [pieces|] eqn:Hs;
    [|done].
  destruct (search_sound _ _ _ Hs) as (Hall & before & rest & E).
  unfold pattern_cidade in Hall.
  apply Forall2_cons_inv_l in Hall as (p1 & ps1 & _ & Hall & ->).
  apply Forall2_cons_inv_l in Hall as (p2 & ps2 & [H2 Hlen] & _ & ->).
  cbn in Hlen. destruct p2 as [|x [|? ?]]; try done.
  apply Forall_cons in H2 as [Hx _]. cbn in Hx. unfold Re.literal in Hx.
  apply N.eqb_eq in Hx as ->. exfalso. apply Hno. rewrite E. cbn.
  rewrite !elem_of_app. right. left. right. by left.
Qed.

(** X19. [extract_cidade_estado] takes the city and the state at the first
    slash of the text.  When that slash follows a run of letters and white
    space and is followed by two capitals, the city is the whole run,
    stripped, and the state the two capitals: the second search is not
    consulted, so the words MUNICÍPIO DE before a city stay in it.  A text
    without a slash has only the result of the second search.  A state
    taken by the first search is two capitals that stand in the text after
    a slash. *)
Theorem extract_cidade_estado_first_slash (text : list N) :
  (forall before g1 a b after,
      text = before ++ g1 ++ u "/" ++ [a; b] ++ after ->
      (47%N ∉ before) ->
      match last before with Some c => letra c = false | None => True end ->
      g1 <> [] -> Forall (fun c => letra c = true) g1 ->
      maiuscula a = true -> maiuscula b = true ->
      extract_cidade_estado search_municipio text = (strip g1, [a; b]))
  /\ (47%N ∉ text ->
      extract_cidade_estado search_municipio text
      = match search_municipio text with
        | Some (cidade, estado) => (strip cidade, strip estado)
        | None => (u "", u "")
        end)
  /\ (extract_cidade_estado search_municipio text
      = match search_municipio text with
        | Some (cidade, estado) => (strip cidade, strip estado)
        | None => (u "", u "")
        end
      \/ exists before g1 a b after,
           text = before ++ g1 ++ u "/" ++ [a; b] ++ after
           /\ g1 <> [] /\ Forall (fun c => letra c = true) g1
           /\ maiuscula a = true /\ maiuscula b = true
           /\ extract_cidade_estado search_municipio text
              = (strip g1, [a; b])).
Proof.
  assert (Huf : forall a b, maiuscula a = true -> maiuscula b = true ->
                            strip [a; b] = [a; b]).
  { intros a b Ha Hb. apply strip_no_space.
    repeat constructor; by apply maiuscula_no_space. }
  split; [|split].
  - intros before g1 a b after -> Hno Hlast Hne Hg1 Ha Hb.
    unfold extract_cidade_estado.
    assert (Hs : Re.search pattern_cidade
                   (before ++ g1 ++ u "/" ++ [a; b] ++ after)
                 = Some [g1; u "/"; [a]; [b]]).
    { destruct before as [|x before _] using rev_ind.
      - cbn [app]. apply search_here. by apply match_cidade_here.
      - rewrite last_snoc in Hlast. rewrite <- app_assoc. cbn [app].
        rewrite search_cidade_skip.
        + apply search_here. by apply match_cidade_here.
        + apply Forall_forall. intros y Hy ->. apply Hno.
          apply elem_of_app. by left.
        + intros ->. apply Hno. apply elem_of_app. right. by left.
        + exact Hlast. }
    rewrite Hs. unfold group1, group2. cbn [head default drop concat app].
    by rewrite Huf.
  - intros Hno. unfold extract_cidade_estado.
    by rewrite search_cidade_none.
  - unfold extract_cidade_estado.
    destruct (Re.search pattern_cidade text) as [pieces|] eqn:Hs;
      [right | by left].
    destruct (search_sound _ _ _ Hs) as (Hall & before & rest & E).
    unfold pattern_cidade in Hall.
    apply Forall2_cons_inv_l in Hall as (g1 & ps1 & [Hg1 Hne] & Hall & ->).
    apply Forall2_cons_inv_l in Hall as (p2 & ps2 & [H2 Hlen2] & Hall & ->).
    apply Forall2_cons_inv_l in Hall as (p3 & ps3 & [H3 Hlen3] & Hall & ->).
    apply Forall2_cons_inv_l in Hall as (p4 & ps4 & [H4 Hlen4] & Hall & ->).
    apply Forall2_nil_inv_l in Hall as ->.
    cbn in Hlen2, Hlen3, Hlen4, Hne, Hg1, H2, H3, H4.
    destruct p2 as [|x [|? ?]]; try done.
    destruct p3 as [|a [|? ?]]; try done.
    destruct p4 as [|b [|? ?]]; try done.
    apply Forall_cons in H2 as [Hx _]. unfold Re.literal in Hx.
    apply N.eqb_eq in Hx as ->.
    apply Forall_cons in H3 as [Ha _]. apply Forall_cons in H4 as [Hb _].
    exists before, g1, a, b, rest. split.
    { rewrite E. change (u "/") with [47%N]. cbn [concat app].
      by rewrite <- app_assoc. }
    split; [done|]. split; [done|]. split; [done|]. split; [done|].
    unfold group1, group2. cbn [head default drop concat app].
    by rewrite Huf.
Qed.

End CidadeEstado.

Lemma extract_cidade_estado_first_slash_witness :
  extract_cidade_estado (fun _ => None) (u "MUNICÍPIO DE SOSSÊGO/PB")
  = (u "MUNICÍPIO DE SOSSÊGO", u "PB").
Proof.
  destruct (extract_cidade_estado_first_slash (fun _ => None)
              (u "MUNICÍPIO DE SOSSÊGO/PB")) as (Hfirst & _ & _).
  rewrite (Hfirst [] (u "MUNICÍPIO DE SOSSÊGO") 80%N 66%N []).
  - vm_compute. reflexivity.
  - vm_compute. reflexivity.
  - intros H. inversion H.
  - exact I.
  - discriminate.
  - apply Forall_forall. intros c Hc. vm_compute in Hc.
    repeat (apply elem_of_cons in Hc as [->|Hc]; [reflexivity|]).
    inversion Hc.
  - reflexivity.
  - reflexivity.
Defined.

(** ** [models]: dicts and cargos *)

Section ModelsMore.

Lemma to_dict_lookup (g : Models.Cargo) :
  Models.cargo_to_dict g !! "cidade" = Some (Models.cidade g)
  /\ Models.cargo_to_dict g !! "cargo" = Some (Models.cargo g)
  /\ Models.cargo_to_dict g !! "requisito" = Some (Models.requisito g)
  /\ Models.cargo_to_dict g !! "salario" = Some (Models.salario g)
  /\ Models.cargo_to_dict g !! "carga_horaria" = Some (Models.carga_horaria g)
  /\ Models.cargo_to_dict g !! "vagas" = Some (Models.vagas g).
Proof.
  unfold Models.cargo_to_dict. cbn [list_to_map foldr uncurry fst snd].
  repeat split;
    repeat (rewrite lookup_insert_eq || rewrite lookup_insert_ne by done);
    reflexivity.
Qed.

Lemma add_cargo_to_dict (self : Models.Concurso) (g : Models.Cargo) :
  Models.concurso_id g = Models.id self ->
  Models.concurso_nome g = Models.nome self ->
  Models.add_cargo self (Models.cargo_to_dict g)
  = with_cargos self (Models.cargos self ++ [g]).
Proof.
  intros Hid Hnome.
  destruct (to_dict_lookup g) as (H1 & H2 & H3 & H4 & H5 & H6).
  unfold Models.add_cargo, with_cargos, Models.get.
  rewrite H1, H2, H3, H4, H5, H6, <- Hid, <- Hnome. cbn [default].
  by destruct g.
Qed.

Lemma readd_all (self : Models.Concurso) (gs : list Models.Cargo) :
  forall pre,
    Forall (fun g => Models.concurso_id g = Models.id self
                     /\ Models.concurso_nome g = Models.nome self) gs ->
    fold_left Models.add_cargo (map Models.cargo_to_dict gs)
              (with_cargos self pre)
    = with_cargos self (pre ++ gs).
Proof.
  induction gs as [|g gs IH]; intros pre Hall; cbn [map fold_left].
  - by rewrite app_nil_r.
  - apply Forall_cons in Hall as [[Hid Hnome] Hall].
    rewrite add_cargo_to_dict by done.
    change (with_cargos (with_cargos self pre)
              (Models.cargos (with_cargos self pre) ++ [g]))
      with (with_cargos self (pre ++ [g])).
    rewrite (IH _ Hall). by rewrite <- app_assoc.
Qed.

(** X18. [add_cargo] stamps every cargo with the id and the name of its
    concurso, whatever the dict says, and takes the city of the concurso
    for a dict without one; and it reads back what [to_dict] writes: the
    dicts [get_all_cargos] gives for a concurso whose cargos carry its id
    and name, added again to the concurso without cargos, rebuild it. *)
Theorem add_cargo_reads_back_to_dict (self : Models.Concurso) :
  (forall d, owned self -> owned (Models.add_cargo self d))
  /\ (forall d g, last (Models.cargos (Models.add_cargo self d)) = Some g ->
        d !! "cidade" = None ->
        Models.cidade g = Models.concurso_cidade self)
  /\ (owned self ->
      fold_left Models.add_cargo (Models.get_all_cargos [self])
                (with_cargos self [])
      = self).
Proof.
  split; [|split].
  - intros d Hown. unfold owned, Models.add_cargo in *.
    cbn [Models.cargos Models.id Models.nome].
    apply Forall_app. split; [exact Hown|]. by repeat constructor.
  - intros d g Hlast Hnone. unfold Models.add_cargo in Hlast.
    cbn [Models.cargos] in Hlast. rewrite last_snoc in Hlast.
    injection Hlast as <-. unfold Models.get. by rewrite Hnone.
  - intros Hown. unfold Models.get_all_cargos. cbn [flat_map].
    rewrite app_nil_r, readd_all by exact Hown.
    by destruct self.
Qed.

End ModelsMore.

Lemma add_cargo_reads_back_to_dict_witness :
  owned sossego_enfermeiro
  /\ fold_left Models.add_cargo (Models.get_all_cargos [sossego_enfermeiro])
       (with_cargos sossego_enfermeiro [])
     = sossego_enfermeiro.
Proof.
  assert (Hown : owned sossego_enfermeiro).
  { unfold owned, sossego_enfermeiro, with_cargos. cbn [Models.cargos].
    apply List.Forall_cons; [split; vm_compute; reflexivity|].
    apply List.Forall_nil. }
  split; [exact Hown|].
  destruct (add_cargo_reads_back_to_dict sossego_enfermeiro)
    as (_ & _ & Hback).
  exact (Hback Hown).
Defined.
